(** * Bedrock server updater ([auto_update.py]): model and properties

    A shallow embedding of the updater script.  Pure helpers
    ([extract_numbers], [compare_version], the line handling of
    [update_server_properties]) are functions; the functions that touch the
    disk run in a small state-and-exception monad over a tree-shaped file
    system, where an exception leaves the changes made so far in place, as
    in Python. *)

From Stdlib Require Import ZArith Ascii String List Lia Bool Arith.
From stdpp Require Import base option list strings gmap sorting.

Local Open Scope Z_scope.
Set Warnings "-register-all,-clear-no-such-hyp".

(* ================================================================== *)
(** * Part I: definitions *)
(* ================================================================== *)

(** ** Strings as Python uses them

    Strings are sequences of ASCII characters; the script only ever handles
    file names, URLs and the lines of [server.properties]. *)

Module Str.

Definition is_digit (c : ascii) : bool :=
  match c with
  | "0" | "1" | "2" | "3" | "4" | "5" | "6" | "7" | "8" | "9" => true
  | _ => false
  end%char.

Definition digit_value (c : ascii) : Z :=
  Z.of_nat (nat_of_ascii c) - 48.

(** The characters [str.strip()] and [int()] treat as white space
    (the ASCII part of Python's set: TAB, LF, VT, FF, CR, FS, GS, RS, US,
    space). *)
Definition is_space (c : ascii) : bool :=
  match c with
  | "009" | "010" | "011" | "012" | "013"
  | "028" | "029" | "030" | "031" | " " => true
  | _ => false
  end%char.

Definition newline : string := String "010"%char "".

(** [s.startswith(p)] *)
Fixpoint startswith (p s : string) : bool :=
  match p, s with
  | "", _ => true
  | String a p', String b s' => if Ascii.eqb a b then startswith p' s' else false
  | String _ _, "" => false
  end.

(** [c in s] for a single character *)
Fixpoint contains (c : ascii) (s : string) : bool :=
  match s with
  | "" => false
  | String a s' => if Ascii.eqb a c then true else contains c s'
  end.

Fixpoint lstrip (s : string) : string :=
  match s with
  | "" => ""
  | String a s' => if is_space a then lstrip s' else s
  end.

(** Drops the trailing white space: a character stays when something
    that stays follows it, or when it is not white space itself. *)
Fixpoint rstrip (s : string) : string :=
  match s with
  | "" => ""
  | String a s' =>
      match rstrip s' with
      | "" => if is_space a then "" else String a ""
      | r => String a r
      end
  end.

(** [s.strip()] *)
Definition strip (s : string) : string := rstrip (lstrip s).

(** [s.split(sep)] for a one-character separator: the pieces between the
    occurrences of [sep]; always at least one piece. *)
Fixpoint split (sep : ascii) (s : string) : list string :=
  match s with
  | "" => [""]
  | String a s' =>
      if Ascii.eqb a sep then "" :: split sep s'
      else match split sep s' with
           | piece :: rest => String a piece :: rest
           | [] => [String a ""]
           end
  end.

(** [s.count(c)] for a single character *)
Fixpoint count (c : ascii) (s : string) : nat :=
  match s with
  | "" => O
  | String a s' => if Ascii.eqb a c then S (count c s') else count c s'
  end.

(** [s.replace(old, "")], scanning left to right without overlap; the
    counter is the number of characters of a found [old] still to drop. *)
Fixpoint remove_from (drop : nat) (old s : string) : string :=
  match s with
  | "" => ""
  | String a s' =>
      match drop with
      | S k => remove_from k old s'
      | O =>
          if startswith old s
          then match String.length old with
               | O => String a (remove_from O old s')
               | S k => remove_from k old s'
               end
          else String a (remove_from O old s')
      end
  end.
Definition remove_all (old s : string) : string := remove_from O old s.

(** The longest prefix of decimal digits, and what follows it. *)
Fixpoint span_digits (s : string) : string * string :=
  match s with
  | "" => ("", "")
  | String a s' =>
      if is_digit a
      then let '(d, r) := span_digits s' in (String a d, r)
      else ("", s)
  end.

(** Digits with single underscores between them, as [int()] accepts
    them; the accumulator is the value read so far. *)
Fixpoint int_digits (acc : Z) (after_digit : bool) (s : string) : option Z :=
  match s with
  | "" => if after_digit then Some acc else None
  | String a s' =>
      if is_digit a then int_digits (10 * acc + digit_value a) true s'
      else if Ascii.eqb a "_"
           then (if after_digit then int_digits acc false s' else None)
      else None
  end.

(** The characters [int()] skips around the literal in a [str] of ASCII
    characters: C's white space (TAB, LF, VT, FF, CR, space).  Unlike
    [str.strip()], [int()] does not skip FS, GS, RS and US. *)
Definition is_c_space (c : ascii) : bool :=
  match c with
  | "009" | "010" | "011" | "012" | "013" | " " => true
  | _ => false
  end%char.

Fixpoint int_lstrip (s : string) : string :=
  match s with
  | "" => ""
  | String a s' => if is_c_space a then int_lstrip s' else s
  end.

Fixpoint int_rstrip (s : string) : string :=
  match s with
  | "" => ""
  | String a s' =>
      match int_rstrip s' with
      | "" => if is_c_space a then "" else String a ""
      | r => String a r
      end
  end.

(** The number of decimal digits in [s]. *)
Fixpoint digit_count (s : string) : Z :=
  match s with
  | "" => 0
  | String a s' => if is_digit a then 1 + digit_count s' else digit_count s'
  end.

(** [sys.get_int_max_str_digits()], as CPython 3.11 starts with it. *)
Definition int_max_str_digits : Z := 4300.

(** [int(s)] for a [str] of ASCII characters: [None] stands for
    [ValueError].  White space around the literal is skipped, a sign may
    come first, and a literal of more than [int_max_str_digits] digits is
    refused. *)
Definition py_int (s : string) : option Z :=
  let literal := int_rstrip (int_lstrip s) in
  if int_max_str_digits <? digit_count literal then None
  else match literal with
       | String "-" d => Z.opp <$> int_digits 0 false d
       | String "+" d => int_digits 0 false d
       | d => int_digits 0 false d
       end.

(** The value of a run of decimal digits. *)
Fixpoint digits_value (acc : Z) (s : string) : Z :=
  match s with
  | "" => acc
  | String a s' => digits_value (10 * acc + digit_value a) s'
  end.

End Str.

(** A string that does not begin with white space. *)
Definition head_kept (s : string) : Prop :=
  match s with
  | "" => True
  | String a _ => Str.is_space a = false
  end.

(** Keys and values as the reading loop stores them: stripped, and free of
    the delimiter. *)
Definition clean (x : string) : Prop :=
  Str.strip x = x ∧ Str.contains "=" x = false.

(** ** Exceptions

    What a call returns: a value, or the exception it raises. *)

Inductive exn :=
| FileNotFoundError | FileExistsError | NotADirectoryError
| IsADirectoryError | DirectoryNotEmpty | SameFileError | ShutilError
| ValueError | KeyError | BadZipFile | TypeError.

Inductive result (A : Type) :=
| Ok (a : A)
| Raise (e : exn).
Arguments Ok {A} a.
Arguments Raise {A} e.

(** ** Numbers in strings: [extract_numbers] *)

(** An element of the list [extract_numbers] returns: an [int], or a
    [float] kept as the decimal text handed to [float()]. *)
Inductive number :=
| PyInt (z : Z)
| PyFloat (literal : string).

Module Regex.

(** [\d+] at the start of [s]: the matched text. *)
Definition match_int (s : string) : option string :=
  match Str.span_digits s with
  | ("", _) => None
  | (d, _) => Some d
  end.

(** [\d*\.\d+] at the start of [s].  [\d*] is greedy; giving digits back
    never helps, since the character after a shorter run is a digit and
    not the dot. *)
Definition match_decimal (s : string) : option string :=
  match Str.span_digits s with
  | (d, String "." r) =>
      match Str.span_digits r with
      | ("", _) => None
      | (f, _) => Some (d +:+ String "." f)
      end
  | _ => None
  end.

(** [[-+]?X] at the start of [s]: the sign is taken when it is there and
    [X] follows; otherwise [X] is tried on [s] itself. *)
Definition match_signed (X : string → option string) (s : string)
  : option string :=
  match s with
  | String c s' =>
      if Ascii.eqb c "-" || Ascii.eqb c "+"
      then match X s' with
           | Some t => Some (String c t)
           | None => X s
           end
      else X s
  | "" => X s
  end.

(** [A|B]: the first alternative that matches. *)
Definition match_alt (A B : string → option string) (s : string)
  : option string :=
  match A s with
  | Some t => Some t
  | None => B s
  end.

(** The pattern [extract_numbers] builds by concatenating text.  The
    alternation bar binds weakest, so with both flags the pattern
    [[-+]?\d*\.\d+|\d+] reads [([-+]?\d*\.\d+)|(\d+)]: the sign prefix
    belongs to the first alternative only. *)
Definition pattern (match_float match_sign : bool) : string → option string :=
  match match_float, match_sign with
  | false, false => match_int
  | true, false => match_alt match_decimal match_int
  | false, true => match_signed match_int
  | true, true => match_alt (match_signed match_decimal) match_int
  end.

(** [re.findall]: leftmost matches, left to right, the search resuming
    where the last match ended.  [skip] counts the characters of the
    last match still to step over. *)
Fixpoint findall_from (pat : string → option string) (skip : nat) (s : string)
  : list string :=
  match s with
  | "" => []
  | String a s' =>
      match skip with
      | S k => findall_from pat k s'
      | O =>
          match pat s with
          | Some t => t :: findall_from pat (Nat.pred (String.length t)) s'
          | None => findall_from pat O s'
          end
      end
  end.

Definition findall (pat : string → option string) (s : string) : list string :=
  findall_from pat O s.

End Regex.

(** [float(match) if '.' in match else int(match)]: [int] raises
    [ValueError] on a match of more than [Str.int_max_str_digits] digits.
    [float] accepts every match of the patterns that holds a dot. *)
Definition number_of_match (m : string) : result number :=
  if Str.contains "." m then Ok (PyFloat m)
  else match Str.py_int m with
       | Some z => Ok (PyInt z)
       | None => Raise ValueError
       end.

(** A list comprehension over [l] whose element expression can raise. *)
Fixpoint try_map {A B} (f : A → result B) (l : list A) : result (list B) :=
  match l with
  | [] => Ok []
  | x :: rest =>
      match f x with
      | Raise e => Raise e
      | Ok y =>
          match try_map f rest with
          | Raise e => Raise e
          | Ok ys => Ok (y :: ys)
          end
      end
  end.

Definition extract_numbers (s : string) (match_float match_sign : bool)
  : result (list number) :=
  try_map number_of_match
    (Regex.findall (Regex.pattern match_float match_sign) s).

(** A version is the list of numbers found in a name.  Every call site
    uses [match_float=False, match_sign=False] on a file name or on the
    download link, where a match is a run of digits: [extract_version] is
    the list of their values, which is what [extract_numbers] returns
    there whenever it returns (theorem [extract_numbers_plain]).  A name
    with a run of more than [Str.int_max_str_digits] digits, on which the
    call raises, is outside the model of the call sites; a file name holds
    at most 255 bytes. *)
Definition version := list Z.

Definition extract_version (name : string) : version :=
  Str.digits_value 0 <$> Regex.findall Regex.match_int name.

(** ** [compare_version] *)

Fixpoint compare_loop (v1 v2 : version) (indices : list nat) : Z :=
  match indices with
  | [] => 0
  | i :: rest =>
      if nth i v1 0 <? nth i v2 0 then -1
      else if nth i v1 0 >? nth i v2 0 then 1
      else compare_loop v1 v2 rest
  end.

Definition compare_version (v1 v2 : version) : Z :=
  let compare_length := Nat.min (length v1) (length v2) in
  compare_loop v1 v2 (seq 0 compare_length).

(** ** Python's [sorted]

    [sorted] only ever asks whether one element is less than another.  For
    a list of fewer than 64 elements CPython finds the run the list starts
    with (reversing it when it is strictly descending) and inserts the
    remaining elements one by one at the place a binary search gives.  On
    longer lists CPython merges several such runs; the result is the same
    whenever [lt] is a consistent ordering, since a stable sort has one
    result only. *)

Section Sorted.
Context {A : Type} (lt : A → A → bool).

Fixpoint run_ascending (prev : A) (l : list A) : nat :=
  match l with
  | [] => O
  | x :: l' => if lt x prev then O else S (run_ascending x l')
  end.

Fixpoint run_descending (prev : A) (l : list A) : nat :=
  match l with
  | [] => O
  | x :: l' => if lt x prev then S (run_descending x l') else O
  end.

(** Length of the initial run, and whether it is descending. *)
Definition count_run (l : list A) : nat * bool :=
  match l with
  | [] => (O, false)
  | [x] => (1%nat, false)
  | x :: y :: l' =>
      if lt y x then (S (S (run_descending y l')), true)
      else (S (S (run_ascending y l')), false)
  end.

(** Binary search for the place of [pivot] in the sorted list [a],
    between the indices [l] and [r]. *)
Fixpoint bisect (pivot : A) (a : list A) (l r : nat) (fuel : nat) : nat :=
  match fuel with
  | O => l
  | S fuel' =>
      if (l <? r)%nat then
        let p := (l + (r - l) / 2)%nat in
        match a !! p with
        | Some x =>
            if lt pivot x then bisect pivot a l p fuel'
            else bisect pivot a (S p) r fuel'
        | None => l
        end
      else l
  end.

Definition insert_sorted (a : list A) (pivot : A) : list A :=
  let l := bisect pivot a O (length a) (length a) in
  take l a ++ pivot :: drop l a.

Definition binarysort (a rest : list A) : list A :=
  fold_left insert_sorted rest a.

Definition py_sorted (l : list A) : list A :=
  let '(n, descending) := count_run l in
  let run := take n l in
  binarysort (if descending then reverse run else run) (drop n l).

(** [sorted(..., reverse=True)]: reverse, sort, reverse again, which
    keeps elements that compare equal in their original order. *)
Definition py_sorted_reverse (l : list A) : list A :=
  reverse (py_sorted (reverse l)).

End Sorted.

(** [sorted(names)] on strings, [sorted(..., key=cmp_to_key(cmp))] and
    [sorted(..., key=f)] for an integer key. *)
Definition string_ltb (a b : string) : bool :=
  match String.compare a b with Lt => true | _ => false end.
Definition sorted_names (l : list string) : list string :=
  py_sorted string_ltb l.
Definition cmp_lt {A} (cmp : A → A → Z) (a b : A) : bool := cmp a b <? 0.
Definition key_lt {A} (key : A → Z) (a b : A) : bool := key a <? key b.

(** ** The file system *)

(** A regular file holds its text as the list of lines [readlines]
    returns (each with its line end); a directory lists its entries in the
    order [os.listdir] reports them. *)
Inductive node :=
| File (lines : list string)
| Dir (entries : list (string * node)).

Definition path := list string.

(** [os.path.join(dir, name)] and [os.path.basename(p)] *)
Definition join (dir : path) (name : string) : path := dir ++ [name].
Definition basename (p : path) : string := List.last p "".

Fixpoint dir_lookup (x : string) (es : list (string * node)) : option node :=
  match es with
  | [] => None
  | (y, n) :: es' => if decide (x = y) then Some n else dir_lookup x es'
  end.

(** Replaces the entry [x], or adds it at the end. *)
Fixpoint dir_set (x : string) (n : node) (es : list (string * node))
  : list (string * node) :=
  match es with
  | [] => [(x, n)]
  | (y, m) :: es' =>
      if decide (x = y) then (y, n) :: es' else (y, m) :: dir_set x n es'
  end.

Fixpoint dir_remove (x : string) (es : list (string * node))
  : list (string * node) :=
  match es with
  | [] => []
  | (y, m) :: es' =>
      if decide (x = y) then dir_remove x es' else (y, m) :: dir_remove x es'
  end.

Definition dir_put (x : string) (v : option node) (es : list (string * node))
  : list (string * node) :=
  match v with
  | Some n => dir_set x n es
  | None => dir_remove x es
  end.

Fixpoint lookup_path (p : path) (n : node) : option node :=
  match p with
  | [] => Some n
  | x :: p' =>
      match n with
      | Dir es => dir_lookup x es ≫= lookup_path p'
      | File _ => None
      end
  end.

(** Puts [v] at [p] ([None] removes the entry); fails when the directory
    that is to hold the entry does not exist. *)
Fixpoint write_path (p : path) (v : option node) (n : node) : option node :=
  match p with
  | [] => v
  | x :: p' =>
      match n with
      | Dir es =>
          match p' with
          | [] => Some (Dir (dir_put x v es))
          | _ =>
              c ← dir_lookup x es;
              c' ← write_path p' v c;
              Some (Dir (dir_set x c' es))
          end
      | File _ => None
      end
  end.

(** [os.makedirs(p, exist_ok=True)] on the tree: missing directories along
    [p] are created; fails when a regular file is in the way. *)
Fixpoint mkdirs (p : path) (n : node) : option node :=
  match n with
  | File _ => None
  | Dir es =>
      match p with
      | [] => Some (Dir es)
      | x :: p' =>
          c' ← mkdirs p' (default (Dir []) (dir_lookup x es));
          Some (Dir (dir_set x c' es))
      end
  end.

(** What [shutil.copy2] and [shutil.copytree(..., dirs_exist_ok=True)] make
    of a destination [dst] when copying the entry [name] with content
    [src] onto it: the new destination node, and whether an error was
    recorded on the way.  [copytree] goes on after an error in an entry
    and raises at the end. *)
Fixpoint copy_node (name : string) (src : node) (dst : option node)
  {struct src} : node * bool :=
  match src with
  | File c =>
      match dst with
      | Some (Dir ds) =>
          (* copy2 onto a directory writes [dst/name] *)
          match dir_lookup name ds with
          | Some (Dir _) => (Dir ds, true)
          | _ => (Dir (dir_set name (File c) ds), false)
          end
      | _ => (File c, false)
      end
  | Dir es =>
      match dst with
      | Some (File c') => (File c', true)
      | _ =>
          let ds := match dst with Some (Dir ds) => ds | _ => [] end in
          let fix go (es : list (string * node)) (ds : list (string * node))
                     (err : bool) : list (string * node) * bool :=
            match es with
            | [] => (ds, err)
            | (x, child) :: es' =>
                let '(c', e) := copy_node x child (dir_lookup x ds) in
                go es' (dir_set x c' ds) (err || e)
            end in
          let '(ds', err) := go es ds false in
          (Dir ds', err)
      end
  end.

(** Whether one path lies on the other. *)
Fixpoint overlap (p q : path) : bool :=
  match p, q with
  | x :: p', y :: q' => if decide (x = y) then overlap p' q' else false
  | _, _ => true
  end.

(** ** The state-and-exception monad *)


(** The disk, and the URLs fetched so far. *)
Record world := World { root : node; fetched : list string }.

Definition M (A : Type) : Type := world → result A * world.

Definition ret {A} (a : A) : M A := λ w, (Ok a, w).
Definition bind {A B} (m : M A) (f : A → M B) : M B := λ w,
  match m w with
  | (Ok a, w') => f a w'
  | (Raise e, w') => (Raise e, w')
  end.

Declare Scope M_scope.
Delimit Scope M_scope with M.
Bind Scope M_scope with M.
Notation "x ← y ; z" := (bind y (λ x, z))
  (at level 20, y at level 100, z at level 200, only parsing) : M_scope.
Notation "' x ← y ; z" := (bind y (λ x, z))
  (at level 20, x pattern, y at level 100, z at level 200, only parsing) : M_scope.
Notation "x ;; z" := (bind x (λ _, z))
  (at level 100, z at level 200, only parsing, right associativity) : M_scope.
Local Open Scope M_scope.

Definition raise {A} (e : exn) : M A := λ w, (Raise e, w).

(** [try: m except: handler] *)
Definition try_except {A} (m : M A) (handler : M A) : M A := λ w,
  match m w with
  | (Ok a, w') => (Ok a, w')
  | (Raise _, w') => handler w'
  end.

Fixpoint for_each {X} (l : list X) (body : X → M unit) : M unit :=
  match l with
  | [] => ret tt
  | x :: l' => body x ;; for_each l' body
  end.

Definition stat (p : path) (w : world) : option node := lookup_path p (root w).

Definition put (p : path) (v : option node) (w : world) : world :=
  match write_path p v (root w) with
  | Some r => World r (fetched w)
  | None => w
  end.

(** *** [os] and [shutil] *)

Definition exists_ (p : path) : M bool := λ w,
  (Ok (bool_decide (is_Some (stat p w))), w).

Definition isfile (p : path) : M bool := λ w,
  (Ok (match stat p w with Some (File _) => true | _ => false end), w).

Definition isdir (p : path) : M bool := λ w,
  (Ok (match stat p w with Some (Dir _) => true | _ => false end), w).

Definition listdir (p : path) : M (list string) := λ w,
  match stat p w with
  | Some (Dir es) => (Ok (es.*1), w)
  | Some (File _) => (Raise NotADirectoryError, w)
  | None => (Raise FileNotFoundError, w)
  end.

Definition makedirs (p : path) : M unit := λ w,
  match mkdirs p (root w) with
  | Some r => (Ok tt, World r (fetched w))
  | None => (Raise FileExistsError, w)
  end.

Definition remove (p : path) : M unit := λ w,
  match stat p w with
  | Some (File _) => (Ok tt, put p None w)
  | Some (Dir _) => (Raise IsADirectoryError, w)
  | None => (Raise FileNotFoundError, w)
  end.

Definition rmtree (p : path) : M unit := λ w,
  match stat p w with
  | Some (Dir _) => (Ok tt, put p None w)
  | Some (File _) => (Raise NotADirectoryError, w)
  | None => (Raise FileNotFoundError, w)
  end.

Definition rename (src dst : path) : M unit := λ w,
  match stat src w with
  | None => (Raise FileNotFoundError, w)
  | Some n =>
      if decide (src = dst) then (Ok tt, w) else
      match n, stat dst w with
      | File _, Some (Dir _) => (Raise IsADirectoryError, w)
      | Dir _, Some (File _) => (Raise NotADirectoryError, w)
      | Dir _, Some (Dir (_ :: _)) => (Raise DirectoryNotEmpty, w)
      | _, _ =>
          match write_path dst (Some n) (root w) with
          | Some r => (Ok tt, put src None (World r (fetched w)))
          | None => (Raise FileNotFoundError, w)
          end
      end
  end.

(** [open(p, "r").readlines()] *)
Definition readlines (p : path) : M (list string) := λ w,
  match stat p w with
  | Some (File ls) => (Ok ls, w)
  | Some (Dir _) => (Raise IsADirectoryError, w)
  | None => (Raise FileNotFoundError, w)
  end.

(** [open(p, "w")]: the file is created, or emptied when it exists. *)
Definition open_w (p : path) : M unit := λ w,
  match stat p w with
  | Some (Dir _) => (Raise IsADirectoryError, w)
  | _ =>
      match write_path p (Some (File [])) (root w) with
      | Some r => (Ok tt, World r (fetched w))
      | None => (Raise FileNotFoundError, w)
      end
  end.

(** [f.write(text)] on a file opened at [p] *)
Definition write (p : path) (text : string) : M unit := λ w,
  match stat p w with
  | Some (File ls) => (Ok tt, put p (Some (File (ls ++ [text]))) w)
  | _ => (Raise FileNotFoundError, w)
  end.

Definition copy2 (src dst : path) : M unit := λ w,
  match stat src w with
  | Some (File c) =>
      let dst' := match stat dst w with
                  | Some (Dir _) => join dst (basename src)
                  | _ => dst
                  end in
      if decide (src = dst') then (Raise SameFileError, w) else
      match stat dst' w with
      | Some (Dir _) => (Raise IsADirectoryError, w)
      | _ =>
          match write_path dst' (Some (File c)) (root w) with
          | Some r => (Ok tt, World r (fetched w))
          | None => (Raise FileNotFoundError, w)
          end
      end
  | Some (Dir _) => (Raise IsADirectoryError, w)
  | None => (Raise FileNotFoundError, w)
  end.

(** [shutil.copytree(src, dst, dirs_exist_ok=True)].  The callers copy
    between different trees; a copy of a tree onto a path that lies on it
    is answered with an error here. *)
Definition copytree (src dst : path) : M unit := λ w,
  match stat src w with
  | Some (Dir es) =>
      if overlap src dst then (Raise ShutilError, w) else
      match mkdirs dst (root w) with
      | None => (Raise FileExistsError, w)
      | Some r =>
          let '(n, err) := copy_node (basename src) (Dir es) (lookup_path dst r) in
          let w' := put dst (Some n) (World r (fetched w)) in
          if err then (Raise ShutilError, w') else (Ok tt, w')
      end
  | Some (File _) => (Raise NotADirectoryError, w)
  | None => (Raise FileNotFoundError, w)
  end.

Definition lift {A} (r : result A) : M A := λ w, (r, w).

Definition when (b : bool) (m : M unit) : M unit := if b then m else ret tt.

(** [[x for x in names if os.path.isfile(os.path.join(dir, x))]] *)
Fixpoint only_files (dir : path) (names : list string) : M (list string) :=
  match names with
  | [] => ret []
  | x :: rest =>
      b ← isfile (join dir x);
      keep ← only_files dir rest;
      ret (if b then x :: keep else keep)
  end.

(** ** [update_server_properties] *)

Abbreviation dict := (gmap string string).

(** [not line.startswith("#") and not line == "\n"] *)
Definition is_key_line (line : string) : bool :=
  negb (Str.startswith "#" line) && negb (String.eqb line Str.newline).

(** [key, value = line.split("=")]: the unpacking raises [ValueError]
    unless the split gives exactly two pieces. *)
Definition split_key_value (line : string) : result (string * string) :=
  match Str.split "=" line with
  | [key; value] => Ok (key, value)
  | _ => Raise ValueError
  end.

(** The reading loop: fills the dictionary line by line. *)
Fixpoint read_dict (lines : list string) (d : dict) : result dict :=
  match lines with
  | [] => Ok d
  | line :: rest =>
      if is_key_line line then
        match split_key_value line with
        | Ok (key, value) => read_dict rest (<[Str.strip key := Str.strip value]> d)
        | Raise e => Raise e
        end
      else read_dict rest d
  end.

(** The loop over [all_keys]. *)
Definition resolve_key (source_dict target_dict : dict) (result_dict : dict)
  (key : string) : dict :=
  match source_dict !! key, target_dict !! key with
  | Some sv, Some _ => <[key := sv]> result_dict      (* in both: use old *)
  | _, None => result_dict                            (* only in source: dropped *)
  | None, Some tv => <[key := tv]> result_dict        (* only in target: use new *)
  end.

Definition resolve (source_dict target_dict : dict) : dict :=
  let all_keys :=
    sorted_names (elements (dom source_dict ∪ dom target_dict)) in
  fold_left (resolve_key source_dict target_dict) all_keys ∅.

(** [line.split("=")[0].strip()] *)
Definition key_of_line (line : string) : string :=
  Str.strip (default "" (head (Str.split "=" line))).

(** One round of the writing loop: the text written for [line]. *)
Definition render_line (result_dict : dict) (line : string) : result string :=
  if is_key_line line then
    let key := key_of_line line in
    match result_dict !! key with
    | Some v => Ok (key +:+ "=" +:+ v +:+ Str.newline)
    | None => Raise KeyError
    end
  else Ok line.

(** A line the reading loops cannot unpack: it is neither a comment nor
    the empty line, and does not hold exactly one ["="]. *)
Definition malformed (line : string) : Prop :=
  is_key_line line = true ∧ Str.count "=" line ≠ 1%nat.

(** The text of a key line of the target once its value is resolved:
    the source's value when the source has the key, else the target's. *)
Definition resolved_line (source_dict target_dict : dict) (line : string) : string :=
  let key := key_of_line line in
  key +:+ "=" +:+ default (default "" (target_dict !! key)) (source_dict !! key)
      +:+ Str.newline.

(** The target document with every key line resolved. *)
Definition resolved_lines (source_dict target_dict : dict) (lines : list string)
  : list string :=
  (λ line, if is_key_line line then resolved_line source_dict target_dict line
           else line) <$> lines.

Definition update_server_properties (source_file target_file : path) : M unit :=
  source_lines ← readlines source_file;
  source_dict ← lift (read_dict source_lines ∅);
  target_lines ← readlines target_file;
  target_dict ← lift (read_dict target_lines ∅);
  let result_dict := resolve source_dict target_dict in
  open_w target_file ;;
  for_each target_lines (λ line,
    text ← lift (render_line result_dict line);
    write target_file text).

(** ** [update_server] *)

Definition SPECIAL_PATHS : list string :=
  ["worlds"; "allowlist.json"; "permissions.json"; "server.properties"].

(** [shutil.copy2] for a regular file, [shutil.copytree] otherwise *)
Definition copy_entry (src dst : path) : M unit :=
  b ← isfile src;
  if b then copy2 src dst else copytree src dst.

(** Step 1: the entries of the release that are not special. *)
Definition copy_release (latest_server_dir target_server_dir : path) : M unit :=
  names ← listdir latest_server_dir;
  for_each (sorted_names names) (λ filename,
    when (bool_decide (filename ∉ SPECIAL_PATHS))
      (copy_entry (join latest_server_dir filename)
                  (join target_server_dir filename))).

(** Step 2: the special entries other than [server.properties], from the
    old server (Python walks the set in an order of its own). *)
Definition copy_special (local_server_dir target_server_dir : path) : M unit :=
  when (bool_decide (target_server_dir ≠ local_server_dir))
    (for_each (filter (λ x, x ≠ "server.properties") SPECIAL_PATHS) (λ filename,
       copy_entry (join local_server_dir filename)
                  (join target_server_dir filename))).

(** Step 3: [server.properties]. *)
Definition merge_properties (local_server_dir latest_server_dir target_server_dir : path)
  : M unit :=
  let old_property_file := join local_server_dir "server.properties" in
  let latest_property_file := join latest_server_dir "server.properties" in
  let new_property_file_temp := join target_server_dir "server.properties.temp" in
  copy2 latest_property_file new_property_file_temp ;;
  update_server_properties old_property_file new_property_file_temp ;;
  let new_property_file := join target_server_dir "server.properties" in
  b ← exists_ new_property_file;
  when b (remove new_property_file) ;;
  rename new_property_file_temp new_property_file.

Definition update_server (local_server_dir latest_server_dir : path)
  (target_server_dir : option path) : M unit :=
  let target_server_dir := default local_server_dir target_server_dir in
  makedirs target_server_dir ;;
  copy_release latest_server_dir target_server_dir ;;
  copy_special local_server_dir target_server_dir ;;
  merge_properties local_server_dir latest_server_dir target_server_dir ;;
  (* 4. remove the old server *)
  when (bool_decide (target_server_dir ≠ local_server_dir))
    (rmtree local_server_dir) ;;
  (* 5. remove the latest_server_dir *)
  rmtree latest_server_dir.

(** ** Archives, the clock and the network

    What lies outside the script is a parameter of the model: the formats'
    packers, the minute the clock shows, what the archive reader makes of a
    file, and what the server answers. *)

Record archiver := Archiver {
  (** the archive [zipfile] or [py7zr] writes for a tree *)
  pack : string → node → list string;
  (** [extractall]: the entries it puts in place, and whether it finished;
      nothing at all is created when the file cannot be opened as an
      archive. *)
  unpack : list string → option (list (string * node)) * bool
}.

Record network := Network {
  (** the download link found on the page: an exception, no link, or it *)
  search : result (option string);
  (** status code and body of the answer to a download request *)
  download : string → result (Z * list string)
}.

(** ** [backup_local_server] *)

Section Backup.
Context (ar : archiver).
(** [today.strftime("%Y%m%d%H%M")] *)
Context (now_time : string).

(** Writing the archive: the file is created first, then filled.  A
    missing [server_dir] raises after the (empty) archive exists. *)
Definition write_archive (type : string) (server_dir target_file : path)
  : M unit :=
  open_w target_file ;;
  λ w, match stat server_dir w with
       | Some n => (Ok tt, put target_file (Some (File (pack ar type n))) w)
       | None => (Raise FileNotFoundError, w)
       end.

Definition backup_local_server (server_dir backup_dir : path) (type : string)
  : M unit :=
  makedirs backup_dir ;;
  let target_name := now_time +:+ "-" +:+ basename server_dir in
  makedirs backup_dir ;;
  let target_file := join backup_dir (target_name +:+ "." +:+ type) in
  (* remove existed backup *)
  b ← isfile target_file;
  when b (remove target_file) ;;
  (* create a new one *)
  if decide (type = "zip") then write_archive type server_dir target_file
  else if decide (type = "7z") then write_archive type server_dir target_file
  else raise ValueError.
End Backup.

(** ** Pruning: [delete_download_cache_files] and
       [delete_local_server_backup_files] *)

(** [l[-n:]] for [n > 0], and [l[n:]] *)
Definition last_n {A} (n : nat) (l : list A) : list A := drop (length l - n) l.

(** The inner loop: is [this_version] equal, for [compare_version], to one
    of the versions kept? *)
Definition kept (keep : list version) (this_version : version) : bool :=
  existsb (λ keep_version, compare_version keep_version this_version =? 0) keep.

Definition delete_download_cache_files (download_dir : path) (max_num : Z)
  : M unit :=
  if max_num >=? 0 then
    names ← listdir download_dir;
    files ← only_files download_dir names;
    let all_versions :=
      py_sorted (cmp_lt compare_version) (extract_version <$> files) in
    if Z.of_nat (length all_versions) >? max_num then
      names ← listdir download_dir;
      for_each (sorted_names names) (λ filename,
        b ← isfile (join download_dir filename);
        when b
          (let this_version := extract_version filename in
           let delete :=
             if max_num >? 0
             then negb (kept (last_n (Z.to_nat max_num) all_versions) this_version)
             else true in
           when delete (remove (join download_dir filename))))
    else ret tt
  else ret tt.

(** [int(x.split('-')[0])] *)
Definition backup_key (x : string) : option Z :=
  Str.py_int (default "" (head (Str.split "-" x))).

(** The keys are computed for every file before the sort starts; the
    first name without a leading integer raises [ValueError]. *)
Fixpoint with_keys (names : list string) : result (list (Z * string)) :=
  match names with
  | [] => Ok []
  | x :: rest =>
      match backup_key x with
      | None => Raise ValueError
      | Some k =>
          match with_keys rest with
          | Ok l => Ok ((k, x) :: l)
          | Raise e => Raise e
          end
      end
  end.

Definition delete_local_server_backup_files (backup_dir : path) (max_num : Z)
  : M unit :=
  if max_num >=? 0 then
    names ← listdir backup_dir;
    files ← only_files backup_dir names;
    keyed ← lift (with_keys files);
    let all_files := (py_sorted_reverse (key_lt fst) keyed).*2 in
    if Z.of_nat (length all_files) >? max_num then
      for_each (drop (Z.to_nat max_num) all_files) (λ filename,
        remove (join backup_dir filename))
    else ret tt
  else ret tt.

(** ** [get_local_server_version] *)

Definition get_local_server_version (server_dir : path) : M version :=
  let behavior_path := join server_dir "behavior_packs" in
  names ← listdir behavior_path;
  ret (fold_left (λ latest_version dirname,
          if Str.startswith "vanilla_" dirname then
            let this_version := extract_version (Str.remove_all "vanilla_" dirname) in
            if compare_version latest_version this_version <? 0
            then this_version else latest_version
          else latest_version) names [0]).

(** ** [download_and_extract_latest_server] *)

Section Download.
Context (ar : archiver) (net : network).

Definition search_url : string :=
  "https://minecraft.net/en-us/download/server/bedrock/".

(** [requests.get(url)]: the request is recorded. *)
Definition requests_get {A} (url : string) (answer : result A) : M A :=
  λ w, (answer, World (root w) (fetched w ++ [url])).

(** [with zipfile.ZipFile(file, 'r') as zip_ref: zip_ref.extractall(dir)] *)
Definition extractall (archive_file extract_dir : path) : M unit :=
  content ← readlines archive_file;
  match unpack ar content with
  | (None, _) => raise BadZipFile
  | (Some members, finished) =>
      makedirs extract_dir ;;
      (λ w, let '(n, _) := copy_node "" (Dir members) (stat extract_dir w) in
            (Ok tt, put extract_dir (Some n) w)) ;;
      if finished then ret tt else raise BadZipFile
  end.

Definition download_and_extract_latest_server (download_dir : path)
  (local_version : version) : M (option path) :=
  try_except
    (found ← requests_get search_url (search net);
     match found with
     | Some download_url =>
         let remote_version := extract_version download_url in
         if compare_version local_version remote_version <? 0 then
           let file_name := List.last (Str.split "/" download_url) "" in
           makedirs download_dir ;;
           let download_file := join download_dir file_name in
           let extract_dir := join download_dir (Str.remove_all ".zip" file_name) in
           (* check if cache available *)
           cached ← isfile download_file;
           from_cache ←
             (if cached then
                try_except
                  (extractall download_file extract_dir ;; ret true)
                  (rmtree download_file ;; rmtree extract_dir ;; ret false)
              else ret false);
           if from_cache then ret (Some extract_dir)
           else
             (* download the server online *)
             '(status_code, content) ← requests_get download_url (download net download_url);
             if status_code =? 200 then
               open_w download_file ;;
               for_each content (write download_file) ;;
               extractall download_file extract_dir ;;
               ret (Some extract_dir)
             else ret None
         else ret None
     | None => ret None
     end)
    (ret None).
End Download.

(** ** Vocabulary of the statements *)

(** Whether [q] is an initial segment of [p] (or [p] itself). *)
Fixpoint is_prefix (q p : path) : bool :=
  match q, p with
  | [], _ => true
  | x :: q', y :: p' => if decide (x = y) then is_prefix q' p' else false
  | _ :: _, [] => false
  end.

Definition is_dir (p : path) (w : world) : Prop :=
  ∃ es, stat p w = Some (Dir es).

Definition is_file (p : path) (w : world) : Prop :=
  ∃ ls, stat p w = Some (File ls).

(** [m] leaves what is at [q] as it is, whatever its outcome. *)
Definition frames {A} (q : path) (m : M A) : Prop :=
  ∀ w, stat q (m w).2 = stat q w.

(** [m] does not take the directory [q] away. *)
Definition keeps_dir {A} (q : path) (m : M A) : Prop :=
  ∀ w, is_dir q w → is_dir q (m w).2.

(** [m] only reads. *)
Definition pure_read {A} (m : M A) : Prop := ∀ w, (m w).2 = w.

(** Whether the entry [x] of a directory is a regular file, and the names
    of the regular files of a directory in listing order. *)
Definition is_file_in (es : list (string * node)) (x : string) : bool :=
  match dir_lookup x es with
  | Some (File _) => true
  | _ => false
  end.

Definition listed_files (es : list (string * node)) : list string :=
  filter (λ x, is_file_in es x = true) es.*1.

(** The versions [delete_download_cache_files] keeps for a directory:
    the last [max_num] of the sorted versions of its files. *)
Definition cache_keep (max_num : Z) (es : list (string * node)) : list version :=
  last_n (Z.to_nat max_num)
    (py_sorted (cmp_lt compare_version) (extract_version <$> listed_files es)).

(** The files [delete_local_server_backup_files] lists, newest first. *)
Definition backup_order (keyed : list (Z * string)) : list string :=
  (py_sorted_reverse (key_lt fst) keyed).*2.

(** The file [x] is one [delete_download_cache_files] deletes: there are
    more files than [max_num], and the version of [x] compares equal to
    none of the versions kept. *)
Definition cache_doomed (max_num : Z) (es : list (string * node)) (x : string)
  : Prop :=
  max_num < Z.of_nat (length (listed_files es)) ∧
  is_file_in es x = true ∧
  kept (cache_keep max_num es) (extract_version x) = false.

Global Instance cache_doomed_dec max_num es x : Decision (cache_doomed max_num es x).
Proof. unfold cache_doomed. apply _. Defined.

(** The order of the backup keys, and the order [compare_version] gives
    versions of one length [n]. *)
Definition key_le (a b : Z * string) : Prop := a.1 ≤ b.1.

Definition version_le (n : nat) (v1 v2 : version) : Prop :=
  length v1 = n ∧ length v2 = n ∧ compare_version v1 v2 ≤ 0.

(** ** Examples *)

(** The documents of the reconciliation example: the old file holds
    [a=1] and [b=2]; the new one [b=9], [c=3], a comment and an empty
    line. *)
Definition example_source : list string :=
  ["a=1" +:+ Str.newline; "b=2" +:+ Str.newline].
Definition example_target : list string :=
  ["b=9" +:+ Str.newline; "c=3" +:+ Str.newline;
   "# hi" +:+ Str.newline; Str.newline].
Definition example_world : world :=
  World (Dir [("old.properties", File example_source);
              ("new.properties", File example_target)]) [].

Definition example_world_malformed : world :=
  World (Dir [("old.properties", File (("b" +:+ Str.newline) :: example_source));
              ("new.properties", File example_target)]) [].

(** The value the resolution gives the key [k]. *)
Definition resolved_value (source_dict target_dict : dict) (k : string) : string :=
  default (default "" (target_dict !! k)) (source_dict !! k).

(** [k] is the key of a key line of [lines] and does not begin with the
    comment mark. *)
Definition live_key (lines : list string) (k : string) : Prop :=
  ∃ l, l ∈ lines ∧ is_key_line l = true ∧ key_of_line l = k ∧
       Str.startswith "#" k = false.

Definition clean_values (d : dict) : Prop := ∀ k v, d !! k = Some v → clean v.

(** The release has been unpacked again at [latest]; nothing else changed. *)
Definition re_extracted (latest : path) (release : list (string * node))
  (w w' : world) : Prop :=
  stat latest w' = Some (Dir release) ∧
  ∀ q, overlap latest q = false → stat q w' = stat q w.

(** A packer that records the format and the names it packs, and a world
    with a server and, in [backups], the archive of an earlier run in the
    minute 202401010000. *)
Definition example_archiver : archiver :=
  Archiver (λ type n, type :: match n with Dir es => es.*1 | File ls => ls end)
           (λ content, (None, false)).
Definition example_backup_world : world :=
  World (Dir [("server", Dir [("worlds", Dir []); ("server.properties", File [])]);
              ("backups", Dir [("202401010000-server.zip", File ["old"])])]) [].

(** A download page that links release 1.21.0.03, a cache that holds a
    damaged archive of that release, and an archive reader that stops
    after the first member. *)
Definition example_url : string :=
  "https://www.minecraft.net/bedrockdedicatedserver/bin-linux/bedrock-server-1.21.0.03.zip".
Definition example_network : network :=
  Network (Ok (Some example_url)) (λ _, Ok (200, ["archive"])).
Definition failing_archiver : archiver :=
  Archiver (λ type n, [type])
           (λ content, (Some [("bedrock_server", File [])], false)).
Definition example_cache_world : world :=
  World (Dir [("cache", Dir [("bedrock-server-1.21.0.03.zip", File ["damaged"])])]) [].

(** A server with user data and a release of the server, side by side. *)
Definition example_release : list (string * node) :=
  [("bedrock_server", File ["new binary"]);
   ("server.properties",
    File ["# settings" +:+ Str.newline; "gamemode=survival" +:+ Str.newline;
          "view-distance=32" +:+ Str.newline]);
   ("allowlist.json", File []);
   ("behavior_packs", Dir [("vanilla_1.21.0", Dir [])])].
Definition example_server : list (string * node) :=
  [("worlds", Dir [("level", File ["chunks"])]);
   ("allowlist.json", File ["[steve]"]);
   ("permissions.json", File ["[operator]"]);
   ("server.properties",
    File ["gamemode=creative" +:+ Str.newline; "max-players=20" +:+ Str.newline]);
   ("bedrock_server", File ["old binary"])].
Definition example_merge_world : world :=
  World (Dir [("server", Dir example_server); ("release", Dir example_release)]) [].

(** A backup directory with two archives of the same minute and an older
    one, and a download cache with four archives. *)
Definition example_backups : world :=
  World (Dir [("backups",
               Dir [("202401010000-a.zip", File ["a"]);
                    ("202401010000-b.zip", File ["b"]);
                    ("202301010000-a.zip", File ["c"]);
                    ("notes", Dir [])])]) [].
Definition example_cache : world :=
  World (Dir [("cache",
               Dir [("server-2.2.zip", File []); ("server-1.zip", File []);
                    ("server-2.zip", File []); ("server-2.1.zip", File [])])]) [].
Definition example_cache_uniform : world :=
  World (Dir [("cache",
               Dir [("server-1.20.zip", File []); ("server-1.21.zip", File []);
                    ("server-1.19.zip", File []); ("server-1.21", Dir [])])]) [].

(** ** More vocabulary *)

(** A string of decimal digits only, and a string without any. *)
Fixpoint all_digits (s : string) : bool :=
  match s with
  | "" => true
  | String a s' => Str.is_digit a && all_digits s'
  end.

Fixpoint digit_free (s : string) : bool :=
  match s with
  | "" => true
  | String a s' => negb (Str.is_digit a) && digit_free s'
  end.

(** The text of an [int] literal as the patterns match it: digits, with a
    sign in front when the pattern has one. *)
Definition digits_text (m : string) : Prop :=
  m ≠ "" ∧ all_digits m = true.

Definition signed_digits_text (m : string) : Prop :=
  digits_text m ∨
  ∃ c d, m = String c d ∧ (c = "-" ∨ c = "+")%char ∧ digits_text d.

(** A name with a run of 4301 digits. *)
Definition example_long_name : string :=
  "v" +:+ string_of_list_ascii (replicate 4301 "1"%char).

(** One round of the loop of [get_local_server_version]. *)
Definition newer_vanilla (latest_version : version) (dirname : string) : version :=
  if Str.startswith "vanilla_" dirname then
    let this_version := extract_version (Str.remove_all "vanilla_" dirname) in
    if compare_version latest_version this_version <? 0
    then this_version else latest_version
  else latest_version.

(** A server whose behaviour packs carry three vanilla versions. *)
Definition example_packs : world :=
  World (Dir [("server",
               Dir [("behavior_packs",
                     Dir [("vanilla_1.20.0", Dir []); ("chemistry", Dir []);
                          ("vanilla_1.21.3", Dir []); ("vanilla_1.21", Dir [])])])])
        [].

(** [m] sends no request; [m] sends no request other than, at most once,
    one for [url]. *)
Definition quiet {A} (m : M A) : Prop := ∀ w, fetched (m w).2 = fetched w.

Definition may_fetch {A} (url : string) (m : M A) : Prop :=
  ∀ w, fetched (m w).2 = fetched w ∨ fetched (m w).2 = fetched w ++ [url].

(** A server that is up to date with the page's release, an empty cache,
    and an archive reader that unpacks what the example network sends. *)
Definition example_empty_cache : world := World (Dir [("cache", Dir [])]) [].
Definition working_archiver : archiver :=
  Archiver (λ type n, [type])
           (λ content, (Some [("bedrock_server", File content)], true)).

(** [m] raises in the world [w], and the world it leaves satisfies [I]. *)
Definition fails_keeping {A} (I : world → Prop) (m : M A) (w : world) : Prop :=
  ∃ e, (m w).1 = Raise e ∧ I (m w).2.

(** A server without [permissions.json], next to a release. *)
Definition example_incomplete_world : world :=
  World (Dir [("server",
               Dir [("worlds", Dir [("level", File ["chunks"])]);
                    ("allowlist.json", File ["[steve]"]);
                    ("server.properties", File [])]);
              ("release", Dir example_release)]) [].

(** A backup directory in which someone left a file of another kind. *)
Definition example_backups_stray : world :=
  World (Dir [("backups",
               Dir [("202401010000-a.zip", File ["a"]);
                    ("notes.txt", File ["remember"]);
                    ("202301010000-a.zip", File ["c"])])]) [].

(** ** The script's entry point

    The command line, as [argparse] hands it over; [--backup_type] is one
    of [zip] and [7z]. *)
Module Args.
Record t := Make {
  server_dir : path;
  download_dir : path;
  target_dir : option path;
  backup_dir : option path;
  backup_type : string;
  keep_cache_num : Z;
  keep_backup_num : Z
}.
End Args.

(** [delete_local_server_backup_files(None, max_num)]: [os.listdir(None)]
    lists the current directory, and [os.path.join(None, filename)] raises
    [TypeError] for the first name it is given. *)
Definition delete_local_server_backup_files_unset (cwd : path) (max_num : Z)
  : M unit :=
  if max_num >=? 0 then
    names ← listdir cwd;
    match names with
    | [] => ret tt
    | _ :: _ => raise TypeError
    end
  else ret tt.

(** The body under [if __name__ == "__main__"].  [os.path.dirname] of a
    path is the path without its last component. *)
Definition main (ar : archiver) (net : network) (now_time : string)
  (cwd : path) (args : Args.t) : M unit :=
  let backup_dir :=
    match Args.backup_dir args with
    | None =>
        if bool_decide (Args.keep_backup_num args ≠ 0)
        then Some (join (removelast (Args.server_dir args)) "server_backups")
        else None
    | Some d => Some d
    end in
  local_version ← get_local_server_version (Args.server_dir args);
  latest_server_dir ←
    download_and_extract_latest_server ar net (Args.download_dir args)
      local_version;
  match latest_server_dir with
  | Some latest_server_dir =>
      when (bool_decide (Args.keep_backup_num args ≠ 0))
        (match backup_dir with
         | Some d =>
             backup_local_server ar now_time (Args.server_dir args) d
               (Args.backup_type args)
         | None => raise TypeError
         end) ;;
      update_server (Args.server_dir args) latest_server_dir
        (Args.target_dir args) ;;
      delete_download_cache_files (Args.download_dir args)
        (Args.keep_cache_num args) ;;
      match backup_dir with
      | Some d => delete_local_server_backup_files d (Args.keep_backup_num args)
      | None =>
          delete_local_server_backup_files_unset cwd (Args.keep_backup_num args)
      end
  | None => ret tt
  end.

(** A server of version 1.20.0 with its user data next to an empty cache,
    an archive reader that finds the example release in what it is given,
    and the command line [--server_dir server --download_dir cache
    --keep_backup_num 0]. *)
Definition example_install : world :=
  World (Dir [("server",
               Dir (("behavior_packs", Dir [("vanilla_1.20.0", Dir [])])
                    :: example_server));
              ("cache", Dir [])]) [].
Definition release_archiver : archiver :=
  Archiver (λ type n, [type]) (λ content, (Some example_release, true)).
Definition example_args : Args.t :=
  Args.Make ["server"] ["cache"] None None "zip" 0 0.

(** ** Retention

    The files of a directory whose version is strictly newer than that
    of [x]. *)
Definition newer_files (es : list (string * node)) (x : string) : list string :=
  filter (λ y, 0 < compare_version (extract_version y) (extract_version x))
    (listed_files es).

(** A cache with two archives of one version and an older one, and a
    cache whose archives carry versions of different lengths. *)
Definition example_cache_ties : world :=
  World (Dir [("cache",
               Dir [("a-1.2.zip", File []); ("b-1.2.zip", File []);
                    ("c-1.1.zip", File [])])]) [].
Definition example_cache_mixed : world :=
  World (Dir [("cache",
               Dir [("server-2.1.zip", File []); ("server-2.zip", File []);
                    ("server-2.0.zip", File [])])]) [].

(** ** Trees

    A tree in which no directory lists a name twice, as on a disk. *)
Definition wf_tree (n : node) : Prop :=
  ∀ p es, lookup_path p n = Some (Dir es) → NoDup es.*1.

(** The loop of [copy_node] over the entries of a directory. *)
Definition copy_entries (es ds : list (string * node)) (err : bool)
  : list (string * node) * bool :=
  fold_left (λ (acc : list (string * node) * bool) (e : string * node),
               let '(c', e') := copy_node e.1 e.2 (dir_lookup e.1 acc.1) in
               (dir_set e.1 c' acc.1, acc.2 || e'))
            es (ds, err).

(** A release with a manifest inside a pack directory, beside a server that
    has an older copy of the pack and a pack of its own. *)
Definition example_pack : list (string * node) :=
  [("vanilla", Dir [("manifest.json", File ["new manifest"])])].
Definition example_release_nested : list (string * node) :=
  [("bedrock_server", File ["new binary"]);
   ("server.properties",
    File ["# settings" +:+ Str.newline; "gamemode=survival" +:+ Str.newline;
          "view-distance=32" +:+ Str.newline]);
   ("behavior_packs", Dir example_pack)].
Definition example_server_nested : list (string * node) :=
  [("worlds", Dir [("level", File ["chunks"])]);
   ("allowlist.json", File ["[steve]"]);
   ("server.properties",
    File ["gamemode=creative" +:+ Str.newline; "max-players=20" +:+ Str.newline]);
   ("bedrock_server", File ["old binary"]);
   ("behavior_packs",
    Dir [("vanilla", Dir [("manifest.json", File ["old manifest"])]);
         ("custom", Dir [("pack.json", File ["mine"])])])].
Definition example_nested_world : world :=
  World (Dir [("server", Dir example_server_nested);
              ("release", Dir example_release_nested)]) [].

(* ================================================================== *)
(** * Part II: properties *)
(* ================================================================== *)

Local Close Scope M_scope.

(** ** [compare_version] *)

Lemma compare_loop_shift x y v1 v2 k n :
  compare_loop (x :: v1) (y :: v2) (seq (S k) n) = compare_loop v1 v2 (seq k n).
Proof.
  revert k. induction n as [|n IH]; intros k; simpl; [done|].
  by rewrite IH.
Qed.

Lemma compare_version_nil_l v : compare_version [] v = 0.
Proof. done. Qed.

Lemma compare_version_nil_r v : compare_version v [] = 0.
Proof. unfold compare_version. by rewrite Nat.min_0_r. Qed.

Lemma compare_version_cons x y v1 v2 :
  compare_version (x :: v1) (y :: v2) =
    if x <? y then -1 else if x >? y then 1 else compare_version v1 v2.
Proof.
  unfold compare_version. simpl.
  destruct (x <? y); [done|]. destruct (x >? y); [done|].
  apply compare_loop_shift.
Qed.

Lemma compare_version_refl v : compare_version v v = 0.
Proof.
  induction v as [|x v IH]; [done|].
  rewrite compare_version_cons, IH.
  destruct (Z.ltb_spec x x); [lia|].
  destruct (Z.gtb_spec x x); [lia|done].
Qed.

Lemma compare_version_values v1 v2 :
  compare_version v1 v2 = -1 ∨ compare_version v1 v2 = 0 ∨ compare_version v1 v2 = 1.
Proof.
  revert v2. induction v1 as [|x v1 IH]; intros [|y v2];
    rewrite ?compare_version_nil_l, ?compare_version_nil_r; auto.
  rewrite compare_version_cons.
  destruct (x <? y); auto. destruct (x >? y); auto.
Qed.

(** The shared prefix is equal exactly when the result is 0. *)
Lemma compare_version_eq_iff v1 v2 :
  compare_version v1 v2 = 0 ↔
  take (length v1 `min` length v2) v1 = take (length v1 `min` length v2) v2.
Proof.
  revert v2. induction v1 as [|x v1 IH]; intros [|y v2]; simpl; try done.
  rewrite compare_version_cons.
  destruct (Z.ltb_spec x y); [split; [done|intros [=]; lia]|].
  destruct (Z.gtb_spec x y); [split; [done|intros [=]; lia]|].
  assert (x = y) as -> by lia. rewrite IH.
  split; [by intros ->|by intros [=]].
Qed.

(** The first shared index at which the versions differ decides. *)
Lemma compare_version_lt_iff v1 v2 :
  compare_version v1 v2 = -1 ↔
  ∃ i, (i < length v1 `min` length v2)%nat ∧ take i v1 = take i v2 ∧
       nth i v1 0 < nth i v2 0.
Proof.
  revert v2. induction v1 as [|x v1 IH]; intros [|y v2].
  - split; [done|]. intros (i & ? & _); simpl in *; lia.
  - split; [done|]. intros (i & ? & _); simpl in *; lia.
  - rewrite compare_version_nil_r. split; [done|].
    intros (i & ? & _); simpl in *; lia.
  - rewrite compare_version_cons.
    destruct (Z.ltb_spec x y) as [Hlt|Hge].
    { split; [|done]. intros _. exists O. simpl. split; [lia|split; [done|lia]]. }
    destruct (Z.gtb_spec x y) as [Hgt|Hle].
    { split; [done|]. intros ([|i] & Hi & Hp & Hn); simpl in *; [lia|].
      injection Hp as ??. lia. }
    assert (x = y) as -> by lia. rewrite IH. split.
    + intros (i & Hi & Hp & Hn). exists (S i). simpl.
      split; [lia|]. split; [by rewrite Hp|done].
    + intros ([|i] & Hi & Hp & Hn); simpl in *; [lia|].
      exists i. split; [lia|]. split; [by injection Hp|done].
Qed.

Lemma compare_version_gt_iff v1 v2 :
  compare_version v1 v2 = 1 ↔
  ∃ i, (i < length v1 `min` length v2)%nat ∧ take i v1 = take i v2 ∧
       nth i v1 0 > nth i v2 0.
Proof.
  revert v2. induction v1 as [|x v1 IH]; intros [|y v2].
  - split; [done|]. intros (i & ? & _); simpl in *; lia.
  - split; [done|]. intros (i & ? & _); simpl in *; lia.
  - rewrite compare_version_nil_r. split; [done|].
    intros (i & ? & _); simpl in *; lia.
  - rewrite compare_version_cons.
    destruct (Z.ltb_spec x y) as [Hlt|Hge].
    { split; [done|]. intros ([|i] & Hi & Hp & Hn); simpl in *; [lia|].
      injection Hp as ??. lia. }
    destruct (Z.gtb_spec x y) as [Hgt|Hle].
    { split; [|done]. intros _. exists O. simpl. split; [lia|split; [done|lia]]. }
    assert (x = y) as -> by lia. rewrite IH. split.
    + intros (i & Hi & Hp & Hn). exists (S i). simpl.
      split; [lia|]. split; [by rewrite Hp|done].
    + intros ([|i] & Hi & Hp & Hn); simpl in *; [lia|].
      exists i. split; [lia|]. split; [by injection Hp|done].
Qed.

(** C4.  [compare_version] compares the two versions component by
    component over the length of the shorter one: it is EQUAL (0) exactly
    when the shared prefixes coincide, whatever follows in the longer
    version, and otherwise the first shared index at which they differ
    decides between LESS (-1) and GREATER (1).  In particular
    [[1,2]] against [[1,2,3]] is EQUAL, [[1,3]] against [[1,2,3]] is
    GREATER, and [[]] against [[1]] is EQUAL. *)
Theorem compare_version_shared_prefix :
  (∀ v1 v2 : version,
     let n := (length v1 `min` length v2)%nat in
     (compare_version v1 v2 = 0 ↔ take n v1 = take n v2) ∧
     (compare_version v1 v2 = -1 ↔
        ∃ i, (i < n)%nat ∧ take i v1 = take i v2 ∧ nth i v1 0 < nth i v2 0) ∧
     (compare_version v1 v2 = 1 ↔
        ∃ i, (i < n)%nat ∧ take i v1 = take i v2 ∧ nth i v1 0 > nth i v2 0) ∧
     (compare_version v1 v2 = -1 ∨ compare_version v1 v2 = 0 ∨
      compare_version v1 v2 = 1)) ∧
  compare_version [1; 2] [1; 2; 3] = 0 ∧
  compare_version [1; 3] [1; 2; 3] = 1 ∧
  compare_version [] [1] = 0.
Proof.
  split; [|done].
  intros v1 v2 n. split; [apply compare_version_eq_iff|].
  split; [apply compare_version_lt_iff|].
  split; [apply compare_version_gt_iff|apply compare_version_values].
Qed.

(** ** [extract_numbers] *)

(** C8.  With sign and float matching both enabled the pattern is
    [[-+]?\d*\.\d+|\d+]: the optional sign belongs to the decimal
    alternative only, so a signed integer token loses its sign.  The string
    ["-5"] yields the integer 5, although the same string yields -5 when
    only sign matching is enabled, and a signed decimal keeps its sign. *)
Theorem extract_numbers_drops_integer_sign :
  extract_numbers "-5" true true = Ok [PyInt 5] ∧
  extract_numbers "-5" false true = Ok [PyInt (-5)] ∧
  extract_numbers "-1.5" true true = Ok [PyFloat "-1.5"] ∧
  extract_numbers "+7 -1.5 -20" true true
    = Ok [PyInt 7; PyFloat "-1.5"; PyInt 20].
Proof. repeat split; reflexivity. Qed.

(** ** Strings *)

Lemma split_length c s : length (Str.split c s) = S (Str.count c s).
Proof.
  induction s as [|a s IH]; simpl; [done|].
  destruct (Ascii.eqb a c); simpl; [by rewrite IH|].
  destruct (Str.split c s); simpl in *; [done|lia].
Qed.

Lemma split_no_sep c s : Str.contains c s = false → Str.split c s = [s].
Proof.
  induction s as [|a s IH]; simpl; [done|].
  destruct (Ascii.eqb a c); [done|]. intros H. by rewrite IH.
Qed.

Lemma split_app_sep c a b :
  Str.contains c a = false →
  Str.split c (a +:+ String c b) = a :: Str.split c b.
Proof.
  induction a as [|x a IH]; simpl.
  - intros _. by rewrite Ascii.eqb_refl.
  - destruct (Ascii.eqb x c); [done|]. intros H. by rewrite IH.
Qed.

Lemma split_pieces_no_sep c s piece :
  piece ∈ Str.split c s → Str.contains c piece = false.
Proof.
  revert piece. induction s as [|a s IH]; simpl; intros piece.
  - by intros ->%list_elem_of_singleton.
  - destruct (Ascii.eqb a c) eqn:E.
    + intros [->|?]%elem_of_cons; [done|auto].
    + destruct (Str.split c s) as [|p rest]; simpl.
      * intros ->%list_elem_of_singleton. simpl. by rewrite E.
      * intros [->|?]%elem_of_cons.
        -- simpl. rewrite E. apply IH. left.
        -- apply IH. by right.
Qed.

Lemma contains_app c a b :
  Str.contains c (a +:+ b) = Str.contains c a || Str.contains c b.
Proof.
  induction a as [|x a IH]; simpl; [done|]. by destruct (Ascii.eqb x c).
Qed.

Lemma contains_lstrip c s :
  Str.contains c s = false → Str.contains c (Str.lstrip s) = false.
Proof.
  induction s as [|a s IH]; simpl; [done|].
  destruct (Str.is_space a); simpl; destruct (Ascii.eqb a c); auto; done.
Qed.

Lemma contains_rstrip c s :
  Str.contains c s = false → Str.contains c (Str.rstrip s) = false.
Proof.
  induction s as [|a s IH]; simpl; [done|].
  destruct (Ascii.eqb a c) eqn:E; [done|]. intros H.
  specialize (IH H). destruct (Str.rstrip s); simpl in *.
  - destruct (Str.is_space a); simpl; by rewrite ?E.
  - by rewrite E.
Qed.

Lemma contains_strip c s :
  Str.contains c s = false → Str.contains c (Str.strip s) = false.
Proof. intros. by apply contains_rstrip, contains_lstrip. Qed.

Lemma lstrip_head_kept s : head_kept (Str.lstrip s).
Proof.
  induction s as [|a s IH]; simpl; [done|].
  destruct (Str.is_space a) eqn:E; [done|]. simpl. done.
Qed.

Lemma lstrip_id s : head_kept s → Str.lstrip s = s.
Proof. destruct s as [|a s]; simpl; [done|]. by intros ->. Qed.

Lemma rstrip_head_kept s : head_kept s → head_kept (Str.rstrip s).
Proof.
  destruct s as [|a s]; simpl; [done|]. intros H.
  destruct (Str.rstrip s); simpl; by rewrite ?H.
Qed.

Lemma rstrip_idemp s : Str.rstrip (Str.rstrip s) = Str.rstrip s.
Proof.
  induction s as [|a s IH]; simpl; [done|].
  destruct (Str.rstrip s) as [|b r] eqn:E.
  - destruct (Str.is_space a) eqn:Ea; simpl; by rewrite ?Ea.
  - change (Str.rstrip (String a (String b r))) with
      (match Str.rstrip (String b r) with
       | "" => if Str.is_space a then "" else String a ""
       | r' => String a r'
       end).
    by rewrite IH.
Qed.

Lemma rstrip_app_space s c :
  Str.is_space c = true → Str.rstrip (s +:+ String c "") = Str.rstrip s.
Proof.
  intros Hc. induction s as [|a s IH]; simpl.
  - by rewrite Hc.
  - change (String a s +:+ String c "") with (String a (s +:+ String c "")).
    simpl. by rewrite IH.
Qed.

Lemma strip_head_kept s : head_kept (Str.strip s).
Proof. apply rstrip_head_kept, lstrip_head_kept. Qed.

Lemma strip_idemp s : Str.strip (Str.strip s) = Str.strip s.
Proof.
  unfold Str.strip at 1. rewrite (lstrip_id _ (strip_head_kept s)).
  apply rstrip_idemp.
Qed.

Lemma strip_clean_newline v :
  Str.strip v = v → Str.strip (v +:+ Str.newline) = v.
Proof.
  intros Hv. destruct v as [|a v]; [done|].
  pose proof (strip_head_kept (String a v)) as Hh. rewrite Hv in Hh.
  unfold Str.strip.
  rewrite lstrip_id by (simpl in *; done).
  unfold Str.newline. rewrite rstrip_app_space by done.
  rewrite <-Hv at 2. unfold Str.strip. by rewrite lstrip_id.
Qed.

Lemma append_cons a s t : String a s +:+ t = String a (s +:+ t).
Proof. done. Qed.

Lemma startswith_hash_app k s :
  k ≠ "" → Str.startswith "#" (k +:+ s) = Str.startswith "#" k.
Proof.
  destruct k as [|a k]; [done|]. intros _. rewrite append_cons. simpl.
  by destruct (Ascii.eqb "#" a).
Qed.

(** ** The file system: entries of a directory *)

Lemma dir_lookup_set x y n es :
  dir_lookup y (dir_set x n es) = if decide (x = y) then Some n else dir_lookup y es.
Proof.
  induction es as [|[z m] es IH]; simpl.
  - destruct (decide (x = y)) as [->|]; simpl; repeat case_decide; congruence.
  - repeat (case_decide; simpl in *; subst); try congruence.
Qed.

Lemma dir_lookup_remove x y es :
  dir_lookup y (dir_remove x es) = if decide (x = y) then None else dir_lookup y es.
Proof.
  induction es as [|[z m] es IH]; simpl.
  - by case_decide.
  - repeat (case_decide; simpl in *; subst); try congruence.
Qed.

Lemma dir_lookup_put x y v es :
  dir_lookup y (dir_put x v es) = if decide (x = y) then v else dir_lookup y es.
Proof. destruct v; simpl; [apply dir_lookup_set|apply dir_lookup_remove]. Qed.

Lemma dir_set_id x n es : dir_lookup x es = Some n → dir_set x n es = es.
Proof.
  induction es as [|[z m] es IH]; simpl; [done|].
  case_decide; subst; [by intros [= ->]|]. intros Hl. by rewrite IH.
Qed.

Lemma dir_set_set x a b es : dir_set x b (dir_set x a es) = dir_set x b es.
Proof.
  induction es as [|[z m] es IH]; simpl.
  - by rewrite decide_True.
  - case_decide; subst; simpl.
    + by rewrite decide_True.
    + rewrite decide_False by done. by rewrite IH.
Qed.

Lemma dir_set_names_in x n es :
  is_Some (dir_lookup x es) → (dir_set x n es).*1 = es.*1.
Proof.
  induction es as [|[z m] es IH]; [by intros [? [=]]|].
  cbn [dir_set dir_lookup]. case_decide; subst; [done|]. intros Hl.
  rewrite !fmap_cons. f_equal. by apply IH.
Qed.

Lemma dir_lookup_None x es : dir_lookup x es = None ↔ x ∉ es.*1.
Proof.
  induction es as [|[z m] es IH]; cbn [dir_lookup].
  - split; [intros _; apply not_elem_of_nil|done].
  - rewrite fmap_cons. cbn [fst]. case_decide; subst.
    + split; [done|]. intros []. left.
    + rewrite IH, not_elem_of_cons. tauto.
Qed.

Lemma dir_remove_absent x es : x ∉ es.*1 → dir_remove x es = es.
Proof.
  induction es as [|[z m] es IH]; [done|]. cbn [dir_remove].
  rewrite fmap_cons, not_elem_of_cons. cbn [fst]. intros [??].
  rewrite decide_False by done. by rewrite IH.
Qed.

(** ** The file system: paths *)

Lemma overlap_sym p q : overlap p q = overlap q p.
Proof.
  revert q. induction p as [|x p IH]; intros [|y q]; simpl; try done.
  destruct (decide (x = y)) as [->|];
    [rewrite decide_True by done; apply IH|by rewrite decide_False].
Qed.

Lemma overlap_join_ne dir x y : x ≠ y → overlap (join dir x) (join dir y) = false.
Proof.
  intros Hne. unfold join. induction dir as [|z dir IH]; simpl.
  - by rewrite decide_False.
  - by rewrite decide_True.
Qed.

(** Paths below two paths that part ways part ways themselves. *)
Lemma overlap_app p q p' q' :
  overlap p q = false → overlap (p ++ p') (q ++ q') = false.
Proof.
  revert q. induction p as [|x p IH]; intros [|y q]; simpl; try done.
  case_decide; [apply IH|done].
Qed.

Lemma overlap_join_l p q x : overlap p q = false → overlap (join p x) q = false.
Proof. intros H. rewrite <-(app_nil_r q). by apply overlap_app. Qed.

Lemma overlap_join_r p q x : overlap p q = false → overlap p (join q x) = false.
Proof. intros H. rewrite <-(app_nil_r p). by apply overlap_app. Qed.

Lemma is_prefix_overlap q p : is_prefix q p = true → overlap q p = true.
Proof.
  revert p. induction q as [|x q IH]; intros [|y p]; simpl; try done.
  case_decide; [apply IH|done].
Qed.

Lemma is_prefix_join p x : is_prefix (join p x) p = false.
Proof.
  unfold join. induction p as [|y p IH]; simpl; [done|].
  by rewrite decide_True.
Qed.

Lemma is_prefix_self_join p x : is_prefix p (join p x) = true.
Proof.
  unfold join. induction p as [|y p IH]; simpl; [done|].
  by rewrite decide_True.
Qed.

Lemma is_prefix_app p r : is_prefix p (p ++ r) = true.
Proof. induction p as [|y p IH]; simpl; [done|]. by rewrite decide_True. Qed.

Lemma overlap_cases p q :
  overlap p q = true → is_prefix p q = true ∨ is_prefix q p = true.
Proof.
  revert q. induction p as [|x p IH]; intros [|y q]; simpl; auto.
  destruct (decide (x = y)) as [->|]; [|done].
  rewrite decide_True by done. apply IH.
Qed.

Lemma is_prefix_refl p : is_prefix p p = true.
Proof. induction p as [|x p IH]; simpl; [done|]. by rewrite decide_True. Qed.

Lemma is_prefix_inv q p : is_prefix q p = true → ∃ r, p = q ++ r.
Proof.
  revert p. induction q as [|x q IH]; intros p; simpl; [by exists p|].
  destruct p as [|y p]; [done|]. case_decide; [|done]. subst.
  intros [r ->]%IH. by exists r.
Qed.

Lemma write_path_nil v n : write_path [] v n = v.
Proof. done. Qed.

Lemma write_path_file x p v ls : write_path (x :: p) v (File ls) = None.
Proof. done. Qed.

Lemma write_path_single x v es :
  write_path [x] v (Dir es) = Some (Dir (dir_put x v es)).
Proof. done. Qed.

Lemma write_path_deep x y p v es :
  write_path (x :: y :: p) v (Dir es) =
    c ← dir_lookup x es; c' ← write_path (y :: p) v c; Some (Dir (dir_set x c' es)).
Proof. done. Qed.

Global Arguments write_path : simpl never.

Lemma lookup_write_eq p v n n' :
  write_path p v n = Some n' → lookup_path p n' = v.
Proof.
  revert n n'. induction p as [|x p IH]; intros n n'.
  - rewrite write_path_nil. by intros ->.
  - destruct n as [|es]; [done|]. destruct p as [|y p].
    + rewrite write_path_single. intros [= <-]. simpl.
      rewrite dir_lookup_put, decide_True by done. by destruct v.
    + rewrite write_path_deep.
      destruct (dir_lookup x es) as [c|]; simpl; [|done].
      destruct (write_path (y :: p) v c) as [c'|] eqn:E; simpl; [|done].
      intros [= <-]. cbn [lookup_path].
      rewrite dir_lookup_set, decide_True by done. simpl.
      by apply IH in E.
Qed.

Lemma lookup_write_apart p q v n n' :
  write_path p v n = Some n' → overlap p q = false →
  lookup_path q n' = lookup_path q n.
Proof.
  revert q n n'. induction p as [|x p IH]; intros q n n'; [done|].
  destruct q as [|y q]; [done|].
  destruct n as [|es]; [done|]. cbn [overlap].
  case_decide as Hxy.
  - subst y. destruct p as [|z p]; [done|]. rewrite write_path_deep.
    destruct (dir_lookup x es) as [c|] eqn:Ec; simpl; [|done].
    destruct (write_path (z :: p) v c) as [c'|] eqn:E; simpl; [|done].
    intros [= <-] Hov.
    rewrite dir_lookup_set, decide_True by done. rewrite Ec. simpl. eauto.
  - intros Hw _. destruct p as [|z p].
    + rewrite write_path_single in Hw. injection Hw as <-. cbn [lookup_path].
      by rewrite dir_lookup_put, decide_False.
    + rewrite write_path_deep in Hw.
      destruct (dir_lookup x es) as [c|]; simpl in Hw; [|done].
      destruct (write_path (z :: p) v c) as [c'|]; simpl in Hw; [|done].
      injection Hw as <-. cbn [lookup_path].
      by rewrite dir_lookup_set, decide_False.
Qed.

(** A write below [q] leaves a directory at [q]. *)
Lemma lookup_write_above q x r v n n' :
  write_path (q ++ x :: r) v n = Some n' →
  ∃ es, lookup_path q n' = Some (Dir es).
Proof.
  revert n n'. induction q as [|y q IH]; intros n n'.
  - simpl. destruct n as [|es]; [done|]. destruct r.
    + rewrite write_path_single. intros [= <-]. eauto.
    + rewrite write_path_deep.
      destruct (dir_lookup x es) as [c|]; simpl; [|done].
      destruct (write_path _ v c); simpl; [|done]. intros [= <-]. eauto.
  - change ((y :: q) ++ x :: r) with (y :: (q ++ x :: r)).
    destruct n as [|es]; [done|].
    destruct (q ++ x :: r) as [|z t] eqn:E; [by destruct q|].
    rewrite write_path_deep.
    destruct (dir_lookup y es) as [c|]; simpl; [|done].
    destruct (write_path (z :: t) v c) as [c'|] eqn:Ew; simpl; [|done].
    intros [= <-].
    rewrite dir_lookup_set, decide_True by done. simpl.
    eauto.
Qed.

(** A removal takes away everything below. *)
Lemma lookup_remove_below p r n n' :
  p ≠ [] → write_path p None n = Some n' → lookup_path (p ++ r) n' = None.
Proof.
  revert n n'. induction p as [|x p IH]; intros n n' Hp; [done|].
  destruct n as [|es]; [done|]. destruct p as [|y p].
  - rewrite write_path_single. intros [= <-]. simpl.
    by rewrite dir_lookup_remove, decide_True.
  - rewrite write_path_deep.
    destruct (dir_lookup x es) as [c|]; simpl; [|done].
    destruct (write_path (y :: p) None c) as [c'|] eqn:E; simpl; [|done].
    intros [= <-].
    rewrite dir_lookup_set, decide_True by done. simpl.
    by apply (IH _ _ ltac:(done) E).
Qed.

(** Writing succeeds where the directory that is to hold the entry is. *)
Lemma write_path_in_dir q x v n es :
  lookup_path q n = Some (Dir es) → is_Some (write_path (join q x) v n).
Proof.
  unfold join. revert n. induction q as [|y q IH]; intros n; simpl.
  - intros [= ->]. rewrite write_path_single. eauto.
  - destruct n as [|es']; [done|].
    destruct (dir_lookup y es') as [c|] eqn:Ec; simpl; [|done]. intros Hc.
    destruct (IH _ Hc) as [c' Hc'].
    destruct (q ++ [x]) eqn:E; [by destruct q|].
    rewrite write_path_deep, Ec. simpl. rewrite Hc'. simpl. eauto.
Qed.

Lemma lookup_parent q x n c :
  lookup_path (join q x) n = Some c → ∃ es, lookup_path q n = Some (Dir es).
Proof.
  unfold join. revert n. induction q as [|y q IH]; intros n; simpl.
  - destruct n; [done|eauto].
  - destruct n as [|es']; [done|].
    destruct (dir_lookup y es') as [c'|]; simpl; [|done]. apply IH.
Qed.

Lemma write_path_twice p a b n n1 :
  write_path p (Some a) n = Some n1 →
  write_path p (Some b) n1 = write_path p (Some b) n.
Proof.
  revert n n1. induction p as [|x p IH]; intros n n1; [done|].
  destruct n as [|es]; [done|]. destruct p as [|y p].
  - rewrite write_path_single. intros [= <-].
    rewrite !write_path_single. simpl. by rewrite dir_set_set.
  - rewrite write_path_deep.
    destruct (dir_lookup x es) as [c|] eqn:Ec; simpl; [|done].
    destruct (write_path (y :: p) (Some a) c) as [c'|] eqn:E; simpl; [|done].
    intros [= <-]. rewrite !write_path_deep, Ec.
    rewrite dir_lookup_set, decide_True by done. simpl.
    rewrite (IH _ _ E).
    destruct (write_path (y :: p) (Some b) c); simpl; [|done].
    by rewrite dir_set_set.
Qed.

Lemma mkdirs_prefix_dir p q n n' :
  mkdirs p n = Some n' → is_prefix q p = true →
  ∃ es, lookup_path q n' = Some (Dir es).
Proof.
  revert q n n'. induction p as [|x p IH]; intros q n n'; simpl.
  - destruct n as [|es]; [done|]. intros [= <-].
    destruct q; [eauto|done].
  - destruct n as [|es]; [done|].
    destruct (mkdirs p _) as [c'|] eqn:E; simpl; [|done]. intros [= <-].
    destruct q as [|y q]; [eauto|]. simpl. case_decide; [|done]. subst.
    intros Hq. rewrite dir_lookup_set, decide_True by done. simpl. eauto.
Qed.

Lemma mkdirs_frame p q n n' :
  mkdirs p n = Some n' → is_prefix q p = false →
  lookup_path q n' = lookup_path q n.
Proof.
  revert q n n'. induction p as [|x p IH]; intros q n n'; simpl.
  - destruct n as [|es]; [done|]. by intros [= <-].
  - destruct n as [|es]; [done|].
    destruct (mkdirs p _) as [c'|] eqn:E; simpl; [|done]. intros [= <-].
    destruct q as [|y q]; [done|]. simpl. case_decide as Hxy.
    + subst. intros Hq. rewrite dir_lookup_set, decide_True by done. simpl.
      rewrite (IH _ _ _ E Hq).
      destruct (dir_lookup x es); simpl; [done|].
      destruct q; [done|]. done.
    + intros _. by rewrite dir_lookup_set, decide_False.
Qed.

Lemma mkdirs_id p n es : lookup_path p n = Some (Dir es) → mkdirs p n = Some n.
Proof.
  revert n. induction p as [|x p IH]; intros n; simpl.
  - by intros [= ->].
  - destruct n as [|es']; [done|].
    destruct (dir_lookup x es') as [c|] eqn:Ec; simpl; [|done]. intros Hc.
    rewrite (IH _ Hc). simpl. by rewrite dir_set_id.
Qed.

Lemma mkdirs_file p n ls : lookup_path p n = Some (File ls) → mkdirs p n = None.
Proof.
  revert n. induction p as [|x p IH]; intros n; simpl.
  - by intros [= ->].
  - destruct n as [|es']; [done|].
    destruct (dir_lookup x es') as [c|] eqn:Ec; simpl; [|done]. intros Hc.
    by rewrite (IH _ Hc).
Qed.

(** Whether a write succeeds does not depend on what is written. *)
Lemma write_path_succeeds p v v' n :
  p ≠ [] → is_Some (write_path p v n) → is_Some (write_path p v' n).
Proof.
  revert n. induction p as [|x p IH]; intros n Hp; [done|].
  destruct n as [|es]; [by intros [? [=]]|]. destruct p as [|y p].
  - rewrite !write_path_single. eauto.
  - rewrite !write_path_deep.
    destruct (dir_lookup x es) as [c|]; simpl; [|by intros [? [=]]].
    destruct (write_path (y :: p) v c) as [c'|] eqn:E; simpl;
      [|by intros [? [=]]].
    intros _. destruct (IH c ltac:(done)) as [c'' ->]; [by rewrite E|].
    simpl. eauto.
Qed.

(** ** The file system: the world *)

Lemma stat_put_eq p v w :
  is_Some (write_path p v (root w)) → stat p (put p v w) = v.
Proof.
  intros [r Hr]. unfold put, stat. rewrite Hr. simpl.
  by apply lookup_write_eq in Hr.
Qed.

Lemma stat_put_apart p q v w :
  overlap p q = false → stat q (put p v w) = stat q w.
Proof.
  intros Hov. unfold put, stat.
  destruct (write_path p v (root w)) eqn:E; [|done]. simpl.
  eapply lookup_write_apart; eauto.
Qed.

Lemma fetched_put p v w : fetched (put p v w) = fetched w.
Proof. unfold put. by destruct (write_path p v (root w)). Qed.

Lemma put_twice p a b w :
  put p (Some b) (put p (Some a) w) = put p (Some b) w.
Proof.
  unfold put.
  destruct (write_path p (Some a) (root w)) as [r|] eqn:E; [|reflexivity].
  simpl. rewrite (write_path_twice _ _ _ _ _ E).
  destruct p as [|x p]; [done|].
  destruct (write_path_succeeds (x :: p) (Some a) (Some b) (root w))
    as [r' ->]; [done|by rewrite E|done].
Qed.

Lemma write_path_stat p v w c :
  stat p w = Some c → p ≠ [] → is_Some (write_path p v (root w)).
Proof.
  intros Hc Hp. destruct (exists_last Hp) as (q & x & ->).
  destruct (lookup_parent _ _ _ _ Hc) as [es Hes].
  eapply write_path_in_dir; eauto.
Qed.

Lemma is_dir_put p q v w :
  is_prefix p q = false → is_dir q w → is_dir q (put p v w).
Proof.
  intros Hp [es Hes]. unfold put, is_dir.
  destruct (write_path p v (root w)) as [r|] eqn:E; [|eauto].
  destruct (overlap p q) eqn:Hov.
  - (* [q] lies strictly above [p] *)
    apply overlap_cases in Hov as [Hpq|Hqp]; [congruence|].
    apply is_prefix_inv in Hqp as [[|x t] ->].
    { by rewrite app_nil_r, is_prefix_refl in Hp. }
    unfold stat. simpl. eapply lookup_write_above; eauto.
  - exists es. unfold stat in *. simpl.
    erewrite lookup_write_apart; eauto.
Qed.

(** ** Running programs *)

Lemma bind_inv {A B} (m : M A) (f : A → M B) w r w' :
  bind m f w = (r, w') →
  (∃ a w1, m w = (Ok a, w1) ∧ f a w1 = (r, w')) ∨
  (∃ e, m w = (Raise e, w') ∧ r = Raise e).
Proof.
  unfold bind. destruct (m w) as [[a|e] w1]; intros H; [left|right]; [eauto|].
  injection H as <- <-. eauto.
Qed.

Lemma bind_Ok_inv {A B} (m : M A) (f : A → M B) w b w' :
  bind m f w = (Ok b, w') →
  ∃ a w1, m w = (Ok a, w1) ∧ f a w1 = (Ok b, w').
Proof.
  intros H. apply bind_inv in H as [H|(e & _ & H)]; [done|discriminate].
Qed.

Lemma bind_Ok {A B} (m : M A) (f : A → M B) w a w1 :
  m w = (Ok a, w1) → bind m f w = f a w1.
Proof. unfold bind. by intros ->. Qed.

Lemma bind_Raise {A B} (m : M A) (f : A → M B) w e w1 :
  m w = (Raise e, w1) → bind m f w = (Raise e, w1).
Proof. unfold bind. by intros ->. Qed.

Lemma bind_assoc {A B C} (m : M A) (f : A → M B) (g : B → M C) w :
  bind (bind m f) g w = bind m (λ a, bind (f a) g) w.
Proof. unfold bind. by destruct (m w) as [[a|e] w1]. Qed.

Lemma for_each_app {X} (l1 l2 : list X) body w :
  for_each (l1 ++ l2) body w =
    bind (for_each l1 body) (λ _, for_each l2 body) w.
Proof.
  revert w. induction l1 as [|x l1 IH]; intros w; simpl; [done|].
  rewrite bind_assoc. unfold bind at 1 2.
  destruct (body x w) as [[[]|e] w1]; [apply IH|done].
Qed.

(** *** What a program leaves alone *)

Section Frames.
Context (q : path).

Lemma frames_pure_read {A} (m : M A) : pure_read m → frames q m.
Proof. intros H w. by rewrite H. Qed.

Lemma frames_ret {A} (a : A) : frames q (ret a).
Proof. done. Qed.

Lemma frames_raise {A} e : frames q (raise (A:=A) e).
Proof. done. Qed.

Lemma frames_lift {A} (r : result A) : frames q (lift r).
Proof. done. Qed.

Lemma frames_bind {A B} (m : M A) (f : A → M B) :
  frames q m → (∀ a, frames q (f a)) → frames q (bind m f).
Proof.
  intros Hm Hf w. unfold bind. specialize (Hm w).
  destruct (m w) as [[a|e] w1]; simpl in *; [|done].
  by rewrite Hf.
Qed.

Lemma frames_try {A} (m h : M A) : frames q m → frames q h → frames q (try_except m h).
Proof.
  intros Hm Hh w. unfold try_except. specialize (Hm w).
  destruct (m w) as [[a|e] w1]; simpl in *; [done|].
  by rewrite Hh.
Qed.

Lemma frames_when b (m : M unit) : frames q m → frames q (when b m).
Proof. destruct b; [done|]. intros _. apply frames_ret. Qed.

Lemma frames_for_each {X} (l : list X) body :
  (∀ x, x ∈ l → frames q (body x)) → frames q (for_each l body).
Proof.
  induction l as [|x l IH]; intros H; simpl; [apply frames_ret|].
  apply frames_bind; [apply H; left|]. intros _. apply IH.
  intros y Hy. apply H. by right.
Qed.

Lemma frames_exists p : frames q (exists_ p).
Proof. done. Qed.
Lemma frames_isfile p : frames q (isfile p).
Proof. done. Qed.
Lemma frames_isdir p : frames q (isdir p).
Proof. done. Qed.
Lemma frames_listdir p : frames q (listdir p).
Proof. intros w. unfold listdir. by destruct (stat p w) as [[]|]. Qed.
Lemma frames_readlines p : frames q (readlines p).
Proof. intros w. unfold readlines. by destruct (stat p w) as [[]|]. Qed.

Lemma frames_only_files dir names : frames q (only_files dir names).
Proof.
  induction names as [|x names IH]; simpl; [apply frames_ret|].
  apply frames_bind; [apply frames_isfile|]. intros b.
  apply frames_bind; [apply IH|]. intros keep. apply frames_ret.
Qed.

Lemma frames_makedirs p : is_prefix q p = false → frames q (makedirs p).
Proof.
  intros Hq w. unfold makedirs.
  destruct (mkdirs p (root w)) as [r|] eqn:E; [|done].
  unfold stat. simpl. eapply mkdirs_frame; eauto.
Qed.

Lemma frames_remove p : overlap p q = false → frames q (remove p).
Proof.
  intros Hq w. unfold remove. destruct (stat p w) as [[]|]; try done.
  simpl. by apply stat_put_apart.
Qed.

Lemma frames_rmtree p : overlap p q = false → frames q (rmtree p).
Proof.
  intros Hq w. unfold rmtree. destruct (stat p w) as [[]|]; try done.
  simpl. by apply stat_put_apart.
Qed.

Lemma frames_open_w p : overlap p q = false → frames q (open_w p).
Proof.
  intros Hq w. unfold open_w.
  destruct (stat p w) as [[]|];
    destruct (write_path p (Some (File [])) (root w)) eqn:E; try done;
    unfold stat; simpl; eapply lookup_write_apart; eauto.
Qed.

Lemma frames_write p text : overlap p q = false → frames q (write p text).
Proof.
  intros Hq w. unfold write. destruct (stat p w) as [[]|]; try done.
  simpl. by apply stat_put_apart.
Qed.

Lemma frames_rename src dst :
  overlap src q = false → overlap dst q = false → frames q (rename src dst).
Proof.
  intros Hs Hd w. unfold rename. destruct (stat src w) as [n|]; [|done].
  case_decide; [done|].
  assert (∀ r, write_path dst (Some n) (root w) = Some r →
    stat q (put src None (World r (fetched w))) = stat q w) as Hw.
  { intros r Hr. rewrite stat_put_apart by done. unfold stat. simpl.
    eapply lookup_write_apart; eauto. }
  destruct (write_path dst (Some n) (root w)) eqn:E;
    destruct n, (stat dst w) as [[|[|]]|]; simpl; eauto.
Qed.

Lemma frames_copy2 src dst : overlap dst q = false → frames q (copy2 src dst).
Proof.
  intros Hd w. unfold copy2. destruct (stat src w) as [[c|]|]; try done.
  set (dst' := match stat dst w with Some (Dir _) => _ | _ => dst end).
  assert (overlap dst' q = false) as Hd'.
  { unfold dst'. destruct (stat dst w) as [[]|]; auto using overlap_join_l. }
  case_decide; [done|].
  destruct (stat dst' w) as [[]|];
    destruct (write_path dst' (Some (File c)) (root w)) eqn:E; try done;
    unfold stat; simpl; eapply lookup_write_apart; eauto.
Qed.

Lemma frames_copytree src dst : overlap dst q = false → frames q (copytree src dst).
Proof.
  intros Hd w. unfold copytree. destruct (stat src w) as [[|es]|]; try done.
  destruct (overlap src dst); [done|].
  destruct (mkdirs dst (root w)) as [r|] eqn:E; [|done].
  destruct (copy_node _ _ _) as [n err].
  assert (stat q (put dst (Some n) (World r (fetched w))) = stat q w) as Hw.
  { rewrite stat_put_apart by done. unfold stat. simpl.
    eapply mkdirs_frame; eauto.
    destruct (is_prefix q dst) eqn:Hp; [|done].
    apply is_prefix_overlap in Hp. rewrite overlap_sym in Hp. congruence. }
  by destruct err.
Qed.

Lemma frames_copy_entry src dst : overlap dst q = false → frames q (copy_entry src dst).
Proof.
  intros Hd. apply frames_bind; [apply frames_isfile|].
  intros []; [by apply frames_copy2|by apply frames_copytree].
Qed.

End Frames.

(** *** Directories a program keeps *)

Lemma is_prefix_app_false p q r :
  is_prefix p q = false → is_prefix (p ++ r) q = false.
Proof.
  revert q. induction p as [|x p IH]; intros [|y q]; simpl; try done.
  case_decide; [apply IH|done].
Qed.

Lemma mkdirs_keeps_dir p q n n' es :
  mkdirs p n = Some n' → lookup_path q n = Some (Dir es) →
  ∃ es', lookup_path q n' = Some (Dir es').
Proof.
  intros Hm Hq. destruct (is_prefix q p) eqn:Hp.
  - eapply mkdirs_prefix_dir; eauto.
  - erewrite mkdirs_frame; eauto.
Qed.

Section KeepsDir.
Context (q : path).

Lemma keeps_dir_pure_read {A} (m : M A) : pure_read m → keeps_dir q m.
Proof. intros H w. by rewrite H. Qed.

Lemma keeps_dir_ret {A} (a : A) : keeps_dir q (ret a).
Proof. by intros w. Qed.

Lemma keeps_dir_lift {A} (r : result A) : keeps_dir q (lift r).
Proof. by intros w. Qed.

Lemma keeps_dir_bind {A B} (m : M A) (f : A → M B) :
  keeps_dir q m → (∀ a, keeps_dir q (f a)) → keeps_dir q (bind m f).
Proof.
  intros Hm Hf w Hw. unfold bind. specialize (Hm w Hw).
  destruct (m w) as [[a|e] w1]; simpl in *; [|done].
  by apply Hf.
Qed.

Lemma keeps_dir_when b (m : M unit) : keeps_dir q m → keeps_dir q (when b m).
Proof. destruct b; [done|]. intros _. apply keeps_dir_ret. Qed.

Lemma keeps_dir_for_each {X} (l : list X) body :
  (∀ x, x ∈ l → keeps_dir q (body x)) → keeps_dir q (for_each l body).
Proof.
  induction l as [|x l IH]; intros H; simpl; [apply keeps_dir_ret|].
  apply keeps_dir_bind; [apply H; left|]. intros _. apply IH.
  intros y Hy. apply H. by right.
Qed.

Lemma keeps_dir_listdir p : keeps_dir q (listdir p).
Proof. intros w. unfold listdir. by destruct (stat p w) as [[]|]. Qed.
Lemma keeps_dir_readlines p : keeps_dir q (readlines p).
Proof. intros w. unfold readlines. by destruct (stat p w) as [[]|]. Qed.

Lemma keeps_dir_makedirs p : keeps_dir q (makedirs p).
Proof.
  intros w [es Hes]. unfold makedirs.
  destruct (mkdirs p (root w)) as [r|] eqn:E; [|by exists es].
  unfold is_dir, stat in *. simpl. eapply mkdirs_keeps_dir; eauto.
Qed.

Lemma keeps_dir_remove p : is_prefix p q = false → keeps_dir q (remove p).
Proof.
  intros Hq w Hw. unfold remove. destruct (stat p w) as [[]|]; try done.
  simpl. by apply is_dir_put.
Qed.

Lemma keeps_dir_rmtree p : is_prefix p q = false → keeps_dir q (rmtree p).
Proof.
  intros Hq w Hw. unfold rmtree. destruct (stat p w) as [[]|]; try done.
  simpl. by apply is_dir_put.
Qed.

Lemma is_dir_written p v w r :
  is_prefix p q = false → write_path p v (root w) = Some r →
  is_dir q w → is_dir q (World r (fetched w)).
Proof.
  intros Hp Hr Hw. pose proof (is_dir_put p q v w Hp Hw) as H.
  unfold put in H. by rewrite Hr in H.
Qed.

Lemma keeps_dir_open_w p : is_prefix p q = false → keeps_dir q (open_w p).
Proof.
  intros Hq w Hw. unfold open_w.
  destruct (stat p w) as [[]|];
    destruct (write_path p (Some (File [])) (root w)) eqn:E; try done;
    simpl; eapply is_dir_written; eauto.
Qed.

Lemma keeps_dir_write p text : is_prefix p q = false → keeps_dir q (write p text).
Proof.
  intros Hq w Hw. unfold write. destruct (stat p w) as [[]|]; try done.
  simpl. by apply is_dir_put.
Qed.

Lemma keeps_dir_rename src dst :
  is_prefix src q = false → is_prefix dst q = false → keeps_dir q (rename src dst).
Proof.
  intros Hs Hd w Hw. unfold rename. destruct (stat src w) as [n|]; [|done].
  case_decide; [done|].
  assert (∀ r, write_path dst (Some n) (root w) = Some r →
    is_dir q (put src None (World r (fetched w)))) as Hr.
  { intros r Hr. apply is_dir_put; [done|]. eapply is_dir_written; eauto. }
  destruct (write_path dst (Some n) (root w)) eqn:E;
    destruct n, (stat dst w) as [[|[|]]|]; simpl; eauto.
Qed.

Lemma keeps_dir_copy2 src dst : is_prefix dst q = false → keeps_dir q (copy2 src dst).
Proof.
  intros Hd w Hw. unfold copy2. destruct (stat src w) as [[c|]|]; try done.
  set (dst' := match stat dst w with Some (Dir _) => _ | _ => dst end).
  assert (is_prefix dst' q = false) as Hd'.
  { unfold dst'. destruct (stat dst w) as [[]|]; auto.
    by apply is_prefix_app_false. }
  case_decide; [done|].
  destruct (stat dst' w) as [[]|];
    destruct (write_path dst' (Some (File c)) (root w)) eqn:E; try done;
    simpl; eapply is_dir_written; eauto.
Qed.

Lemma keeps_dir_copytree src dst :
  is_prefix dst q = false → keeps_dir q (copytree src dst).
Proof.
  intros Hd w Hw. unfold copytree. destruct (stat src w) as [[|es]|]; try done.
  destruct (overlap src dst); [done|].
  destruct (mkdirs dst (root w)) as [r|] eqn:E; [|done].
  destruct (copy_node _ _ _) as [n err].
  assert (is_dir q (put dst (Some n) (World r (fetched w)))) as H.
  { apply is_dir_put; [done|]. destruct Hw as [es' Hes'].
    unfold is_dir, stat in *. simpl. eapply mkdirs_keeps_dir; eauto. }
  by destruct err.
Qed.

Lemma keeps_dir_copy_entry src dst :
  is_prefix dst q = false → keeps_dir q (copy_entry src dst).
Proof.
  intros Hd. apply keeps_dir_bind; [by intros w|].
  intros []; [by apply keeps_dir_copy2|by apply keeps_dir_copytree].
Qed.

End KeepsDir.

(** ** [sorted] returns a rearrangement of its argument *)

Section SortedPermutation.
Context {A : Type} (lt : A → A → bool).

Lemma insert_sorted_Permutation a pivot : insert_sorted lt a pivot ≡ₚ pivot :: a.
Proof.
  unfold insert_sorted. rewrite <-Permutation_middle.
  by rewrite take_drop.
Qed.

Lemma binarysort_Permutation a rest : binarysort lt a rest ≡ₚ a ++ rest.
Proof.
  unfold binarysort. revert a. induction rest as [|x rest IH]; intros a; simpl.
  - by rewrite app_nil_r.
  - rewrite IH, insert_sorted_Permutation. simpl. apply Permutation_middle.
Qed.

Lemma py_sorted_Permutation l : py_sorted lt l ≡ₚ l.
Proof.
  unfold py_sorted. destruct (count_run lt l) as [n descending].
  rewrite binarysort_Permutation.
  transitivity (take n l ++ drop n l); [|by rewrite take_drop].
  apply Permutation_app; [|done].
  destruct descending; [apply reverse_Permutation|done].
Qed.

Lemma py_sorted_reverse_Permutation l : py_sorted_reverse lt l ≡ₚ l.
Proof.
  unfold py_sorted_reverse.
  by rewrite reverse_Permutation, py_sorted_Permutation, reverse_Permutation.
Qed.

Lemma py_sorted_length l : length (py_sorted lt l) = length l.
Proof. by rewrite py_sorted_Permutation. Qed.

Lemma elem_of_py_sorted x l : x ∈ py_sorted lt l ↔ x ∈ l.
Proof. by rewrite py_sorted_Permutation. Qed.

End SortedPermutation.

Lemma elem_of_sorted_names x l : x ∈ sorted_names l ↔ x ∈ l.
Proof. apply elem_of_py_sorted. Qed.

(** ** [sorted] sorts, when the comparison is a consistent ordering *)

Lemma StronglySorted_lookup {A} (R : relation A) l i j x y :
  StronglySorted R l → (i < j)%nat → l !! i = Some x → l !! j = Some y → R x y.
Proof.
  intros Hl. revert i j. induction Hl as [|z l Hl IH Hz]; intros i j Hij Hi Hj.
  { by rewrite lookup_nil in Hi. }
  destruct j as [|j]; [lia|]. destruct i as [|i]; simpl in *.
  - injection Hi as ->. rewrite Forall_forall in Hz. apply Hz.
    by eapply list_elem_of_lookup_2.
  - apply (IH i j); [lia|done..].
Qed.

Section SortedCorrect.
Local Open Scope nat_scope.
Context {A : Type} (lt : A → A → bool) (le : relation A) `{!Transitive le}.
(** [dom] holds of the elements that are sorted; on them [lt] agrees with
    the ordering [le]. *)
Context (dom : A → Prop).
Context (Hlt : ∀ x y, dom x → dom y → lt x y = true → le x y).
Context (Hge : ∀ x y, dom x → dom y → lt x y = false → le y x).

Lemma bisect_spec pivot a fuel lo hi :
  dom pivot → Forall dom a → StronglySorted le a →
  lo ≤ hi ≤ length a → hi - lo ≤ fuel →
  (∀ i x, i < lo → a !! i = Some x → le x pivot) →
  (∀ i x, hi ≤ i → a !! i = Some x → le pivot x) →
  let k := bisect lt pivot a lo hi fuel in
  lo ≤ k ≤ hi ∧
  (∀ i x, i < k → a !! i = Some x → le x pivot) ∧
  (∀ i x, k ≤ i → a !! i = Some x → le pivot x).
Proof.
  intros Hp Ha Hs. revert lo hi.
  induction fuel as [|fuel IH]; intros lo hi Hb Hf Hlo Hhi; cbn [bisect].
  { assert (lo = hi) as -> by lia. split; [lia|]. by split. }
  destruct (Nat.ltb_spec lo hi) as [Hlh|Hlh].
  2:{ assert (lo = hi) as -> by lia. split; [lia|]. by split. }
  assert ((hi - lo) / 2 < hi - lo) as Hdiv by (apply Nat.div_lt; lia).
  set (p := lo + (hi - lo) / 2) in *.
  destruct (lookup_lt_is_Some_2 a p) as [x Hx]; [lia|]. rewrite Hx.
  assert (dom x) as Hdx.
  { rewrite Forall_forall in Ha. apply Ha. by eapply list_elem_of_lookup_2. }
  destruct (lt pivot x) eqn:E.
  - destruct (IH lo p) as (H1 & H2 & H3); [lia|lia|done| |].
    + intros i y Hi Hy. destruct (decide (i = p)) as [->|Hne].
      * assert (y = x) as -> by congruence. by apply Hlt.
      * etrans; [by apply (Hlt pivot x)|].
        apply (StronglySorted_lookup le a p i); [done|lia|done..].
    + split; [lia|]. by split.
  - destruct (IH (S p) hi) as (H1 & H2 & H3); [lia|lia| |done|].
    + intros i y Hi Hy. destruct (decide (i = p)) as [->|Hne].
      * assert (y = x) as -> by congruence. by apply Hge.
      * etrans; [|by apply (Hge pivot x)].
        apply (StronglySorted_lookup le a i p); [done|lia|done..].
    + split; [lia|]. by split.
Qed.

Lemma insert_sorted_sorted a pivot :
  dom pivot → Forall dom a → StronglySorted le a →
  StronglySorted le (insert_sorted lt a pivot).
Proof.
  intros Hp Ha Hs. unfold insert_sorted.
  destruct (bisect_spec pivot a (length a) 0 (length a)) as (Hk & Hbelow & Habove);
    [done|done|done|lia|lia|intros; lia| |].
  { intros i x Hi Hx. apply lookup_lt_Some in Hx. lia. }
  set (k := bisect lt pivot a 0 (length a) (length a)) in *.
  rewrite <-(take_drop k a) in Hs.
  apply StronglySorted_app_2.
  - intros x1 x2 [i Hi]%list_elem_of_lookup_1 [->|Hx2]%elem_of_cons.
    + apply lookup_take_Some in Hi as [Hi ?]. by apply (Hbelow i).
    + eapply StronglySorted_app_1_elem_of; [done| |done].
      by eapply list_elem_of_lookup_2.
  - by eapply StronglySorted_app_1_l.
  - apply StronglySorted_cons. split; [|by eapply StronglySorted_app_1_r].
    apply Forall_forall. intros x [i Hi]%list_elem_of_lookup_1.
    rewrite lookup_drop in Hi. apply (Habove (k + i)); [lia|done].
Qed.

Lemma binarysort_sorted a rest :
  Forall dom a → Forall dom rest → StronglySorted le a →
  StronglySorted le (binarysort lt a rest).
Proof.
  unfold binarysort. revert a.
  induction rest as [|x rest IH]; intros a Ha Hr Hs; simpl; [done|].
  apply Forall_cons_1 in Hr as [Hx Hr].
  apply IH; [|done|by apply insert_sorted_sorted].
  rewrite insert_sorted_Permutation. by constructor.
Qed.

Lemma run_ascending_sorted prev l :
  dom prev → Forall dom l →
  Sorted le (prev :: take (run_ascending lt prev l) l).
Proof.
  revert prev. induction l as [|x l IH]; intros prev Hp Hl; simpl.
  { by repeat constructor. }
  apply Forall_cons_1 in Hl as [Hx Hl].
  destruct (lt x prev) eqn:E; simpl; [by repeat constructor|].
  constructor; [by apply IH|]. constructor. by apply Hge.
Qed.

Lemma run_descending_sorted prev l :
  dom prev → Forall dom l →
  Sorted (flip le) (prev :: take (run_descending lt prev l) l).
Proof.
  revert prev. induction l as [|x l IH]; intros prev Hp Hl; simpl.
  { by repeat constructor. }
  apply Forall_cons_1 in Hl as [Hx Hl].
  destruct (lt x prev) eqn:E; simpl; [|by repeat constructor].
  constructor; [by apply IH|]. constructor. by apply Hlt.
Qed.

Lemma py_sorted_sorted l :
  Forall dom l → StronglySorted le (py_sorted lt l).
Proof.
  intros Hl. unfold py_sorted.
  destruct (count_run lt l) as [n descending] eqn:Hrun.
  assert (Forall dom (take n l)) as Htake by by apply Forall_take.
  assert (Forall dom (drop n l)) as Hdrop by by apply Forall_drop.
  apply binarysort_sorted; [|done|].
  { destruct descending; [by rewrite reverse_Permutation|done]. }
  apply (sorting.Sorted_StronglySorted _).
  destruct l as [|x [|y l]]; simpl in Hrun.
  - injection Hrun as <- <-. simpl. constructor.
  - injection Hrun as <- <-. simpl. by repeat constructor.
  - apply Forall_cons_1 in Hl as [Hx Hl].
    pose proof Hl as Hyl. apply Forall_cons_1 in Hyl as [Hy Hyl].
    destruct (lt y x) eqn:E; injection Hrun as <- <-.
    + change le with (flip (flip le)). apply Sorted_reverse. simpl.
      constructor; [by apply run_descending_sorted|].
      constructor. by apply Hlt.
    + simpl. constructor; [by apply run_ascending_sorted|].
      constructor. by apply Hge.
Qed.

Lemma py_sorted_reverse_sorted l :
  Forall dom l → StronglySorted (flip le) (py_sorted_reverse lt l).
Proof.
  intros Hl. unfold py_sorted_reverse.
  apply (sorting.Sorted_StronglySorted _).
  apply Sorted_reverse, StronglySorted_Sorted.
  apply py_sorted_sorted. by rewrite reverse_Permutation.
Qed.

End SortedCorrect.

(** ** [update_server_properties]: the reading loop *)

Lemma split_key_value_Ok line :
  Str.count "=" line = 1%nat →
  ∃ key value, Str.split "=" line = [key; value] ∧
               split_key_value line = Ok (key, value).
Proof.
  intros Hc. pose proof (split_length "=" line) as Hl. rewrite Hc in Hl.
  unfold split_key_value.
  destruct (Str.split "=" line) as [|k [|v [|??]]]; try done. eauto.
Qed.

Lemma split_key_value_Raise line :
  Str.count "=" line ≠ 1%nat → split_key_value line = Raise ValueError.
Proof.
  intros Hc. pose proof (split_length "=" line) as Hl.
  unfold split_key_value.
  destruct (Str.split "=" line) as [|k [|v [|??]]]; try done.
  simpl in Hl. congruence.
Qed.

Lemma split_key_value_inv line key value :
  split_key_value line = Ok (key, value) → Str.split "=" line = [key; value].
Proof.
  unfold split_key_value.
  destruct (Str.split "=" line) as [|k [|v [|??]]]; try done. by intros [= -> ->].
Qed.

Lemma key_of_line_clean line : clean (key_of_line line).
Proof.
  unfold key_of_line, clean. split; [apply strip_idemp|].
  apply contains_strip.
  destruct (Str.split "=" line) as [|k rest] eqn:E; [done|]. simpl.
  apply (split_pieces_no_sep "=" line). rewrite E. left.
Qed.

Lemma split_key_value_exn line e :
  split_key_value line = Raise e → e = ValueError.
Proof.
  unfold split_key_value.
  destruct (Str.split "=" line) as [|? [|? [|??]]]; congruence.
Qed.

(** A well-formed document is read without error. *)
Lemma read_dict_Ok lines d :
  (∀ line, line ∈ lines → ¬ malformed line) → ∃ d', read_dict lines d = Ok d'.
Proof.
  revert d. induction lines as [|line lines IH]; intros d Hwf; simpl; [eauto|].
  assert (∀ l, l ∈ lines → ¬ malformed l) as Hwf' by (intros; apply Hwf; by right).
  destruct (is_key_line line) eqn:Hk; [|by apply IH].
  destruct (decide (Str.count "=" line = 1%nat)) as [Hc|Hc].
  - destruct (split_key_value_Ok _ Hc) as (k & v & _ & ->). by apply IH.
  - destruct (Hwf line); [left|]. by split.
Qed.

(** A malformed line anywhere makes the reading loop raise. *)
Lemma read_dict_Raise lines d line :
  line ∈ lines → malformed line → read_dict lines d = Raise ValueError.
Proof.
  revert d. induction lines as [|l lines IH]; intros d Hin Hbad.
  { by apply elem_of_nil in Hin. }
  simpl. apply elem_of_cons in Hin as [<-|Hin].
  - destruct Hbad as [-> Hc]. by rewrite split_key_value_Raise.
  - destruct (is_key_line l); [|by apply IH].
    destruct (split_key_value l) as [[k v]|e] eqn:E; [by apply IH|].
    by rewrite (split_key_value_exn _ _ E).
Qed.

Lemma read_dict_only_ValueError lines d e :
  read_dict lines d = Raise e → e = ValueError.
Proof.
  revert d. induction lines as [|l lines IH]; intros d; simpl; [done|].
  destruct (is_key_line l); [|apply IH].
  destruct (split_key_value l) as [[k v]|e'] eqn:E; [apply IH|].
  intros [= <-]. by apply split_key_value_exn in E.
Qed.

(** Every key line of the document has its key in the dictionary. *)
Lemma read_dict_keys lines d d' :
  read_dict lines d = Ok d' →
  (∀ k, is_Some (d !! k) → is_Some (d' !! k)) ∧
  (∀ line, line ∈ lines → is_key_line line = true →
           is_Some (d' !! key_of_line line)).
Proof.
  revert d. induction lines as [|l lines IH]; intros d; simpl.
  - intros [= <-]. split; [done|]. by intros ? ?%elem_of_nil.
  - destruct (is_key_line l) eqn:Hk.
    + destruct (split_key_value l) as [[k v]|e] eqn:E; [|done].
      intros [H1 H2]%IH. split.
      * intros k' Hk'. apply H1. rewrite lookup_insert. by case_decide.
      * intros line [->|Hin]%elem_of_cons Hline; [|by apply H2].
        apply H1. unfold key_of_line.
        rewrite (split_key_value_inv _ _ _ E). simpl.
        by rewrite lookup_insert_eq.
    + intros [H1 H2]%IH. split; [done|].
      intros line [->|Hin]%elem_of_cons Hline; [congruence|by apply H2].
Qed.

(** ** [update_server_properties]: resolving the keys *)

Lemma resolve_key_lookup sd td (r : dict) key k :
  resolve_key sd td r key !! k =
    if decide (key = k)
    then match td !! k with
         | Some tv => Some (default tv (sd !! k))
         | None => r !! k
         end
    else r !! k.
Proof.
  unfold resolve_key. case_decide as Hk.
  - subst. destruct (sd !! k), (td !! k); simpl; by rewrite ?lookup_insert_eq.
  - destruct (sd !! key), (td !! key); by rewrite ?lookup_insert_ne.
Qed.

Lemma resolve_fold_lookup sd td keys (r : dict) k :
  fold_left (resolve_key sd td) keys r !! k =
    match td !! k with
    | Some tv => if decide (k ∈ keys) then Some (default tv (sd !! k)) else r !! k
    | None => r !! k
    end.
Proof.
  revert r. induction keys as [|key keys IH]; intros r; cbn [fold_left].
  - destruct (td !! k); [|done]. by rewrite decide_False by apply not_elem_of_nil.
  - rewrite IH, resolve_key_lookup.
    destruct (td !! k) as [tv|]; [|by case_decide].
    destruct (decide (key = k)) as [->|Hne].
    + rewrite (decide_True (P:=k ∈ k :: keys)) by left. by case_decide.
    + destruct (decide (k ∈ keys)).
      * rewrite decide_True; [done|by right].
      * rewrite decide_False; [done|]. rewrite not_elem_of_cons. done.
Qed.

(** The resolution rule: a key of the target takes the source's value when
    the source has the key and keeps its own otherwise; a key the target
    does not have is not in the result. *)
Lemma resolve_lookup (sd td : dict) k :
  resolve sd td !! k =
    match td !! k with
    | Some tv => Some (default tv (sd !! k))
    | None => None
    end.
Proof.
  unfold resolve. rewrite resolve_fold_lookup, lookup_empty.
  destruct (td !! k) eqn:Et; [|done].
  rewrite decide_True; [done|].
  rewrite elem_of_sorted_names, elem_of_elements, elem_of_union, !elem_of_dom.
  right. by rewrite Et.
Qed.

Lemma render_line_resolved sd td line :
  (is_key_line line = true → is_Some (td !! key_of_line line)) →
  render_line (resolve sd td) line =
    Ok (if is_key_line line then resolved_line sd td line else line).
Proof.
  unfold render_line, resolved_line. destruct (is_key_line line); [|done].
  intros [tv Htv]; [done|]. by rewrite resolve_lookup, Htv.
Qed.

(** ** [update_server_properties]: the writing loop *)

Lemma can_write p w c v :
  stat p w = Some c → is_Some (write_path p (Some v) (root w)).
Proof.
  intros Hc. destruct p as [|x p]; [by eauto|].
  by eapply write_path_stat.
Qed.

Lemma open_w_file p w ls :
  stat p w = Some (File ls) → open_w p w = (Ok tt, put p (Some (File [])) w).
Proof.
  intros Hs. unfold open_w, put. rewrite Hs.
  by destruct (can_write p w _ (File []) Hs) as [r ->].
Qed.

Lemma write_loop p w c (out : string → string) rd lines acc :
  stat p w = Some c →
  (∀ line, line ∈ lines → render_line rd line = Ok (out line)) →
  for_each lines (λ line, bind (lift (render_line rd line)) (λ text, write p text))
    (put p (Some (File acc)) w)
  = (Ok tt, put p (Some (File (acc ++ (out <$> lines)))) w).
Proof.
  intros Hc. revert acc. induction lines as [|line lines IH]; intros acc Hr.
  - simpl. by rewrite app_nil_r.
  - cbn [for_each]. unfold bind at 1. unfold bind at 1, lift at 1.
    rewrite (Hr line) by left. unfold write.
    rewrite stat_put_eq by by eapply can_write.
    rewrite put_twice. rewrite IH by (intros; apply Hr; by right).
    by rewrite fmap_cons, <-app_assoc.
Qed.

(** What [update_server_properties] does to two regular files. *)
Lemma update_server_properties_run src tgt w sl tl :
  stat src w = Some (File sl) → stat tgt w = Some (File tl) →
  update_server_properties src tgt w =
    match read_dict sl ∅ with
    | Raise e => (Raise e, w)
    | Ok sd =>
        match read_dict tl ∅ with
        | Raise e => (Raise e, w)
        | Ok td => (Ok tt, put tgt (Some (File (resolved_lines sd td tl))) w)
        end
    end.
Proof.
  intros Hs Ht. unfold update_server_properties.
  unfold bind at 1, readlines at 1. rewrite Hs.
  unfold bind at 1, lift at 1. destruct (read_dict sl ∅) as [sd|e]; [|done].
  unfold bind at 1, readlines at 1. rewrite Ht.
  unfold bind at 1, lift at 1.
  destruct (read_dict tl ∅) as [td|e] eqn:Etd; [|done].
  unfold bind at 1. rewrite (open_w_file _ _ _ Ht).
  erewrite (write_loop tgt w _
    (λ line, if is_key_line line then resolved_line sd td line else line));
    [done|done|].
  intros line Hin. apply render_line_resolved. intros Hk.
  by apply (read_dict_keys _ _ _ Etd).
Qed.

(** C7.  On two regular files, [update_server_properties] raises
    [ValueError] as soon as either document holds a line that is neither a
    comment nor the empty line and does not hold exactly one ["="] (none,
    or more than one); nothing has been written by then, so no such line is
    guessed or skipped.  When neither document holds such a line, no error
    is raised. *)
Theorem update_server_properties_malformed src tgt w sl tl :
  stat src w = Some (File sl) → stat tgt w = Some (File tl) →
  ((∃ line, line ∈ sl ++ tl ∧ malformed line) →
     update_server_properties src tgt w = (Raise ValueError, w)) ∧
  ((∀ line, line ∈ sl ++ tl → ¬ malformed line) →
     (update_server_properties src tgt w).1 = Ok tt).
Proof.
  intros Hs Ht. rewrite (update_server_properties_run _ _ _ _ _ Hs Ht). split.
  - intros (line & [Hin|Hin]%elem_of_app & Hbad).
    + by rewrite (read_dict_Raise _ _ _ Hin Hbad).
    + destruct (read_dict sl ∅) as [sd|e] eqn:E.
      * by rewrite (read_dict_Raise _ _ _ Hin Hbad).
      * by rewrite (read_dict_only_ValueError _ _ _ E).
  - intros Hwf.
    destruct (read_dict_Ok sl ∅) as [sd ->].
    { intros line Hin. apply Hwf, elem_of_app. by left. }
    destruct (read_dict_Ok tl ∅) as [td ->]; [|done].
    intros line Hin. apply Hwf, elem_of_app. by right.
Qed.

(** C7, at an instance: the source document of the example with the line
    ["b"] added is refused; the documents of the example are accepted. *)
Lemma update_server_properties_malformed_witness :
  (update_server_properties ["old.properties"] ["new.properties"]
     example_world_malformed).1
    = Raise ValueError ∧
  (update_server_properties ["old.properties"] ["new.properties"]
     example_world).1 = Ok tt.
Proof.
  split.
  - pose proof (update_server_properties_malformed
      ["old.properties"] ["new.properties"]
      example_world_malformed _ _ eq_refl eq_refl) as [H _].
    rewrite H; [done|]. exists ("b" +:+ Str.newline). split; [left|].
    split; [done|]. vm_compute. lia.
  - apply (update_server_properties_malformed
      ["old.properties"] ["new.properties"] example_world _ _ eq_refl eq_refl).
    intros line Hin [Hk Hc].
    repeat (apply elem_of_cons in Hin as [->|Hin];
            [first [by apply Hc | by vm_compute in Hk]|]).
    by apply elem_of_nil in Hin.
Defined.

(** ** [update_server_properties]: the output document *)

Lemma key_of_line_render k rest :
  clean k → key_of_line (k +:+ "=" +:+ rest) = k.
Proof.
  intros [Hs Hc]. unfold key_of_line.
  change ("=" +:+ rest) with (String "=" rest).
  by rewrite split_app_sep.
Qed.

Lemma key_of_resolved_line sd td line :
  key_of_line (resolved_line sd td line) = key_of_line line.
Proof. apply key_of_line_render, key_of_line_clean. Qed.

Lemma resolved_lines_length sd td lines :
  length (resolved_lines sd td lines) = length lines.
Proof. apply length_fmap. Qed.

Lemma resolved_lines_lookup sd td lines i line :
  lines !! i = Some line →
  resolved_lines sd td lines !! i =
    Some (if is_key_line line then resolved_line sd td line else line).
Proof. intros H. unfold resolved_lines. by rewrite list_lookup_fmap, H. Qed.

(** C2, as the code has it.  On two well-formed documents
    [update_server_properties] succeeds and writes the target document back
    line by line in its original order: the output has as many lines as the
    target; a comment or empty line is written unchanged where it stood; a
    key line is written as [key=value] followed by a line end, the value
    being the source's when the source has the key and the target's
    otherwise (a dictionary holds the value of the last line of a key); and
    no key line of the output carries a key that only the source has.  With
    source [a=1], [b=2] and target [b=9], [c=3], a comment and an empty
    line, the output is [b=2], [c=3], the comment and the empty line: the
    shared key [b] takes the source's value, which is 2. *)
Theorem update_server_properties_output :
  (∀ src tgt w sl tl,
     stat src w = Some (File sl) → stat tgt w = Some (File tl) →
     (∀ line, line ∈ sl ++ tl → ¬ malformed line) →
     ∃ sd td out,
       read_dict sl ∅ = Ok sd ∧ read_dict tl ∅ = Ok td ∧
       update_server_properties src tgt w = (Ok tt, put tgt (Some (File out)) w) ∧
       stat tgt (put tgt (Some (File out)) w) = Some (File out) ∧
       length out = length tl ∧
       (∀ i line, tl !! i = Some line → is_key_line line = false →
          out !! i = Some line) ∧
       (∀ i line, tl !! i = Some line → is_key_line line = true →
          ∃ tv, td !! key_of_line line = Some tv ∧
            out !! i = Some (key_of_line line +:+ "=" +:+
                             default tv (sd !! key_of_line line) +:+ Str.newline)) ∧
       (∀ k line, is_Some (sd !! k) → td !! k = None →
          line ∈ out → is_key_line line = true → key_of_line line ≠ k)) ∧
  update_server_properties ["old.properties"] ["new.properties"] example_world
  = (Ok tt,
     World (Dir [("old.properties", File example_source);
                 ("new.properties",
                  File ["b=2" +:+ Str.newline; "c=3" +:+ Str.newline;
                        "# hi" +:+ Str.newline; Str.newline])]) []).
Proof.
  split; [|by vm_compute].
  intros src tgt w sl tl Hs Ht Hwf.
  destruct (read_dict_Ok sl ∅) as [sd Hsd].
  { intros line Hin. apply Hwf, elem_of_app. by left. }
  destruct (read_dict_Ok tl ∅) as [td Htd].
  { intros line Hin. apply Hwf, elem_of_app. by right. }
  exists sd, td, (resolved_lines sd td tl).
  rewrite (update_server_properties_run _ _ _ _ _ Hs Ht), Hsd, Htd.
  split; [done|]. split; [done|]. split; [done|].
  split; [apply stat_put_eq; by eapply can_write|].
  split; [apply resolved_lines_length|].
  split; [|split].
  - intros i line Hi Hk. by rewrite (resolved_lines_lookup _ _ _ _ _ Hi), Hk.
  - intros i line Hi Hk.
    destruct (proj2 (read_dict_keys _ _ _ Htd) line) as [tv Htv];
      [by eapply list_elem_of_lookup_2|done|].
    exists tv. split; [done|].
    rewrite (resolved_lines_lookup _ _ _ _ _ Hi), Hk.
    unfold resolved_line. by rewrite Htv.
  - intros k line Hsk Htk Hin Hk Heq. subst k.
    apply list_elem_of_fmap in Hin as (l & -> & Hl).
    destruct (is_key_line l) eqn:Hkl; [|congruence].
    rewrite key_of_resolved_line in Htk.
    destruct (proj2 (read_dict_keys _ _ _ Htd) l Hl Hkl) as [tv Htv].
    congruence.
Qed.

(** C2, at an instance: the documents of the example. *)
Lemma update_server_properties_output_witness :
  ∃ sd td out,
    read_dict example_source ∅ = Ok sd ∧ read_dict example_target ∅ = Ok td ∧
    update_server_properties ["old.properties"] ["new.properties"] example_world
    = (Ok tt, put ["new.properties"] (Some (File out)) example_world) ∧
    length out = length example_target.
Proof.
  destruct (proj1 update_server_properties_output
    ["old.properties"] ["new.properties"] example_world
    example_source example_target eq_refl eq_refl)
    as (sd & td & out & H1 & H2 & H3 & _ & H4 & _).
  - intros line Hin [Hk Hc].
    repeat (apply elem_of_cons in Hin as [->|Hin];
            [first [by apply Hc | by vm_compute in Hk]|]).
    by apply elem_of_nil in Hin.
  - exists sd, td, out.
    split; [exact H1|]. split; [exact H2|]. split; [exact H3|exact H4].
Defined.

(** C2 as the specification words it does not hold: in the example the
    output does not contain [b=1]; the line for [b] is [b=2]. *)
Lemma update_server_properties_example_not_b1 :
  ¬ (∃ out,
       stat ["new.properties"]
         (update_server_properties ["old.properties"] ["new.properties"]
            example_world).2 = Some (File out) ∧
       "b=1" +:+ Str.newline ∈ out).
Proof.
  intros (out & Hout & Hin). vm_compute in Hout. injection Hout as <-.
  repeat (apply elem_of_cons in Hin as [Hin|Hin]; [by vm_compute in Hin|]).
  by apply elem_of_nil in Hin.
Qed.

(** ** Running the primitives *)

Lemma world_eta w : World (root w) (fetched w) = w.
Proof. by destruct w. Qed.

Lemma makedirs_is_dir p w : is_dir p w → makedirs p w = (Ok tt, w).
Proof.
  intros [es Hes]. unfold makedirs. unfold stat in Hes.
  by rewrite (mkdirs_id _ _ _ Hes), world_eta.
Qed.

Lemma remove_file p w ls :
  stat p w = Some (File ls) → remove p w = (Ok tt, put p None w).
Proof. unfold remove. by intros ->. Qed.

Lemma is_dir_parent q x w c : stat (join q x) w = Some c → is_dir q w.
Proof. apply lookup_parent. Qed.

Lemma stat_put_join q x v w :
  is_dir q w → stat (join q x) (put (join q x) v w) = v.
Proof.
  intros [es Hes]. apply stat_put_eq. by eapply write_path_in_dir.
Qed.

Lemma is_dir_put_join q x v w : is_dir q w → is_dir q (put (join q x) v w).
Proof. apply is_dir_put, is_prefix_join. Qed.

Lemma open_w_in_dir q x w :
  is_dir q w → (∀ es, stat (join q x) w ≠ Some (Dir es)) →
  open_w (join q x) w = (Ok tt, put (join q x) (Some (File [])) w).
Proof.
  intros [es Hes] Hnd. unfold open_w, put.
  destruct (write_path_in_dir q x (Some (File [])) (root w) es Hes) as [r ->].
  destruct (stat (join q x) w) as [[|es']|]; try done. by destruct (Hnd es').
Qed.

Lemma join_inj q x y : join q x = join q y → x = y.
Proof. unfold join. intros H. apply app_inv_head in H. by injection H. Qed.

(** ** [backup_local_server] *)

(** C10, as the code has it.  When an archive with the name of this run
    (minute, base name of the server directory and format) is already in
    the backup directory, [backup_local_server] removes it and writes the
    new archive under the same name: the run succeeds, the file holds the
    new archive, and every other entry of the backup directory is as it
    was, so a second run in the same minute with the same format replaces
    the first run's archive. *)
Theorem backup_replaces_same_archive ar now_time server_dir backup_dir type w tree old :
  type = "zip" ∨ type = "7z" →
  overlap server_dir backup_dir = false →
  stat server_dir w = Some tree →
  let target_file :=
    join backup_dir ((now_time +:+ "-" +:+ basename server_dir) +:+ "." +:+ type) in
  stat target_file w = Some (File old) →
  ∃ w', backup_local_server ar now_time server_dir backup_dir type w = (Ok tt, w') ∧
        stat target_file w' = Some (File (pack ar type tree)) ∧
        (∀ x, join backup_dir x ≠ target_file →
              stat (join backup_dir x) w' = stat (join backup_dir x) w).
Proof.
  intros Htype Hov Htree target_file Hold.
  pose proof (is_dir_parent _ _ _ _ Hold) as Hdir.
  set (name := (now_time +:+ "-" +:+ basename server_dir) +:+ "." +:+ type) in *.
  assert (overlap target_file server_dir = false) as Hts.
  { rewrite overlap_sym. by apply overlap_join_r. }
  set (w1 := put target_file None w).
  assert (is_dir backup_dir w1) as Hdir1 by by apply is_dir_put_join.
  assert (stat target_file w1 = None) as Hgone by by apply stat_put_join.
  set (w2 := put target_file (Some (File [])) w1).
  assert (is_dir backup_dir w2) as Hdir2 by by apply is_dir_put_join.
  assert (stat server_dir w2 = Some tree) as Htree2.
  { unfold w2, w1. by rewrite !stat_put_apart. }
  set (w3 := put target_file (Some (File (pack ar type tree))) w2).
  exists w3. split; [|split].
  - unfold backup_local_server. fold name. fold target_file.
    unfold bind at 1. rewrite (makedirs_is_dir _ _ Hdir).
    unfold bind at 1. rewrite (makedirs_is_dir _ _ Hdir).
    unfold bind at 1, isfile at 1. rewrite Hold.
    unfold bind at 1, when. rewrite (remove_file _ _ _ Hold). fold w1.
    assert (write_archive ar type server_dir target_file w1 = (Ok tt, w3)) as Hw.
    { unfold write_archive, bind.
      change (open_w target_file) with (open_w (join backup_dir name)).
      rewrite (open_w_in_dir backup_dir name w1);
        [|done|intros es; fold target_file; by rewrite Hgone].
      fold target_file. fold w2.
      by rewrite Htree2. }
    destruct Htype as [-> | ->]; exact Hw.
  - by apply stat_put_join.
  - intros x Hx. unfold w3, w2, w1.
    rewrite !stat_put_apart; [done|..];
      apply overlap_join_ne; intros ->; done.
Qed.

(** C10, at an instance: a second zip backup of [server] in the minute of
    the archive that is already there. *)
Lemma backup_replaces_same_archive_witness :
  ∃ w', backup_local_server example_archiver "202401010000"
          ["server"] ["backups"] "zip" example_backup_world = (Ok tt, w') ∧
        stat ["backups"; "202401010000-server.zip"] w'
          = Some (File ["zip"; "worlds"; "server.properties"]).
Proof.
  destruct (backup_replaces_same_archive example_archiver "202401010000"
    ["server"] ["backups"] "zip" example_backup_world
    (Dir [("worlds", Dir []); ("server.properties", File [])]) ["old"])
    as (w' & H1 & H2 & _).
  - by left.
  - reflexivity.
  - reflexivity.
  - reflexivity.
  - by exists w'.
Defined.

(** C10 as worded does not hold: a backup in the format [7z] in the minute
    of a [zip] backup of the same server leaves the [zip] archive where it
    is, so two archives carry the same minute and base name. *)
Lemma backup_same_minute_two_formats :
  let w' := (backup_local_server example_archiver "202401010000"
               ["server"] ["backups"] "7z" example_backup_world).2 in
  stat ["backups"; "202401010000-server.zip"] w' = Some (File ["old"]) ∧
  stat ["backups"; "202401010000-server.7z"] w'
    = Some (File ["7z"; "worlds"; "server.properties"]).
Proof. by vm_compute. Qed.

(** ** [download_and_extract_latest_server] *)

Lemma mkdirs_join_ok d y n es :
  lookup_path d n = Some (Dir es) →
  (∀ ls, lookup_path (join d y) n ≠ Some (File ls)) →
  is_Some (mkdirs (join d y) n).
Proof.
  unfold join. revert n. induction d as [|z d IH]; intros n; simpl.
  - intros [= ->] Hnf. destruct (dir_lookup y es) as [[ls|es']|]; simpl.
    + by destruct (Hnf ls).
    + eauto.
    + eauto.
  - destruct n as [|es']; [done|].
    destruct (dir_lookup z es') as [c|]; simpl; [|done]. intros Hc Hnf.
    destruct (IH c Hc Hnf) as [c' ->]. simpl. eauto.
Qed.

Lemma copy_node_onto_dir name es ds :
  ∃ ds' err, copy_node name (Dir es) (Some (Dir ds)) = (Dir ds', err).
Proof.
  simpl.
  match goal with |- context [?f es ds false] => destruct (f es ds false) end.
  eauto.
Qed.

Lemma stat_same_root p w w' : root w' = root w → stat p w' = stat p w.
Proof. unfold stat. by intros ->. Qed.

Section DownloadProperties.
Context (ar : archiver) (net : network).

(** An archive that cannot be unpacked makes [extractall] raise; the
    archive stays, and so does what was unpacked before the failure. *)
Lemma extractall_fails d x y w content :
  stat (join d x) w = Some (File content) →
  (∀ members, unpack ar content ≠ (Some members, true)) →
  ∃ e w1, extractall ar (join d x) (join d y) w = (Raise e, w1) ∧
          stat (join d x) w1 = Some (File content) ∧
          fetched w1 = fetched w ∧
          (∀ members, unpack ar content = (Some members, false) →
             (∀ ls, stat (join d y) w ≠ Some (File ls)) →
             is_dir (join d y) w1).
Proof.
  intros Hfile Hbad. pose proof (is_dir_parent _ _ _ _ Hfile) as Hd.
  unfold extractall. unfold bind at 1, readlines at 1. rewrite Hfile.
  destruct (unpack ar content) as [[members|] finished] eqn:E.
  2:{ exists BadZipFile, w. repeat split; try done. }
  destruct finished; [by destruct (Hbad members)|].
  unfold bind at 1, makedirs at 1.
  destruct (mkdirs (join d y) (root w)) as [r|] eqn:Em.
  - set (wa := World r (fetched w)).
    assert (x ≠ y) as Hxy.
    { intros ->. unfold stat in Hfile. by rewrite (mkdirs_file _ _ _ Hfile) in Em. }
    assert (stat (join d x) wa = Some (File content)) as Hfa.
    { unfold stat in *. simpl. erewrite mkdirs_frame; eauto.
      destruct (is_prefix (join d x) (join d y)) eqn:Hp; [|done].
      apply is_prefix_overlap in Hp. by rewrite overlap_join_ne in Hp. }
    assert (is_dir d wa) as Hda.
    { destruct Hd as [es Hes]. unfold is_dir, stat in *. simpl.
      eapply mkdirs_keeps_dir; eauto. }
    destruct (mkdirs_prefix_dir _ (join d y) _ _ Em (is_prefix_refl _))
      as [ds Hds].
    assert (stat (join d y) wa = Some (Dir ds)) as Hsa by done.
    destruct (copy_node_onto_dir "" members ds) as (ds' & err & Hcopy).
    exists BadZipFile, (put (join d y) (Some (Dir ds')) wa).
    split; [unfold bind; by rewrite Hsa, Hcopy|]. split; [|split].
    + rewrite stat_put_apart; [done|]. apply overlap_join_ne. congruence.
    + by rewrite fetched_put.
    + intros _ _ _. exists ds'. by apply stat_put_join.
  - exists FileExistsError, w. split; [done|]. split; [done|]. split; [done|].
    intros _ [= <-] Hnf. destruct Hd as [es Hes].
    destruct (mkdirs_join_ok d y (root w) es Hes Hnf) as [r Hr]. congruence.
Qed.

(** C5, as the code has it.  When the release on the download page is
    newer and its archive is already in the cache but cannot be unpacked,
    the clean-up calls [shutil.rmtree] on the archive, a regular file, which
    raises; the outer handler catches it.  The function returns [None], the
    cached archive is still on disk with its content, no download request
    has been made after the request for the page, and a partial extraction
    that was written stays on disk. *)
Theorem corrupt_cache_is_not_cleaned download_dir local_version w url content :
  search net = Ok (Some url) →
  compare_version local_version (extract_version url) < 0 →
  let file_name := List.last (Str.split "/" url) "" in
  let download_file := join download_dir file_name in
  let extract_dir := join download_dir (Str.remove_all ".zip" file_name) in
  stat download_file w = Some (File content) →
  (∀ members, unpack ar content ≠ (Some members, true)) →
  ∃ w', download_and_extract_latest_server ar net download_dir local_version w
          = (Ok None, w') ∧
        stat download_file w' = Some (File content) ∧
        fetched w' = fetched w ++ [search_url] ∧
        (∀ members, unpack ar content = (Some members, false) →
           (∀ ls, stat extract_dir w ≠ Some (File ls)) →
           is_dir extract_dir w').
Proof.
  intros Hsearch Hnewer file_name download_file extract_dir Hfile Hbad.
  set (w0 := World (root w) (fetched w ++ [search_url])).
  assert (stat download_file w0 = Some (File content)) as Hfile0 by done.
  destruct (extractall_fails download_dir file_name
              (Str.remove_all ".zip" file_name) w0 content Hfile0 Hbad)
    as (e & w1 & Hrun & Hf1 & Hfetch & Hpartial).
  fold download_file extract_dir in Hrun, Hf1, Hpartial.
  exists w1. split; [|split; [done|split; [done|]]].
  2:{ intros members Hm Hnf. by apply (Hpartial members). }
  unfold download_and_extract_latest_server, try_except at 1.
  unfold bind at 1, requests_get at 1. rewrite Hsearch. fold w0.
  apply Z.ltb_lt in Hnewer. rewrite Hnewer.
  fold file_name. fold download_file. fold extract_dir.
  unfold bind at 1.
  rewrite (makedirs_is_dir download_dir w0)
    by (by apply (is_dir_parent _ _ _ _ Hfile0)).
  unfold bind at 1, isfile at 1. rewrite Hfile0.
  unfold bind at 1, try_except at 1.
  unfold bind at 1. rewrite Hrun.
  unfold bind at 1, rmtree at 1. by rewrite Hf1.
Qed.

End DownloadProperties.

(** C5, at an instance: the cache holds a damaged archive of the release
    the page links. *)
Lemma corrupt_cache_is_not_cleaned_witness :
  ∃ w', download_and_extract_latest_server failing_archiver example_network
          ["cache"] [1; 20] example_cache_world = (Ok None, w') ∧
        stat ["cache"; "bedrock-server-1.21.0.03.zip"] w' = Some (File ["damaged"]) ∧
        fetched w' = [search_url] ∧
        is_dir ["cache"; "bedrock-server-1.21.0.03"] w'.
Proof.
  destruct (corrupt_cache_is_not_cleaned failing_archiver example_network
    ["cache"] [1; 20] example_cache_world example_url ["damaged"])
    as (w' & H1 & H2 & H3 & H4).
  - reflexivity.
  - reflexivity.
  - reflexivity.
  - intros members. by vm_compute.
  - exists w'. split; [done|]. split; [done|]. split; [done|].
    apply (H4 [("bedrock_server", File [])]); [reflexivity|].
    intros ls. by vm_compute.
Defined.

(** ** [update_server]: what the steps leave alone *)

Lemma frames_update_server_properties q src tgt :
  overlap tgt q = false → frames q (update_server_properties src tgt).
Proof.
  intros Hq. unfold update_server_properties.
  apply frames_bind; [apply frames_readlines|]. intros sl.
  apply frames_bind; [apply frames_lift|]. intros sd.
  apply frames_bind; [apply frames_readlines|]. intros tl.
  apply frames_bind; [apply frames_lift|]. intros td.
  apply frames_bind; [by apply frames_open_w|]. intros _.
  apply frames_for_each. intros line _.
  apply frames_bind; [apply frames_lift|]. intros text.
  by apply frames_write.
Qed.

Lemma keeps_dir_update_server_properties q src tgt :
  is_prefix tgt q = false → keeps_dir q (update_server_properties src tgt).
Proof.
  intros Hq. unfold update_server_properties.
  apply keeps_dir_bind; [apply keeps_dir_readlines|]. intros sl.
  apply keeps_dir_bind; [apply keeps_dir_lift|]. intros sd.
  apply keeps_dir_bind; [apply keeps_dir_readlines|]. intros tl.
  apply keeps_dir_bind; [apply keeps_dir_lift|]. intros td.
  apply keeps_dir_bind; [by apply keeps_dir_open_w|]. intros _.
  apply keeps_dir_for_each. intros line _.
  apply keeps_dir_bind; [apply keeps_dir_lift|]. intros text.
  by apply keeps_dir_write.
Qed.

(** Step 1 writes below the entries of the target that are not special. *)
Lemma frames_copy_release q latest target :
  (∀ f, f ∉ SPECIAL_PATHS → overlap (join target f) q = false) →
  frames q (copy_release latest target).
Proof.
  intros Hq. unfold copy_release.
  apply frames_bind; [apply frames_listdir|]. intros names.
  apply frames_for_each. intros f _.
  destruct (bool_decide (f ∉ SPECIAL_PATHS)) eqn:Hf; [|apply frames_ret].
  apply bool_decide_eq_true in Hf. simpl.
  apply frames_copy_entry. by apply Hq.
Qed.

Lemma keeps_dir_copy_release q latest target :
  is_prefix target q = false ∨ q = target →
  keeps_dir q (copy_release latest target).
Proof.
  intros Hq. unfold copy_release.
  apply keeps_dir_bind; [apply keeps_dir_listdir|]. intros names.
  apply keeps_dir_for_each. intros f _.
  apply keeps_dir_when, keeps_dir_copy_entry.
  destruct Hq as [Hq| ->]; [by apply is_prefix_app_false|apply is_prefix_join].
Qed.

Lemma frames_merge_properties q local latest target :
  overlap (join target "server.properties.temp") q = false →
  overlap (join target "server.properties") q = false →
  frames q (merge_properties local latest target).
Proof.
  intros Ht Hp. unfold merge_properties.
  apply frames_bind; [by apply frames_copy2|]. intros _.
  apply frames_bind; [by apply frames_update_server_properties|]. intros _.
  apply frames_bind; [apply frames_exists|]. intros b.
  apply frames_bind; [by apply frames_when, frames_remove|]. intros _.
  by apply frames_rename.
Qed.

Lemma keeps_dir_merge_properties q local latest target :
  is_prefix target q = false ∨ q = target →
  keeps_dir q (merge_properties local latest target).
Proof.
  intros Hq.
  assert (∀ x, is_prefix (join target x) q = false) as Hx.
  { intros x. destruct Hq as [Hq| ->];
      [by apply is_prefix_app_false|apply is_prefix_join]. }
  unfold merge_properties.
  apply keeps_dir_bind; [by apply keeps_dir_copy2|]. intros _.
  apply keeps_dir_bind; [by apply keeps_dir_update_server_properties|]. intros _.
  apply keeps_dir_bind; [by intros w|]. intros b.
  apply keeps_dir_bind; [by apply keeps_dir_when, keeps_dir_remove|]. intros _.
  by apply keeps_dir_rename.
Qed.

Lemma copy_special_in_place local : copy_special local local = ret tt.
Proof. unfold copy_special. by rewrite bool_decide_false by (by intros []). Qed.

(** An update in place is the steps 1, 3 and 5. *)
Lemma update_server_in_place local latest target :
  target = None ∨ target = Some local →
  update_server local latest target =
    bind (makedirs local) (λ _,
    bind (copy_release latest local) (λ _,
    bind (merge_properties local latest local) (λ _, rmtree latest))).
Proof.
  intros [-> | ->]; unfold update_server; simpl;
    rewrite copy_special_in_place;
    by rewrite bool_decide_false by (by intros []).
Qed.

Lemma special_not_sibling f p :
  p ∈ SPECIAL_PATHS → f ∉ SPECIAL_PATHS → f ≠ p.
Proof. intros Hp Hf ->. done. Qed.

(** An update in place leaves alone whatever is apart from the release
    directory, from the entries of the release that are not special, and
    from the two names of the properties file. *)
Lemma frames_update_server_in_place q local latest target :
  target = None ∨ target = Some local →
  is_prefix q local = false →
  (∀ f, f ∉ SPECIAL_PATHS → overlap (join local f) q = false) →
  overlap (join local "server.properties.temp") q = false →
  overlap (join local "server.properties") q = false →
  overlap latest q = false →
  frames q (update_server local latest target).
Proof.
  intros Ht Hq Hf Htemp Hprop Hlatest w.
  rewrite (update_server_in_place _ _ _ Ht). revert w.
  apply frames_bind; [by apply frames_makedirs|]. intros _.
  apply frames_bind; [by apply frames_copy_release|]. intros _.
  apply frames_bind; [by apply frames_merge_properties|]. intros _.
  by apply frames_rmtree.
Qed.

(** ** C9: the old server directory is removed only on a relocation *)

Lemma makedirs_Ok_is_dir p w w' : makedirs p w = (Ok tt, w') → is_dir p w'.
Proof.
  unfold makedirs. destruct (mkdirs p (root w)) as [r|] eqn:E; [|done].
  intros [= <-]. unfold is_dir, stat. simpl.
  eapply mkdirs_prefix_dir; [done|apply is_prefix_refl].
Qed.

Lemma overlap_nil_r p : overlap p [] = true.
Proof. by destruct p. Qed.

Lemma overlap_false_not_prefix p q : overlap p q = false → is_prefix p q = false.
Proof.
  intros H. destruct (is_prefix p q) eqn:E; [|done].
  apply is_prefix_overlap in E. congruence.
Qed.

(** C9.  With the release directory apart from the server directory:
    an update without a target directory is the update whose target is the
    server directory; such an update in place never takes the server
    directory away, whatever its outcome, and leaves it in place when it
    succeeds; an update to a different target directory that succeeds has
    removed the server directory. *)
Theorem update_server_removes_old_only_when_relocated local latest :
  overlap local latest = false →
  update_server local latest None = update_server local latest (Some local) ∧
  (∀ w, is_dir local w → is_dir local (update_server local latest None w).2) ∧
  (∀ w w', update_server local latest None w = (Ok tt, w') → is_dir local w') ∧
  (∀ target w w', target ≠ local →
     update_server local latest (Some target) w = (Ok tt, w') →
     stat local w' = None).
Proof.
  intros Hov.
  assert (is_prefix latest local = false) as Hll.
  { apply overlap_false_not_prefix. by rewrite overlap_sym. }
  assert (keeps_dir local
    (bind (copy_release latest local) (λ _,
     bind (merge_properties local latest local) (λ _, rmtree latest))))
    as Hrest.
  { apply keeps_dir_bind; [apply keeps_dir_copy_release; by right|]. intros _.
    apply keeps_dir_bind; [apply keeps_dir_merge_properties; by right|]. intros _.
    by apply keeps_dir_rmtree. }
  split; [done|]. split; [|split].
  - intros w. rewrite (update_server_in_place local latest None) by by left.
    revert w. apply keeps_dir_bind; [apply keeps_dir_makedirs|]. by intros _.
  - intros w w'. rewrite (update_server_in_place local latest None) by by left.
    intros (a & w1 & Hmk & Hrun)%bind_Ok_inv. destruct a.
    apply makedirs_Ok_is_dir in Hmk.
    specialize (Hrest w1 Hmk). by rewrite Hrun in Hrest.
  - intros target w w' Hne. unfold update_server. simpl.
    rewrite bool_decide_true by done.
    intros ([] & w1 & _ & H)%bind_Ok_inv.
    apply bind_Ok_inv in H as ([] & w2 & _ & H).
    apply bind_Ok_inv in H as ([] & w3 & _ & H).
    apply bind_Ok_inv in H as ([] & w4 & _ & H).
    apply bind_Ok_inv in H as ([] & w5 & Hrm & H).
    unfold when, rmtree in Hrm.
    destruct (stat local w4) as [[|es]|] eqn:Hl; try done.
    injection Hrm as <-.
    assert (stat latest (put local None w4) ≠ None) as _.
    { unfold rmtree in H. by destruct (stat latest _). }
    pose proof (frames_rmtree local latest) as Hfr.
    rewrite overlap_sym in Hov. specialize (Hfr Hov (put local None w4)).
    rewrite H in Hfr. simpl in Hfr. rewrite Hfr.
    apply stat_put_eq.
    destruct local as [|x l]; [by rewrite overlap_nil_r in Hov|].
    by eapply write_path_stat.
Qed.

(** C9, at an instance: the example server and release. *)
Lemma update_server_removes_old_only_when_relocated_witness :
  overlap ["server"] ["release"] = false ∧
  update_server ["server"] ["release"] None
    = update_server ["server"] ["release"] (Some ["server"]) ∧
  is_dir ["server"] (update_server ["server"] ["release"] None example_merge_world).2.
Proof.
  destruct (update_server_removes_old_only_when_relocated
              ["server"] ["release"] eq_refl) as (H1 & H2 & _).
  split; [done|]. split; [done|]. apply H2. by eexists.
Defined.

(** ** Reading back what [update_server_properties] wrote *)

Lemma read_dict_clean_values lines d d' :
  read_dict lines d = Ok d' → clean_values d → clean_values d'.
Proof.
  revert d. induction lines as [|l lines IH]; intros d; simpl.
  - by intros [= <-].
  - destruct (is_key_line l); [|apply IH].
    destruct (split_key_value l) as [[k v]|e] eqn:E; [|done].
    intros Hr Hd. apply (IH _ Hr). intros k' v'.
    rewrite lookup_insert. case_decide; [|apply Hd]. intros [= <-].
    split; [apply strip_idemp|]. apply contains_strip.
    apply split_key_value_inv in E.
    apply (split_pieces_no_sep "=" l). rewrite E. right. left.
Qed.

Lemma clean_values_empty : clean_values ∅.
Proof. intros k v. by rewrite lookup_empty. Qed.

Lemma resolved_value_clean sd td k :
  clean_values sd → clean_values td → clean (resolved_value sd td k).
Proof.
  intros Hs Ht. unfold resolved_value.
  destruct (sd !! k) as [sv|] eqn:Es; simpl; [by eapply Hs|].
  destruct (td !! k) as [tv|] eqn:Et; simpl; [by eapply Ht|]. done.
Qed.

Lemma resolved_line_eq sd td line :
  resolved_line sd td line =
    key_of_line line +:+ "=" +:+ resolved_value sd td (key_of_line line)
      +:+ Str.newline.
Proof. done. Qed.

Lemma append_assoc (a b c : string) : (a +:+ b) +:+ c = a +:+ b +:+ c.
Proof. induction a as [|x a IH]; [done|]. by rewrite !append_cons, IH. Qed.

(** A rendered line is a key line unless its key begins with the comment
    mark. *)
Lemma is_key_line_render k rest :
  clean k → is_key_line (k +:+ "=" +:+ rest) = negb (Str.startswith "#" k).
Proof.
  intros [Hs Hc]. unfold is_key_line.
  assert (String.eqb (k +:+ "=" +:+ rest) Str.newline = false) as ->.
  { apply String.eqb_neq. intros Heq.
    assert (Str.contains "=" (k +:+ "=" +:+ rest) = true) as Hin.
    { rewrite contains_app. apply orb_true_iff. right. done. }
    by rewrite Heq in Hin. }
  rewrite andb_true_r. destruct k as [|a k]; [done|].
  by rewrite startswith_hash_app.
Qed.

Lemma split_key_value_render k v :
  clean k → clean v →
  split_key_value (k +:+ "=" +:+ v +:+ Str.newline) = Ok (k, v +:+ Str.newline).
Proof.
  intros [_ Hk] [_ Hv]. unfold split_key_value.
  change ("=" +:+ v +:+ Str.newline) with (String "=" (v +:+ Str.newline)).
  rewrite split_app_sep by done.
  rewrite split_no_sep; [done|].
  rewrite contains_app, Hv. done.
Qed.

Lemma live_key_cons_other l lines k :
  (is_key_line l = true → key_of_line l = k → Str.startswith "#" k = true) →
  live_key (l :: lines) k → live_key lines k.
Proof.
  intros Hl (l' & [->|Hin]%elem_of_cons & Hk & Hkey & Hh).
  - rewrite Hl in Hh; done.
  - by exists l'.
Qed.

(** Reading the resolved document back: it is read without error, and
    every key of a key line that does not begin with the comment mark has
    its resolved value. *)
Lemma read_resolved_lines sd td tl d :
  clean_values sd → clean_values td →
  ∃ d', read_dict (resolved_lines sd td tl) d = Ok d' ∧
    ∀ k, live_key tl k ∨ d !! k = Some (resolved_value sd td k) →
         d' !! k = Some (resolved_value sd td k).
Proof.
  intros Hs Ht. revert d. induction tl as [|l tl IH]; intros d.
  - exists d. split; [done|]. intros k [(l & Hl & _)|Hk]; [|done].
    by apply elem_of_nil in Hl.
  - unfold resolved_lines. rewrite fmap_cons. fold (resolved_lines sd td tl).
    cbn [read_dict].
    destruct (is_key_line l) eqn:Hkl.
    + rewrite resolved_line_eq.
      rewrite is_key_line_render by apply key_of_line_clean.
      destruct (Str.startswith "#" (key_of_line l)) eqn:Hh; simpl.
      * destruct (IH d) as (d' & Hr & Hd'). exists d'. split; [done|].
        intros k [Hlive|Hk]; apply Hd'; [left|by right].
        eapply live_key_cons_other; [|done]. by intros _ <-.
      * rewrite split_key_value_render
          by auto using key_of_line_clean, resolved_value_clean.
        destruct (key_of_line_clean l) as [-> _].
        rewrite strip_clean_newline
          by apply (resolved_value_clean sd td _ Hs Ht).
        destruct (IH (<[key_of_line l := resolved_value sd td (key_of_line l)]> d))
          as (d' & Hr & Hd').
        exists d'. split; [done|]. intros k Hk. apply Hd'.
        destruct (decide (key_of_line l = k)) as [<-|Hne].
        { right. by rewrite lookup_insert_eq. }
        rewrite lookup_insert_ne by done.
        destruct Hk as [Hlive|Hk]; [left|by right].
        eapply live_key_cons_other; [|done]. by intros _ ?.
    + rewrite Hkl. destruct (IH d) as (d' & Hr & Hd'). exists d'.
      split; [done|]. intros k [Hlive|Hk]; apply Hd'; [left|by right].
      eapply live_key_cons_other; [|done]. congruence.
Qed.

(** Two documents that differ only in lines that are not key lines are
    read alike. *)
Lemma read_dict_same_key_lines la lb d :
  Forall2 (λ a b, a = b ∨ (is_key_line a = false ∧ is_key_line b = false)) la lb →
  read_dict la d = read_dict lb d.
Proof.
  intros H. revert d. induction H as [|a b la lb Hab _ IH]; intros d; [done|].
  simpl. destruct Hab as [->|[-> ->]]; [|apply IH].
  destruct (is_key_line b); [|apply IH].
  destruct (split_key_value b) as [[k v]|e]; [apply IH|done].
Qed.

(** A second reconciliation of the same target document, with the output
    of the first as its source, yields a document with the same settings. *)
Lemma read_resolved_twice sd td tl d1 :
  clean_values sd → clean_values td →
  read_dict (resolved_lines sd td tl) ∅ = Ok d1 →
  read_dict (resolved_lines d1 td tl) ∅ = Ok d1.
Proof.
  intros Hs Ht Hd1. rewrite <-Hd1.
  destruct (read_resolved_lines sd td tl ∅ Hs Ht) as (d1' & Hr & Hlive).
  assert (d1' = d1) as -> by congruence.
  apply read_dict_same_key_lines. unfold resolved_lines.
  apply Forall2_fmap, Forall_Forall2_diag, Forall_forall.
  intros l Hl. destruct (is_key_line l) eqn:Hkl; [|by left].
  rewrite !resolved_line_eq.
  destruct (Str.startswith "#" (key_of_line l)) eqn:Hh.
  - right. rewrite !is_key_line_render by apply key_of_line_clean.
    by rewrite Hh.
  - left. do 3 f_equal. unfold resolved_value at 1.
    rewrite (Hlive (key_of_line l)); [done|]. left. by exists l.
Qed.

(** ** [update_server]: what the steps write *)

Lemma lookup_path_join d x n :
  lookup_path (join d x) n =
    match lookup_path d n with
    | Some (Dir es) => dir_lookup x es
    | _ => None
    end.
Proof.
  unfold join. revert n. induction d as [|y d IH]; intros n; simpl.
  - destruct n as [|es]; [done|]. by destruct (dir_lookup x es).
  - destruct n as [|es]; [done|].
    destruct (dir_lookup y es) as [c|]; simpl; [apply IH|done].
Qed.

Lemma stat_join d x w es :
  stat d w = Some (Dir es) → stat (join d x) w = dir_lookup x es.
Proof. unfold stat. intros H. by rewrite lookup_path_join, H. Qed.

Lemma for_each_preserves {X} (l : list X) body (Q : world → Prop) w :
  (∀ y w, Q w → Q (body y w).2) → Q w → Q (for_each l body w).2.
Proof.
  intros HQ. revert w. induction l as [|y l IH]; intros w Hw; [done|].
  simpl. unfold bind. specialize (HQ y w Hw).
  destruct (body y w) as [[[]|e] w1]; simpl in *; auto.
Qed.

Lemma for_each_establish {X} (l : list X) body (P Q : world → Prop) x w w' :
  (∀ y w, P w → P (body y w).2) →
  (∀ y w, Q w → Q (body y w).2) →
  (∀ w wb, P w → body x w = (Ok tt, wb) → Q wb) →
  x ∈ l → P w → for_each l body w = (Ok tt, w') → Q w'.
Proof.
  intros HP HQ HPQ. revert w. induction l as [|y l IH]; intros w Hx Hw.
  { by apply elem_of_nil in Hx. }
  simpl. intros ([] & w1 & Hy & Hrest)%bind_Ok_inv.
  apply elem_of_cons in Hx as [->|Hx].
  - pose proof (for_each_preserves l body Q w1 HQ (HPQ _ _ Hw Hy)) as H.
    by rewrite Hrest in H.
  - apply (IH w1); [done| |done]. specialize (HP y w Hw). by rewrite Hy in HP.
Qed.

(** The outcome of [copy2] onto a path where no directory is. *)
Lemma copy2_onto_file src dst w c r w1 :
  stat src w = Some (File c) → (∀ es, stat dst w ≠ Some (Dir es)) →
  copy2 src dst w = (r, w1) →
  (r = Ok tt ∧ stat dst w1 = Some (File c)) ∨ (r ≠ Ok tt ∧ w1 = w).
Proof.
  intros Hs Hd. unfold copy2. rewrite Hs.
  assert (match stat dst w with
          | Some (Dir _) => join dst (basename src)
          | _ => dst
          end = dst) as ->.
  { destruct (stat dst w) as [[|es]|]; try done. by destruct (Hd es). }
  case_decide; [intros [= <- <-]; by right|].
  destruct (stat dst w) as [[|es]|] eqn:E; try (by destruct (Hd es));
    (destruct (write_path dst (Some (File c)) (root w)) as [n|] eqn:Ew;
     [intros [= <- <-]; left; split; [done|];
      unfold stat; simpl; by apply lookup_write_eq in Ew
     |intros [= <- <-]; by right]).
Qed.

Lemma copy2_Ok_inv src dst w w1 :
  copy2 src dst w = (Ok tt, w1) →
  ∃ c, stat src w = Some (File c) ∧
       (stat dst w1 = Some (File c) ∨ is_dir dst w1).
Proof.
  intros Hrun. pose proof Hrun as Hrun'. unfold copy2 in Hrun.
  destruct (stat src w) as [[c|]|] eqn:Hs; try done. exists c. split; [done|].
  destruct (stat dst w) as [[ls|es]|] eqn:Hd.
  - left. destruct (copy2_onto_file _ _ _ _ _ _ Hs ltac:(by rewrite Hd) Hrun')
      as [[_ ?]|[? _]]; done.
  - right. case_decide; [done|].
    destruct (stat (join dst (basename src)) w) as [[|]|];
      destruct (write_path (join dst (basename src)) (Some (File c)) (root w))
        as [n|] eqn:Ew; try done;
      injection Hrun as <-; unfold is_dir, stat; simpl;
      eapply (lookup_write_above dst _ []); apply Ew.
  - left. destruct (copy2_onto_file _ _ _ _ _ _ Hs ltac:(by rewrite Hd) Hrun')
      as [[_ ?]|[? _]]; done.
Qed.

Lemma copy_file_entry src dst w c r w1 :
  stat src w = Some (File c) → (∀ es, stat dst w ≠ Some (Dir es)) →
  copy_entry src dst w = (r, w1) →
  (r = Ok tt ∧ stat dst w1 = Some (File c)) ∨ (r ≠ Ok tt ∧ w1 = w).
Proof.
  intros Hs Hd. unfold copy_entry, bind, isfile. rewrite Hs.
  by apply copy2_onto_file.
Qed.

(** Step 1 leaves a copy of every regular file of the release that is not
    special, unless a directory of that name is in the way. *)
Lemma copy_release_overwrites latest target w w' f c :
  overlap target latest = false →
  copy_release latest target w = (Ok tt, w') →
  f ∉ SPECIAL_PATHS → stat (join latest f) w = Some (File c) →
  (∀ es, stat (join target f) w ≠ Some (Dir es)) →
  stat (join target f) w' = Some (File c).
Proof.
  intros Hov Hrun Hf Hsrc Hdst. unfold copy_release in Hrun.
  apply bind_Ok_inv in Hrun as (names & w0 & Hls & Hrun).
  unfold listdir in Hls. destruct (stat latest w) as [[|es]|] eqn:Hl; try done.
  injection Hls as <- <-.
  assert (f ∈ es.*1) as Hin.
  { rewrite (stat_join _ _ _ _ Hl) in Hsrc.
    destruct (decide (f ∈ es.*1)) as [|Hn]; [done|].
    apply dir_lookup_None in Hn. congruence. }
  set (body := λ filename : string,
    when (bool_decide (filename ∉ SPECIAL_PATHS))
      (copy_entry (join latest filename) (join target filename))) in Hrun.
  set (Q := λ w : world, stat (join latest f) w = Some (File c) ∧
                         stat (join target f) w = Some (File c)).
  set (P := λ w : world, stat (join latest f) w = Some (File c) ∧
                         ∀ es, stat (join target f) w ≠ Some (Dir es)).
  assert (∀ y, frames (join latest f) (body y)) as Hsrc_kept.
  { intros y. apply frames_when, frames_copy_entry. by apply overlap_app. }
  assert (∀ y w r w1, P w → body y w = (r, w1) →
            P w1 ∧ (y = f → r = Ok tt → Q w1)) as Hstep.
  { intros y v r v1 [Hv1 Hv2] Hy.
    assert (stat (join latest f) v1 = Some (File c)) as Hv1'.
    { pose proof (Hsrc_kept y v) as H. rewrite Hy in H. simpl in H.
      by rewrite H. }
    destruct (decide (y = f)) as [->|Hne].
    - unfold body in Hy. rewrite bool_decide_true in Hy by done. simpl in Hy.
      destruct (copy_file_entry _ _ _ _ _ _ Hv1 Hv2 Hy) as [[-> Hd]|[Hr ->]].
      + split; [|done]. split; [done|]. intros es'. by rewrite Hd.
      + split; [by split|]. done.
    - split; [|done]. split; [done|]. intros es'.
      assert (frames (join target f) (body y)) as Hfr.
      { apply frames_when, frames_copy_entry. by apply overlap_join_ne. }
      specialize (Hfr v). rewrite Hy in Hfr. simpl in Hfr. rewrite Hfr.
      apply Hv2. }
  assert (∀ w, Q w → P w) as HQP.
  { intros v [H1 H2]. split; [done|]. intros es'. by rewrite H2. }
  apply (for_each_establish (sorted_names es.*1) body P Q f w w'); try done.
  - intros y v Hv. destruct (body y v) as [r v1] eqn:Hy.
    by apply (Hstep y v r v1).
  - intros y v Hv. destruct (body y v) as [r v1] eqn:Hy. simpl.
    destruct (Hstep y v r v1 (HQP _ Hv) Hy) as [[Hp1 Hp2] Hq].
    split; [done|].
    destruct (decide (y = f)) as [->|Hne].
    + unfold body in Hy. rewrite bool_decide_true in Hy by done. simpl in Hy.
      destruct Hv as [Hv1 Hv2].
      destruct (copy_file_entry _ _ _ _ _ _ Hv1 ltac:(by intros; rewrite Hv2) Hy)
        as [[_ Hd]|[_ ->]]; done.
    + assert (frames (join target f) (body y)) as Hfr.
      { apply frames_when, frames_copy_entry. by apply overlap_join_ne. }
      specialize (Hfr v). rewrite Hy in Hfr. simpl in Hfr. rewrite Hfr.
      apply Hv.
  - intros v vb Hv Hy. by apply (Hstep f v (Ok tt) vb).
  - by apply elem_of_sorted_names.
Qed.

Lemma update_server_properties_Ok_inv src tgt w w' :
  update_server_properties src tgt w = (Ok tt, w') →
  ∃ sl tl sd td,
    stat src w = Some (File sl) ∧ stat tgt w = Some (File tl) ∧
    read_dict sl ∅ = Ok sd ∧ read_dict tl ∅ = Ok td ∧
    w' = put tgt (Some (File (resolved_lines sd td tl))) w.
Proof.
  destruct (stat src w) as [[sl|]|] eqn:Hs;
    [|by unfold update_server_properties, bind, readlines; rewrite Hs..].
  destruct (stat tgt w) as [[tl|]|] eqn:Ht.
  - rewrite (update_server_properties_run _ _ _ _ _ Hs Ht).
    destruct (read_dict sl ∅) as [sd|] eqn:Hsd; [|done].
    destruct (read_dict tl ∅) as [td|] eqn:Htd; [|done].
    intros [= <-]. by exists sl, tl, sd, td.
  - unfold update_server_properties, bind, readlines, lift. rewrite Hs.
    destruct (read_dict sl ∅); [|done]. by rewrite Ht.
  - unfold update_server_properties, bind, readlines, lift. rewrite Hs.
    destruct (read_dict sl ∅); [|done]. by rewrite Ht.
Qed.

Lemma rename_file_fresh src dst w c :
  stat src w = Some (File c) → stat dst w = None → src ≠ dst →
  is_Some (write_path dst (Some (File c)) (root w)) →
  rename src dst w = (Ok tt, put src None (put dst (Some (File c)) w)).
Proof.
  intros Hs Hd Hne [r Hr]. unfold rename, put.
  rewrite Hs, Hd, Hr. by rewrite decide_False.
Qed.

(** Step 3 in place: on success the properties file holds the release's
    document with the values resolved against the old file; on failure
    the old file is as it was. *)
Lemma merge_properties_in_place local latest w r w' :
  overlap local latest = false →
  merge_properties local latest local w = (r, w') →
  (r = Ok tt →
     ∃ sl tl sd td,
       stat (join local "server.properties") w = Some (File sl) ∧
       stat (join latest "server.properties") w = Some (File tl) ∧
       read_dict sl ∅ = Ok sd ∧ read_dict tl ∅ = Ok td ∧
       stat (join local "server.properties") w'
         = Some (File (resolved_lines sd td tl))) ∧
  (r ≠ Ok tt →
     stat (join local "server.properties") w'
       = stat (join local "server.properties") w).
Proof.
  intros Hov Hrun.
  set (sp := join local "server.properties") in *.
  set (lsp := join latest "server.properties") in *.
  assert (overlap (join local "server.properties.temp") sp = false) as Hts
    by by apply overlap_join_ne.
  unfold merge_properties in Hrun. fold sp lsp in Hrun.
  set (temp := join local "server.properties.temp") in *.
  apply bind_inv in Hrun as [([] & w1 & Hc & Hrun)|(e & Hc & ->)].
  2:{ split; [done|]. intros _.
      pose proof (frames_copy2 sp lsp temp Hts w) as H. by rewrite Hc in H. }
  assert (stat sp w1 = stat sp w) as Hsp1.
  { pose proof (frames_copy2 sp lsp temp Hts w) as H. by rewrite Hc in H. }
  apply bind_inv in Hrun as [([] & w2 & Hu & Hrun)|(e & Hu & ->)].
  2:{ split; [done|]. intros _.
      pose proof (frames_update_server_properties sp sp temp Hts w1) as H.
      rewrite Hu in H. simpl in H. by rewrite H. }
  apply update_server_properties_Ok_inv in Hu
    as (sl & tl & sd & td & Hsl & Htl & Hsd & Htd & ->).
  apply copy2_Ok_inv in Hc as (c & Hlsp & [Hc|[es Hes]]); [|congruence].
  assert (c = tl) as -> by congruence.
  set (out := resolved_lines sd td tl) in *.
  set (w2 := put temp (Some (File out)) w1) in *.
  assert (stat temp w2 = Some (File out)) as Htemp2.
  { apply stat_put_eq. by eapply can_write. }
  assert (stat sp w2 = Some (File sl)) as Hsp2.
  { unfold w2. by rewrite stat_put_apart. }
  unfold bind at 1, exists_ in Hrun. rewrite Hsp2 in Hrun.
  rewrite bool_decide_true in Hrun by eauto. cbn [when] in Hrun.
  unfold bind at 1 in Hrun. rewrite (remove_file _ _ _ Hsp2) in Hrun.
  set (w3 := put sp None w2) in *.
  assert (is_dir local w2) as Hdir2 by by eapply is_dir_parent.
  assert (stat sp w3 = None) as Hsp3 by by apply stat_put_join.
  assert (stat temp w3 = Some (File out)) as Htemp3.
  { unfold w3. rewrite stat_put_apart; [done|]. by rewrite overlap_sym. }
  assert (is_dir local w3) as Hdir3 by by eapply is_dir_parent.
  assert (temp ≠ sp) as Hne by (by intros ?%join_inj).
  assert (is_Some (write_path sp (Some (File out)) (root w3))) as Hwr.
  { destruct Hdir3 as [es Hes]. by eapply write_path_in_dir. }
  rewrite (rename_file_fresh temp sp w3 out Htemp3 Hsp3 Hne Hwr) in Hrun.
  injection Hrun as <- <-. split; [|done]. intros _.
  exists sl, tl, sd, td. rewrite <-Hsp1.
  split; [done|]. split; [done|]. split; [done|]. split; [done|].
  rewrite stat_put_apart by done. by apply stat_put_join.
Qed.

Lemma overlap_local_entry_latest local latest x y :
  overlap local latest = false → overlap (join local x) (join latest y) = false.
Proof. intros H. by apply overlap_app. Qed.

Lemma is_prefix_latest_entry local latest x :
  overlap local latest = false → is_prefix (join latest x) local = false.
Proof.
  intros H. apply overlap_false_not_prefix, overlap_join_l.
  by rewrite overlap_sym.
Qed.

Lemma not_special_not_properties f : f ∉ SPECIAL_PATHS → f ≠ "server.properties".
Proof. intros Hf ->. apply Hf. unfold SPECIAL_PATHS. set_solver. Qed.

(** An update in place: on success the properties file holds the release's
    document resolved against the old file; on failure the old file is as
    it was. *)
Lemma update_server_in_place_run local latest w r w' :
  overlap local latest = false →
  update_server local latest None w = (r, w') →
  (r = Ok tt →
     ∃ sl tl sd td,
       stat (join local "server.properties") w = Some (File sl) ∧
       stat (join latest "server.properties") w = Some (File tl) ∧
       read_dict sl ∅ = Ok sd ∧ read_dict tl ∅ = Ok td ∧
       stat (join local "server.properties") w'
         = Some (File (resolved_lines sd td tl))) ∧
  (r ≠ Ok tt →
     stat (join local "server.properties") w'
       = stat (join local "server.properties") w).
Proof.
  intros Hov. rewrite (update_server_in_place local latest None) by by left.
  set (sp := join local "server.properties").
  set (lsp := join latest "server.properties").
  assert (frames sp (makedirs local)) as Hf1
    by apply frames_makedirs, is_prefix_join.
  assert (frames lsp (makedirs local)) as Hf1'
    by by apply frames_makedirs, is_prefix_latest_entry.
  assert (frames sp (copy_release latest local)) as Hf2.
  { apply frames_copy_release. intros f Hf.
    by apply overlap_join_ne, not_special_not_properties. }
  assert (frames lsp (copy_release latest local)) as Hf2'.
  { apply frames_copy_release. intros f Hf.
    by apply overlap_local_entry_latest. }
  intros Hrun.
  apply bind_inv in Hrun as [([] & w1 & Hm & Hrun)|(e & Hm & ->)].
  2:{ split; [done|]. intros _. specialize (Hf1 w). by rewrite Hm in Hf1. }
  specialize (Hf1 w). rewrite Hm in Hf1. simpl in Hf1.
  specialize (Hf1' w). rewrite Hm in Hf1'. simpl in Hf1'.
  apply bind_inv in Hrun as [([] & w2 & Hc & Hrun)|(e & Hc & ->)].
  2:{ split; [done|]. intros _. specialize (Hf2 w1). rewrite Hc in Hf2.
      simpl in Hf2. congruence. }
  specialize (Hf2 w1). rewrite Hc in Hf2. simpl in Hf2.
  specialize (Hf2' w1). rewrite Hc in Hf2'. simpl in Hf2'.
  apply bind_inv in Hrun as [([] & w3 & Hp & Hrun)|(e & Hp & ->)].
  2:{ split; [done|]. intros _.
      destruct (merge_properties_in_place _ _ _ _ _ Hov Hp) as [_ H].
      fold sp in H. rewrite H by done. congruence. }
  destruct (merge_properties_in_place _ _ _ _ _ Hov Hp) as [H _].
  destruct (H eq_refl) as (sl & tl & sd & td & Hsl & Htl & Hsd & Htd & Hout).
  fold sp lsp in Hsl, Htl, Hout.
  assert (is_dir latest w3) as [es Hes].
  { pose proof (keeps_dir_merge_properties latest local latest local) as Hk.
    specialize (Hk (or_introl (overlap_false_not_prefix _ _ Hov)) w2).
    rewrite Hp in Hk. apply Hk. by eapply is_dir_parent. }
  unfold rmtree in Hrun. rewrite Hes in Hrun. injection Hrun as <- <-.
  split; [|done]. intros _. exists sl, tl, sd, td.
  split; [congruence|]. split; [congruence|]. split; [done|]. split; [done|].
  rewrite stat_put_apart; [done|].
  rewrite overlap_sym. by apply overlap_join_l.
Qed.

(** An update in place that succeeds leaves the release's copy of every
    regular file that is not special. *)
Lemma update_server_in_place_overwrites local latest w w' f c :
  overlap local latest = false →
  update_server local latest None w = (Ok tt, w') →
  f ∉ SPECIAL_PATHS → f ≠ "server.properties.temp" →
  stat (join latest f) w = Some (File c) →
  (∀ es, stat (join local f) w ≠ Some (Dir es)) →
  stat (join local f) w' = Some (File c).
Proof.
  intros Hov Hrun Hf Htemp Hsrc Hdst.
  rewrite (update_server_in_place local latest None) in Hrun by by left.
  apply bind_Ok_inv in Hrun as ([] & w1 & Hm & Hrun).
  apply bind_Ok_inv in Hrun as ([] & w2 & Hc & Hrun).
  apply bind_Ok_inv in Hrun as ([] & w3 & Hp & Hrun).
  assert (stat (join latest f) w1 = Some (File c)) as Hsrc1.
  { pose proof (frames_makedirs (join latest f) local
      (is_prefix_latest_entry _ _ _ Hov) w) as H.
    rewrite Hm in H. simpl in H. congruence. }
  assert (∀ es, stat (join local f) w1 ≠ Some (Dir es)) as Hdst1.
  { intros es.
    pose proof (frames_makedirs (join local f) local (is_prefix_join _ _) w) as H.
    rewrite Hm in H. simpl in H. rewrite H. apply Hdst. }
  assert (overlap latest local = false) as Hov' by by rewrite overlap_sym.
  pose proof (copy_release_overwrites latest local w1 w2 f c Hov Hc Hf Hsrc1 Hdst1)
    as H2.
  assert (stat (join local f) w3 = Some (File c)) as H3.
  { pose proof (frames_merge_properties (join local f) local latest local) as H.
    rewrite <-H2. specialize (H ltac:(by apply overlap_join_ne)
      ltac:(by apply overlap_join_ne, not_eq_sym, not_special_not_properties) w2).
    by rewrite Hp in H. }
  pose proof (frames_rmtree (join local f) latest
    ltac:(by apply overlap_join_r) w3) as H.
  rewrite Hrun in H. simpl in H. congruence.
Qed.

(** ** [copytree]: the files of the tree copied *)

Lemma copy_entries_cons x child es ds err :
  copy_entries ((x, child) :: es) ds err =
    copy_entries es
      (dir_set x (copy_node x child (dir_lookup x ds)).1 ds)
      (err || (copy_node x child (dir_lookup x ds)).2).
Proof.
  unfold copy_entries. cbn [fold_left fst snd].
  by destruct (copy_node x child (dir_lookup x ds)).
Qed.

Lemma copy_node_dir name es dst :
  copy_node name (Dir es) dst =
    match dst with
    | Some (File c') => (File c', true)
    | _ =>
        let '(ds', err) :=
          copy_entries es (match dst with Some (Dir ds) => ds | _ => [] end)
            false in
        (Dir ds', err)
    end.
Proof.
  assert (∀ (f : list (string * node) → list (string * node) → bool
                 → list (string * node) * bool),
            (∀ ds err, f [] ds err = (ds, err)) →
            (∀ x child es ds err,
               f ((x, child) :: es) ds err =
                 let '(c', e) := copy_node x child (dir_lookup x ds) in
                 f es (dir_set x c' ds) (err || e)) →
            ∀ es ds err, f es ds err = copy_entries es ds err) as Hgo.
  { intros f Hnil Hcons es'. induction es' as [|[x child] es' IH];
      intros ds err; [by rewrite Hnil|].
    rewrite Hcons, copy_entries_cons.
    destruct (copy_node x child (dir_lookup x ds)) as [c' e]. apply IH. }
  destruct dst as [[c|ds]|]; [done| |].
  - cbn [copy_node].
    match goal with
    | |- context [?f es ds false] => rewrite (Hgo f); [done|done|]
    end.
    by intros x child es' ds' err.
  - cbn [copy_node].
    match goal with
    | |- context [?f es [] false] => rewrite (Hgo f); [done|done|]
    end.
    by intros x child es' ds' err.
Qed.

Lemma copy_entries_err es ds : (copy_entries es ds true).2 = true.
Proof.
  revert ds. induction es as [|[x child] es IH]; intros ds; [done|].
  rewrite copy_entries_cons. apply IH.
Qed.

Lemma copy_entries_other x es ds err :
  x ∉ es.*1 → dir_lookup x (copy_entries es ds err).1 = dir_lookup x ds.
Proof.
  revert ds err. induction es as [|[y child] es IH]; intros ds err Hx; [done|].
  rewrite fmap_cons in Hx. apply not_elem_of_cons in Hx as [Hne Hx].
  rewrite copy_entries_cons, IH by done.
  rewrite dir_lookup_set. by rewrite decide_False by done.
Qed.

Lemma copy_entries_lookup x child es ds err ds' :
  NoDup es.*1 → dir_lookup x es = Some child →
  copy_entries es ds err = (ds', false) →
  ∃ c', copy_node x child (dir_lookup x ds) = (c', false) ∧
        dir_lookup x ds' = Some c'.
Proof.
  revert ds err. induction es as [|[y c] es IH]; intros ds err Hnd Hx; [done|].
  rewrite fmap_cons in Hnd. apply NoDup_cons in Hnd as [Hy Hnd].
  rewrite copy_entries_cons. cbn [dir_lookup] in Hx.
  destruct (copy_node y c (dir_lookup y ds)) as [c' e] eqn:Hcopy. cbn [fst snd].
  intros Hrun.
  assert (err || e = false) as Herr.
  { destruct (err || e) eqn:E; [|done].
    pose proof (copy_entries_err es (dir_set y c' ds)) as Ht.
    rewrite Hrun in Ht. done. }
  apply orb_false_iff in Herr as [-> ->]. cbn [orb] in Hrun.
  destruct (decide (x = y)) as [->|Hne].
  - injection Hx as <-. exists c'. split; [done|].
    pose proof (copy_entries_other y es (dir_set y c' ds) false Hy) as Hl.
    rewrite Hrun in Hl. simpl in Hl. rewrite Hl, dir_lookup_set.
    by rewrite decide_True.
  - destruct (IH (dir_set y c' ds) false Hnd Hx Hrun) as (c'' & Hc & Hl).
    exists c''. split; [|done].
    rewrite dir_lookup_set, decide_False in Hc by done. done.
Qed.

Lemma lookup_path_app p q n :
  lookup_path (p ++ q) n = lookup_path p n ≫= lookup_path q.
Proof.
  revert n. induction p as [|x p IH]; intros n; simpl; [done|].
  destruct n as [|es]; [done|].
  destruct (dir_lookup x es) as [c|]; simpl; [apply IH|done].
Qed.

(** A copy that reports no error has put every regular file of the
    source tree in place, provided no directory was where a file goes. *)
Lemma copy_node_files p name src dst n c :
  wf_tree src →
  copy_node name src dst = (n, false) →
  (∀ q c' d es, lookup_path q src = Some (File c') → dst = Some d →
                lookup_path q d ≠ Some (Dir es)) →
  lookup_path p src = Some (File c) →
  lookup_path p n = Some (File c).
Proof.
  revert name src dst n. induction p as [|x p IH];
    intros name src dst n Hwf Hcopy Hfree Hp.
  - simpl in Hp. injection Hp as ->. simpl in Hcopy.
    destruct dst as [[c'|ds]|]; try (by injection Hcopy as <-).
    by destruct (Hfree [] c (Dir ds) ds eq_refl eq_refl).
  - destruct src as [|es]; [done|]. simpl in Hp.
    destruct (dir_lookup x es) as [child|] eqn:Hx; [|done]. simpl in Hp.
    rewrite copy_node_dir in Hcopy.
    set (ds0 := match dst with Some (Dir ds) => ds | _ => [] end) in *.
    assert (∀ d, dir_lookup x ds0 = Some d →
                 ∃ ds, dst = Some (Dir ds) ∧ dir_lookup x ds = Some d) as Hds0.
    { intros d Hd. unfold ds0 in Hd.
      destruct dst as [[|ds]|]; try done. by exists ds. }
    assert (∃ ds', copy_entries es ds0 false = (ds', false) ∧ n = Dir ds')
      as (ds' & Hrun & ->).
    { destruct dst as [[c'|ds]|]; [done|..];
        destruct (copy_entries es ds0 false) as [ds' err];
        injection Hcopy as <- ->; by exists ds'. }
    destruct (copy_entries_lookup x child es ds0 false ds'
                (Hwf [] es eq_refl) Hx Hrun) as (c' & Hc & Hl).
    simpl. rewrite Hl. simpl.
    apply (IH x child (dir_lookup x ds0) c'); [|done| |done].
    + intros q es' Hq. apply (Hwf (x :: q) es'). simpl. by rewrite Hx.
    + intros q c'' d es' Hq Hd.
      destruct (Hds0 d Hd) as (ds & -> & Hxd).
      pose proof (Hfree (x :: q) c'' (Dir ds) es') as Hf.
      simpl in Hf. rewrite Hx, Hxd in Hf. simpl in Hf. by apply Hf.
Qed.

Lemma mkdirs_below p q n n' :
  mkdirs p n = Some n' → q ≠ [] →
  lookup_path (p ++ q) n' = lookup_path (p ++ q) n.
Proof.
  intros Hm Hq. revert n n' Hm. induction p as [|x p IH]; intros n n' Hm.
  - destruct n; simpl in Hm; by simplify_eq.
  - destruct n as [|es]; [done|]. simpl in Hm.
    destruct (mkdirs p (default (Dir []) (dir_lookup x es))) as [c'|] eqn:Hc;
      [|done].
    simpl in Hm. injection Hm as <-.
    simpl. rewrite dir_lookup_set, decide_True by done. simpl.
    rewrite (IH _ _ Hc).
    destruct (dir_lookup x es) as [d|]; [done|]. simpl.
    destruct (p ++ q) as [|y r] eqn:E; [|done].
    apply app_eq_nil in E as [_ ?]. done.
Qed.

Lemma copytree_files src dst w w1 sub :
  stat src w = Some (Dir sub) → wf_tree (Dir sub) →
  (∀ p c es, lookup_path p (Dir sub) = Some (File c) →
             stat (dst ++ p) w ≠ Some (Dir es)) →
  copytree src dst w = (Ok tt, w1) →
  ∀ p c, lookup_path p (Dir sub) = Some (File c) →
         stat (dst ++ p) w1 = Some (File c).
Proof.
  intros Hsrc Hwf Hfree Hrun p c Hp. unfold copytree in Hrun.
  rewrite Hsrc in Hrun.
  destruct (overlap src dst); [done|].
  destruct (mkdirs dst (root w)) as [r|] eqn:Hm; [|done].
  destruct (mkdirs_prefix_dir _ dst _ _ Hm (is_prefix_refl _)) as [ds Hds].
  rewrite Hds in Hrun.
  destruct (copy_node (basename src) (Dir sub) (Some (Dir ds))) as [n err]
    eqn:Hcopy.
  destruct err; [done|]. injection Hrun as <-.
  assert (lookup_path p n = Some (File c)) as Hn.
  { apply (copy_node_files p _ _ _ _ _ Hwf Hcopy); [|done].
    intros q c' d es Hq [= <-].
    assert (q ≠ []) as Hne by (by intros ->).
    pose proof (mkdirs_below dst q _ _ Hm Hne) as Hb.
    rewrite lookup_path_app, Hds in Hb. simpl in Hb. rewrite Hb.
    by apply (Hfree q c'). }
  unfold stat, put. simpl.
  assert (is_Some (write_path dst (Some n) r)) as [r' Hr'].
  { destruct dst as [|x dst']; [by eexists|].
    apply (write_path_stat (x :: dst') (Some n) (World r (fetched w)) (Dir ds));
      done. }
  rewrite Hr'. simpl. rewrite lookup_path_app.
  by rewrite (lookup_write_eq _ _ _ _ Hr').
Qed.

Lemma copy_dir_entry src dst w w1 sub :
  stat src w = Some (Dir sub) → wf_tree (Dir sub) →
  (∀ p c es, lookup_path p (Dir sub) = Some (File c) →
             stat (dst ++ p) w ≠ Some (Dir es)) →
  copy_entry src dst w = (Ok tt, w1) →
  ∀ p c, lookup_path p (Dir sub) = Some (File c) →
         stat (dst ++ p) w1 = Some (File c).
Proof.
  intros Hsrc Hwf Hfree. unfold copy_entry, bind, isfile. rewrite Hsrc.
  by apply copytree_files.
Qed.

Lemma for_each_establish_ok {X} `{!EqDecision X} (l : list X) body
    (P Q : world → Prop) x w w' :
  (∀ y w wb, y ≠ x → P w → body y w = (Ok tt, wb) → P wb) →
  (∀ y w wb, Q w → body y w = (Ok tt, wb) → Q wb) →
  (∀ w wb, P w → body x w = (Ok tt, wb) → Q wb) →
  x ∈ l → P w → for_each l body w = (Ok tt, w') → Q w'.
Proof.
  intros HP HQ HPQ.
  assert (∀ l w w', Q w → for_each l body w = (Ok tt, w') → Q w') as Hkeep.
  { intros l'. induction l' as [|y l' IH]; intros v v' Hv; simpl.
    - by intros [= <-].
    - intros ([] & v1 & Hy & Hrest)%bind_Ok_inv. eapply IH; [|done]. eauto. }
  revert w. induction l as [|y l IH]; intros w Hx Hw.
  { by apply elem_of_nil in Hx. }
  simpl. intros ([] & w1 & Hy & Hrest)%bind_Ok_inv.
  destruct (decide (y = x)) as [->|Hne].
  - eapply Hkeep; [|done]. eauto.
  - apply elem_of_cons in Hx as [->|Hx]; [done|].
    apply (IH w1); [done| |done]. eauto.
Qed.

Lemma frames_run {A} q (m : M A) w r w' :
  frames q m → m w = (r, w') → stat q w' = stat q w.
Proof. intros H Hm. specialize (H w). by rewrite Hm in H. Qed.

Lemma overlap_entry_below d y f p :
  y ≠ f → overlap (join d y) (join d f ++ p) = false.
Proof.
  intros Hne. rewrite <-(app_nil_r (join d y)).
  by apply overlap_app, overlap_join_ne.
Qed.

Lemma overlap_below p q r : overlap p q = false → overlap p (q ++ r) = false.
Proof. intros H. rewrite <-(app_nil_r p). by apply overlap_app. Qed.

Lemma is_prefix_longer p x r : is_prefix (join p x ++ r) p = false.
Proof.
  unfold join. induction p as [|y p IH]; simpl; [done|].
  by rewrite decide_True.
Qed.

(** Step 1 leaves a copy of every regular file in every directory of the
    release that is not special, at any depth, unless a directory is where
    a file goes. *)
Lemma copy_release_overwrites_tree latest target w w' f sub :
  overlap target latest = false →
  copy_release latest target w = (Ok tt, w') →
  f ∉ SPECIAL_PATHS → stat (join latest f) w = Some (Dir sub) →
  wf_tree (Dir sub) →
  (∀ p c es, lookup_path p (Dir sub) = Some (File c) →
             stat (join target f ++ p) w ≠ Some (Dir es)) →
  ∀ p c, lookup_path p (Dir sub) = Some (File c) →
         stat (join target f ++ p) w' = Some (File c).
Proof.
  intros Hov Hrun Hf Hsrc Hwf Hfree. unfold copy_release in Hrun.
  apply bind_Ok_inv in Hrun as (names & w0 & Hls & Hrun).
  unfold listdir in Hls. destruct (stat latest w) as [[|es]|] eqn:Hl; try done.
  injection Hls as <- <-.
  assert (f ∈ es.*1) as Hin.
  { rewrite (stat_join _ _ _ _ Hl) in Hsrc.
    destruct (decide (f ∈ es.*1)) as [|Hn]; [done|].
    apply dir_lookup_None in Hn. congruence. }
  set (body := λ filename : string,
    when (bool_decide (filename ∉ SPECIAL_PATHS))
      (copy_entry (join latest filename) (join target filename))) in Hrun.
  set (P := λ v : world,
    stat (join latest f) v = Some (Dir sub) ∧
    ∀ p c es, lookup_path p (Dir sub) = Some (File c) →
              stat (join target f ++ p) v ≠ Some (Dir es)).
  set (Q := λ v : world,
    stat (join latest f) v = Some (Dir sub) ∧
    ∀ p c, lookup_path p (Dir sub) = Some (File c) →
           stat (join target f ++ p) v = Some (File c)).
  assert (∀ y v vb, body y v = (Ok tt, vb) →
            stat (join latest f) vb = stat (join latest f) v) as Hsrc_kept.
  { intros y v vb Hy. apply (frames_run _ (body y) v (Ok tt)); [|done].
    apply frames_when, frames_copy_entry. by apply overlap_app. }
  assert (∀ y v vb q, y ≠ f → body y v = (Ok tt, vb) →
            stat (join target f ++ q) vb = stat (join target f ++ q) v)
    as Hdst_kept.
  { intros y v vb q Hne Hy. apply (frames_run _ (body y) v (Ok tt)); [|done].
    apply frames_when, frames_copy_entry. by apply overlap_entry_below. }
  assert (∀ v vb, P v → body f v = (Ok tt, vb) → Q vb) as Hset.
  { intros v vb [Hv1 Hv2] Hy. split; [by rewrite (Hsrc_kept f v vb Hy)|].
    unfold body in Hy. rewrite bool_decide_true in Hy by done. cbn [when] in Hy.
    by apply (copy_dir_entry _ _ _ _ _ Hv1 Hwf Hv2 Hy). }
  assert (∀ v, Q v → P v) as HQP.
  { intros v [H1 H2]. split; [done|]. intros p c es' Hp.
    by rewrite (H2 p c Hp). }
  refine (proj2 (for_each_establish_ok (sorted_names es.*1) body P Q f w w'
    _ _ Hset _ (conj Hsrc Hfree) Hrun)).
  - intros y v vb Hne [Hv1 Hv2] Hy. split.
    + by rewrite (Hsrc_kept y v vb Hy).
    + intros p c es' Hp. rewrite (Hdst_kept y v vb p Hne Hy). by eapply Hv2.
  - intros y v vb Hv Hy. destruct (decide (y = f)) as [->|Hne].
    + by apply (Hset v vb (HQP v Hv)).
    + destruct Hv as [Hv1 Hv2]. split.
      * by rewrite (Hsrc_kept y v vb Hy).
      * intros p c Hp. rewrite (Hdst_kept y v vb p Hne Hy). by apply Hv2.
  - by apply elem_of_sorted_names.
Qed.

(** An update in place that succeeds leaves the release's copy of every
    regular file in every directory of the release that is not special. *)
Lemma update_server_in_place_overwrites_tree local latest w w' f sub :
  overlap local latest = false →
  update_server local latest None w = (Ok tt, w') →
  f ∉ SPECIAL_PATHS → f ≠ "server.properties.temp" →
  stat (join latest f) w = Some (Dir sub) → wf_tree (Dir sub) →
  (∀ p c es, lookup_path p (Dir sub) = Some (File c) →
             stat (join local f ++ p) w ≠ Some (Dir es)) →
  ∀ p c, lookup_path p (Dir sub) = Some (File c) →
         stat (join local f ++ p) w' = Some (File c).
Proof.
  intros Hov Hrun Hf Htemp Hsrc Hwf Hfree p c Hp.
  rewrite (update_server_in_place local latest None) in Hrun by by left.
  apply bind_Ok_inv in Hrun as ([] & w1 & Hm & Hrun).
  apply bind_Ok_inv in Hrun as ([] & w2 & Hc & Hrun).
  apply bind_Ok_inv in Hrun as ([] & w3 & Hmerge & Hrun).
  assert (stat (join latest f) w1 = Some (Dir sub)) as Hsrc1.
  { rewrite (frames_run _ _ _ _ _ (frames_makedirs (join latest f) local
      (is_prefix_latest_entry _ _ _ Hov)) Hm). done. }
  assert (∀ q, stat (join local f ++ q) w1 = stat (join local f ++ q) w) as Hq1.
  { intros q. apply (frames_run _ _ _ _ _ (frames_makedirs _ local
      (is_prefix_longer local f q)) Hm). }
  pose proof (copy_release_overwrites_tree latest local w1 w2 f sub Hov Hc Hf
    Hsrc1 Hwf ltac:(intros q c' es Hq; rewrite Hq1; by eapply Hfree) p c Hp)
    as H2.
  assert (overlap latest local = false) as Hov' by by rewrite overlap_sym.
  rewrite (frames_run _ _ _ _ _ (frames_rmtree (join local f ++ p) latest
    (overlap_below _ _ _ (overlap_join_r _ _ f Hov'))) Hrun).
  rewrite (frames_run _ _ _ _ _ (frames_merge_properties (join local f ++ p)
    local latest local
    (overlap_entry_below local _ f p (not_eq_sym Htemp))
    (overlap_entry_below local _ f p
       (not_eq_sym (not_special_not_properties f Hf)))) Hmerge).
  done.
Qed.

(** ** C1: the protected paths *)

(** The only regular file of the example pack. *)
Lemma example_pack_files p c :
  lookup_path p (Dir example_pack) = Some (File c) →
  p = ["vanilla"; "manifest.json"] ∧ c = ["new manifest"].
Proof.
  destruct p as [|x [|y [|z q]]]; simpl; [done|..];
    repeat (case_decide; simpl; try done); intros Hp; simplify_eq; done.
Qed.

Lemma example_pack_wf : wf_tree (Dir example_pack).
Proof.
  intros p es. destruct p as [|x [|y [|z q]]]; simpl;
    repeat (case_decide; simpl; try done); intros Hp; simplify_eq;
    apply (bool_decide_unpack _); by vm_compute.
Qed.



(** ** Pruning: the directory under the deletion loops *)

Lemma lookup_write_join d x v n n' es :
  lookup_path d n = Some (Dir es) →
  write_path (join d x) v n = Some n' →
  lookup_path d n' = Some (Dir (dir_put x v es)).
Proof.
  unfold join. revert n n'. induction d as [|y d IH]; intros n n'; simpl.
  - intros [= ->]. rewrite write_path_single. by intros [= <-].
  - destruct n as [|es0]; [done|].
    destruct (dir_lookup y es0) as [c|] eqn:Ec; simpl; [|done]. intros Hc.
    destruct (d ++ [x]) as [|z t] eqn:E; [by destruct d|].
    rewrite write_path_deep, Ec. simpl.
    destruct (write_path (z :: t) v c) as [c'|] eqn:Ew; simpl; [|done].
    intros [= <-]. rewrite dir_lookup_set, decide_True by done. simpl.
    rewrite <-E in Ew, IH. eauto.
Qed.

Lemma stat_dir_put d x v w es :
  stat d w = Some (Dir es) →
  stat d (put (join d x) v w) = Some (Dir (dir_put x v es)).
Proof.
  intros Hd. unfold put, stat in *.
  destruct (write_path_in_dir d x v (root w) es Hd) as [r Hr]. rewrite Hr.
  simpl. by eapply lookup_write_join.
Qed.

Lemma dir_remove_filter x es : dir_remove x es = filter (λ e, e.1 ≠ x) es.
Proof.
  induction es as [|[y n] es IH]; [done|]. cbn [dir_remove].
  rewrite filter_cons. simpl. case_decide; subst.
  - by rewrite decide_False by (by intros []).
  - rewrite decide_True by done. by rewrite IH.
Qed.

Lemma list_filter_ext_in {A} (P Q : A → Prop)
    `{!∀ x, Decision (P x), !∀ x, Decision (Q x)} (l : list A) :
  (∀ x, x ∈ l → P x ↔ Q x) → filter P l = filter Q l.
Proof.
  induction l as [|a l IH]; intros Hext; [done|].
  assert (filter P l = filter Q l) as Hl
    by (apply IH; intros; apply Hext; by right).
  assert (P a ↔ Q a) as Ha by (apply Hext; left).
  rewrite !filter_cons, Hl. repeat case_decide; naive_solver.
Qed.

Lemma list_filter_all {A} (P : A → Prop) `{!∀ x, Decision (P x)} (l : list A) :
  (∀ x, x ∈ l → P x) → filter P l = l.
Proof.
  induction l as [|a l IH]; intros Hall; [done|].
  rewrite filter_cons_True by (apply Hall; left).
  by rewrite IH by (intros; apply Hall; by right).
Qed.

Lemma dir_lookup_filter (Q : string → Prop) `{!∀ x, Decision (Q x)} x es :
  dir_lookup x (filter (λ e, Q e.1) es) =
    if decide (Q x) then dir_lookup x es else None.
Proof.
  induction es as [|[y n] es IH].
  - simpl. by case_decide.
  - rewrite filter_cons. cbn [dir_lookup fst].
    destruct (decide (Q y)) as [Hy|Hy]; cbn [dir_lookup]; rewrite ?IH;
      repeat case_decide; subst; done.
Qed.

Lemma fmap_fst_filter (Q : string → Prop) `{!∀ x, Decision (Q x)}
    (es : list (string * node)) :
  (filter (λ e, Q e.1) es).*1 = filter Q es.*1.
Proof.
  induction es as [|[y n] es IH]; [done|].
  rewrite fmap_cons, !filter_cons. cbn [fst].
  case_decide; [rewrite fmap_cons|]; by rewrite IH.
Qed.

Lemma is_file_in_filter (Q : string → Prop) `{!∀ x, Decision (Q x)} x es :
  is_file_in (filter (λ e, Q e.1) es) x =
    if decide (Q x) then is_file_in es x else false.
Proof. unfold is_file_in. rewrite dir_lookup_filter. by case_decide. Qed.

Lemma listed_files_filter (Q : string → Prop) `{!∀ x, Decision (Q x)} es :
  listed_files (filter (λ e, Q e.1) es) = filter Q (listed_files es).
Proof.
  unfold listed_files. rewrite fmap_fst_filter, !list_filter_filter.
  apply list_filter_iff. intros x. rewrite is_file_in_filter.
  case_decide; naive_solver.
Qed.

Lemma elem_of_listed_files x es :
  x ∈ listed_files es ↔ is_file_in es x = true.
Proof.
  unfold listed_files. rewrite list_elem_of_filter. split; [by intros []|].
  intros Hx. split; [done|]. unfold is_file_in in Hx.
  destruct (decide (x ∈ es.*1)) as [|Hn]; [done|].
  apply dir_lookup_None in Hn. by rewrite Hn in Hx.
Qed.

Lemma is_file_in_stat d x w es :
  stat d w = Some (Dir es) →
  match stat (join d x) w with Some (File _) => true | _ => false end
    = is_file_in es x.
Proof. intros Hd. by rewrite (stat_join _ _ _ _ Hd). Qed.

Lemma listdir_run d w es : stat d w = Some (Dir es) → listdir d w = (Ok es.*1, w).
Proof. unfold listdir. by intros ->. Qed.

Lemma only_files_run d names w es :
  stat d w = Some (Dir es) →
  only_files d names w = (Ok (filter (λ x, is_file_in es x = true) names), w).
Proof.
  intros Hd. induction names as [|x names IH]; [done|].
  cbn [only_files]. unfold bind at 1, isfile at 1.
  rewrite (is_file_in_stat _ _ _ _ Hd). unfold bind at 1. rewrite IH.
  unfold ret. rewrite filter_cons.
  destruct (is_file_in es x); by case_decide.
Qed.

(** The loop of [delete_download_cache_files]: a regular file is removed
    when [del] says so. *)
Lemma conditional_remove_loop d (del : string → bool) names w es :
  stat d w = Some (Dir es) →
  ∃ w',
    for_each names (λ filename,
      bind (isfile (join d filename)) (λ b,
        when b (when (del filename) (remove (join d filename))))) w
    = (Ok tt, w') ∧
    stat d w' = Some (Dir (filter
      (λ e, ¬ (e.1 ∈ names ∧ is_file_in es e.1 = true ∧ del e.1 = true)) es)) ∧
    fetched w' = fetched w ∧
    ∀ q, overlap d q = false → stat q w' = stat q w.
Proof.
  revert w es. induction names as [|x names IH]; intros w es Hd.
  { exists w. split; [done|]. split; [|done]. rewrite Hd. do 2 f_equal.
    symmetry. apply list_filter_all. intros e _ [Hin _].
    by apply elem_of_nil in Hin. }
  cbn [for_each]. unfold bind at 1. unfold bind at 1, isfile at 1.
  rewrite (is_file_in_stat _ _ _ _ Hd).
  destruct (is_file_in es x && del x) eqn:Hx.
  - apply andb_true_iff in Hx as [Hf Hdel]. rewrite Hf, Hdel. cbn [when].
    assert (∃ ls, stat (join d x) w = Some (File ls)) as [ls Hls].
    { rewrite (stat_join _ _ _ _ Hd). unfold is_file_in in Hf.
      destruct (dir_lookup x es) as [[ls|]|]; try done. by exists ls. }
    rewrite (remove_file _ _ _ Hls).
    pose proof (stat_dir_put d x None w es Hd) as Hd1. cbn [dir_put] in Hd1.
    destruct (IH _ _ Hd1) as (w' & Hrun & Hd' & Hfe & Hfr).
    exists w'. split; [done|]. split; [|split].
    + rewrite Hd'. do 2 f_equal. rewrite dir_remove_filter, list_filter_filter.
      apply list_filter_ext_in. intros e _.
      destruct (decide (e.1 = x)) as [He|He].
      * rewrite He. split; [by intros [_ []]|]. intros Hn. destruct Hn.
        split; [left|done].
      * unfold is_file_in. rewrite <-dir_remove_filter, dir_lookup_remove.
        rewrite decide_False by done. rewrite elem_of_cons. naive_solver.
    + by rewrite Hfe, fetched_put.
    + intros q Hq. rewrite Hfr by done. apply stat_put_apart.
      by apply overlap_join_l.
  - assert ((if is_file_in es x then when (del x) (remove (join d x)) else ret tt)
            = ret tt) as Hskip.
    { destruct (is_file_in es x), (del x); done. }
    change (when (is_file_in es x) (when (del x) (remove (join d x))))
      with (if is_file_in es x then when (del x) (remove (join d x)) else ret tt).
    rewrite Hskip. unfold ret at 1.
    destruct (IH _ _ Hd) as (w' & Hrun & Hd' & Hfe & Hfr).
    exists w'. split; [done|]. split; [|done].
    rewrite Hd'. do 2 f_equal. apply list_filter_ext_in. intros e _.
    rewrite elem_of_cons.
    destruct (decide (e.1 = x)) as [He|He]; [|naive_solver].
    rewrite He. apply andb_false_iff in Hx.
    split; [|naive_solver]. intros _ (_ & Hf & Hdel).
    destruct Hx; congruence.
Qed.

(** The loop of [delete_local_server_backup_files]: every name is a
    regular file of the directory and is removed. *)
Lemma remove_loop d names w es :
  NoDup names → (∀ x, x ∈ names → is_file_in es x = true) →
  stat d w = Some (Dir es) →
  ∃ w',
    for_each names (λ filename, remove (join d filename)) w = (Ok tt, w') ∧
    stat d w' = Some (Dir (filter (λ e, e.1 ∉ names) es)) ∧
    fetched w' = fetched w ∧
    ∀ q, overlap d q = false → stat q w' = stat q w.
Proof.
  revert w es. induction names as [|x names IH]; intros w es Hnd Hfiles Hd.
  { exists w. split; [done|]. split; [|done]. rewrite Hd. do 2 f_equal.
    symmetry. apply list_filter_all. intros e _. apply not_elem_of_nil. }
  apply NoDup_cons in Hnd as [Hx Hnd].
  cbn [for_each]. unfold bind at 1.
  assert (∃ ls, stat (join d x) w = Some (File ls)) as [ls Hls].
  { rewrite (stat_join _ _ _ _ Hd). specialize (Hfiles x ltac:(left)).
    unfold is_file_in in Hfiles.
    destruct (dir_lookup x es) as [[ls|]|]; try done. by exists ls. }
  rewrite (remove_file _ _ _ Hls).
  pose proof (stat_dir_put d x None w es Hd) as Hd1. cbn [dir_put] in Hd1.
  destruct (IH (put (join d x) None w) (dir_remove x es) Hnd)
    as (w' & Hrun & Hd' & Hfe & Hfr); [|exact Hd1|].
  { intros y Hy. unfold is_file_in. rewrite dir_lookup_remove.
    rewrite decide_False by (intros ->; done).
    apply Hfiles. by right. }
  exists w'. split; [done|]. split; [|split].
  - rewrite Hd'. do 2 f_equal. rewrite dir_remove_filter, list_filter_filter.
    apply list_filter_iff. intros e. rewrite not_elem_of_cons. naive_solver.
  - by rewrite Hfe, fetched_put.
  - intros q Hq. rewrite Hfr by done. apply stat_put_apart.
    by apply overlap_join_l.
Qed.

(** ** Pruning: what the two functions do to a directory *)

Lemma last_n_0 {A} (l : list A) : last_n 0 l = [].
Proof. unfold last_n. rewrite Nat.sub_0_r. apply drop_all. Qed.

Lemma elem_of_entry_name (e : string * node) es : e ∈ es → e.1 ∈ es.*1.
Proof. intros He. apply list_elem_of_fmap. by exists e. Qed.

Lemma delete_download_cache_files_negative d N w :
  N < 0 → delete_download_cache_files d N w = (Ok tt, w).
Proof.
  intros HN. unfold delete_download_cache_files.
  by destruct (Z.geb_spec N 0); [lia|].
Qed.

Lemma delete_local_server_backup_files_negative d N w :
  N < 0 → delete_local_server_backup_files d N w = (Ok tt, w).
Proof.
  intros HN. unfold delete_local_server_backup_files.
  by destruct (Z.geb_spec N 0); [lia|].
Qed.

Lemma delete_download_cache_files_run d N w es :
  stat d w = Some (Dir es) → 0 ≤ N →
  ∃ w', delete_download_cache_files d N w = (Ok tt, w') ∧
        stat d w' = Some (Dir (filter (λ e, ¬ cache_doomed N es e.1) es)) ∧
        fetched w' = fetched w ∧
        ∀ q, overlap d q = false → stat q w' = stat q w.
Proof.
  intros Hd HN. unfold delete_download_cache_files.
  destruct (Z.geb_spec N 0) as [_|]; [|lia].
  unfold bind at 1. rewrite (listdir_run _ _ _ Hd).
  unfold bind at 1. rewrite (only_files_run _ _ _ _ Hd).
  fold (listed_files es).
  set (all_versions :=
    py_sorted (cmp_lt compare_version) (extract_version <$> listed_files es)).
  assert (length all_versions = length (listed_files es)) as Hlen.
  { unfold all_versions. by rewrite py_sorted_length, length_fmap. }
  rewrite Hlen.
  destruct (Z.gtb_spec (Z.of_nat (length (listed_files es))) N) as [Hmore|Hfew].
  - unfold bind at 1. rewrite (listdir_run _ _ _ Hd).
    set (del := λ filename : string,
      if N >? 0
      then negb (kept (last_n (Z.to_nat N) all_versions) (extract_version filename))
      else true).
    destruct (conditional_remove_loop d del (sorted_names es.*1) w es Hd)
      as (w' & Hrun & Hd' & Hfe & Hfr).
    exists w'. split; [exact Hrun|]. split; [|done].
    rewrite Hd'. do 2 f_equal. apply list_filter_ext_in. intros e He.
    assert (del e.1 = true ↔
            kept (cache_keep N es) (extract_version e.1) = false) as Hdel.
    { unfold del, cache_keep. fold all_versions.
      destruct (Z.gtb_spec N 0) as [|H0].
      - by rewrite negb_true_iff.
      - assert (N = 0) as -> by lia. by rewrite last_n_0. }
    unfold cache_doomed. rewrite elem_of_sorted_names, Hdel.
    pose proof (elem_of_entry_name e es He). naive_solver lia.
  - exists w. split; [done|]. split; [|done]. rewrite Hd. do 2 f_equal.
    symmetry. apply list_filter_all. intros e _ [Hlt _]. lia.
Qed.

Lemma with_keys_inv names keyed :
  with_keys names = Ok keyed →
  keyed.*2 = names ∧ ∀ k x, (k, x) ∈ keyed → backup_key x = Some k.
Proof.
  revert keyed. induction names as [|x names IH]; intros keyed; simpl.
  - intros [= <-]. split; [done|]. by intros k x ?%elem_of_nil.
  - destruct (backup_key x) as [k|] eqn:Ek; [|done].
    destruct (with_keys names) as [l|e]; [|done]. intros [= <-].
    destruct (IH l eq_refl) as [H1 H2]. split; [by rewrite fmap_cons, H1|].
    intros k' x' [[= -> ->]|Hin]%elem_of_cons; eauto.
Qed.

Lemma with_keys_Ok names :
  (∀ x, x ∈ names → is_Some (backup_key x)) → ∃ keyed, with_keys names = Ok keyed.
Proof.
  induction names as [|x names IH]; intros H; simpl; [eauto|].
  destruct (H x) as [k ->]; [left|].
  destruct IH as [l ->]; [intros; apply H; by right|]. eauto.
Qed.

Lemma backup_order_Permutation keyed : backup_order keyed ≡ₚ keyed.*2.
Proof. unfold backup_order. by rewrite py_sorted_reverse_Permutation. Qed.

Lemma NoDup_listed_files es : NoDup es.*1 → NoDup (listed_files es).
Proof. apply NoDup_filter. Qed.

Lemma delete_local_server_backup_files_run d N w es keyed :
  stat d w = Some (Dir es) → NoDup es.*1 → 0 ≤ N →
  with_keys (listed_files es) = Ok keyed →
  ∃ w', delete_local_server_backup_files d N w = (Ok tt, w') ∧
        stat d w' = Some (Dir (filter
          (λ e, e.1 ∉ drop (Z.to_nat N) (backup_order keyed)) es)) ∧
        fetched w' = fetched w ∧
        ∀ q, overlap d q = false → stat q w' = stat q w.
Proof.
  intros Hd Hnd HN Hkeys. unfold delete_local_server_backup_files.
  destruct (Z.geb_spec N 0) as [_|]; [|lia].
  unfold bind at 1. rewrite (listdir_run _ _ _ Hd).
  unfold bind at 1. rewrite (only_files_run _ _ _ _ Hd).
  fold (listed_files es). unfold bind at 1, lift at 1. rewrite Hkeys.
  fold (backup_order keyed).
  destruct (with_keys_inv _ _ Hkeys) as [Hnames _].
  pose proof (backup_order_Permutation keyed) as Hperm. rewrite Hnames in Hperm.
  destruct (Z.gtb_spec (Z.of_nat (length (backup_order keyed))) N) as [Hmore|Hfew].
  - destruct (remove_loop d (drop (Z.to_nat N) (backup_order keyed)) w es)
      as (w' & Hrun & Hd' & Hfe & Hfr); [| |done|by exists w'].
    + assert (NoDup (backup_order keyed)) as Hnd'.
      { rewrite Hperm. by apply NoDup_listed_files. }
      rewrite <-(take_drop (Z.to_nat N) (backup_order keyed)) in Hnd'.
      by apply NoDup_app in Hnd' as (_ & _ & ?).
    + intros x Hx. apply elem_of_listed_files. rewrite <-Hperm.
      by apply (subseteq_drop (Z.to_nat N)).
  - exists w. split; [done|]. split; [|done]. rewrite Hd. do 2 f_equal.
    symmetry. rewrite drop_ge by lia.
    apply list_filter_all. intros e _. apply not_elem_of_nil.
Qed.

(** ** Pruning: how many files stay, and which *)

Lemma list_filter_none {A} (P : A → Prop) `{!∀ x, Decision (P x)} (l : list A) :
  (∀ x, x ∈ l → ¬ P x) → filter P l = [].
Proof.
  induction l as [|a l IH]; intros Hnone; [done|].
  rewrite filter_cons_False by (apply Hnone; left).
  apply IH. intros; apply Hnone; by right.
Qed.

Lemma filter_fmap_comm {A B} (f : A → B) (P : B → Prop) (Q : A → Prop)
    `{!∀ x, Decision (P x), !∀ x, Decision (Q x)} (l : list A) :
  (∀ x, P (f x) ↔ Q x) → filter P (f <$> l) = f <$> filter Q l.
Proof.
  intros HPQ. induction l as [|a l IH]; [done|].
  rewrite fmap_cons, !filter_cons. specialize (HPQ a).
  destruct (decide (P (f a))), (decide (Q a)); rewrite ?fmap_cons, IH;
    tauto || done.
Qed.

Lemma kept_self K v : v ∈ K → kept K v = true.
Proof.
  intros Hv. unfold kept. apply existsb_exists. exists v.
  split; [by apply list_elem_of_In|]. rewrite compare_version_refl. done.
Qed.

Lemma last_n_length {A} (n : nat) (l : list A) :
  (n ≤ length l)%nat → length (last_n n l) = n.
Proof. intros H. unfold last_n. rewrite length_drop. lia. Qed.

Lemma last_n_suffix {A} (n : nat) (l : list A) :
  l = take (length l - n) l ++ last_n n l.
Proof. unfold last_n. by rewrite take_drop. Qed.

(** At least as many files pass the test of the deletion loop as there are
    versions kept. *)
Lemma kept_count (N : nat) (files : list string) :
  (N ≤ length files)%nat →
  let K := last_n N (py_sorted (cmp_lt compare_version) (extract_version <$> files)) in
  (N ≤ length (filter (λ x, kept K (extract_version x) = true) files))%nat.
Proof.
  intros HN K.
  set (S := py_sorted (cmp_lt compare_version) (extract_version <$> files)) in *.
  assert (length S = length files) as HS
    by (unfold S; by rewrite py_sorted_length, length_fmap).
  rewrite <-(length_fmap extract_version (filter _ files)).
  assert (extract_version <$>
            filter (λ x, kept K (extract_version x) = true) files
          = filter (λ v, kept K v = true) (extract_version <$> files)) as ->
    by (symmetry; by apply filter_fmap_comm).
  assert (filter (λ v, kept K v = true) (extract_version <$> files)
          ≡ₚ filter (λ v, kept K v = true) S) as ->.
  { apply filter_Permutation. symmetry. apply py_sorted_Permutation. }
  rewrite (last_n_suffix N S) at 1. fold K.
  rewrite filter_app, length_app.
  rewrite (list_filter_all _ K) by (intros; by apply kept_self).
  unfold K. rewrite last_n_length by lia. lia.
Qed.

Global Instance key_le_trans : Transitive key_le.
Proof. unfold key_le. intros a b c ??. lia. Qed.

Lemma backup_order_sorted keyed :
  StronglySorted (flip key_le) (py_sorted_reverse (key_lt fst) keyed).
Proof.
  apply (py_sorted_reverse_sorted (key_lt fst) key_le (λ _, True)).
  - intros x y _ _. unfold key_lt, key_le. intros ?%Z.ltb_lt. lia.
  - intros x y _ _. unfold key_lt, key_le. intros ?%Z.ltb_ge. lia.
  - by apply Forall_forall.
Qed.

Lemma listed_files_cache N es :
  listed_files (filter (λ e, ¬ cache_doomed N es e.1) es)
  = filter (λ x, ¬ cache_doomed N es x) (listed_files es).
Proof. exact (listed_files_filter (λ x, ¬ cache_doomed N es x) es). Qed.

Lemma listed_files_backup (names : list string) es :
  listed_files (filter (λ e, e.1 ∉ names) es)
  = filter (λ x, x ∉ names) (listed_files es).
Proof. exact (listed_files_filter (λ x, x ∉ names) es). Qed.

Section Retention.
Context (d : path) (N : Z) (w : world) (es : list (string * node)).
Context (Hd : stat d w = Some (Dir es)).

Lemma cache_survivors x :
  x ∈ filter (λ x, ¬ cache_doomed N es x) (listed_files es) ↔
  x ∈ listed_files es ∧
  (Z.of_nat (length (listed_files es)) ≤ N ∨
   kept (cache_keep N es) (extract_version x) = true).
Proof.
  rewrite list_elem_of_filter. unfold cache_doomed.
  split.
  - intros [Hn Hx]. split; [done|].
    apply elem_of_listed_files in Hx.
    destruct (decide (N < Z.of_nat (length (listed_files es)))); [|left; lia].
    right. destruct (kept _ _); [done|]. destruct Hn. done.
  - intros [Hx [Hle|Hk]]; (split; [|done]); intros (? & ? & ?);
      [lia|congruence].
Qed.

Lemma cache_survivor_count :
  0 ≤ N →
  (Z.to_nat N `min` length (listed_files es)
   ≤ length (filter (λ x, ¬ cache_doomed N es x) (listed_files es)))%nat.
Proof.
  intros HN.
  destruct (decide (N < Z.of_nat (length (listed_files es)))) as [Hlt|Hge].
  - rewrite (list_filter_ext_in _
      (λ x, kept (cache_keep N es) (extract_version x) = true)).
    + etrans; [apply Nat.le_min_l|]. apply kept_count. lia.
    + intros x Hx%elem_of_listed_files. unfold cache_doomed.
      destruct (kept _ _); naive_solver.
  - rewrite list_filter_all; [lia|]. intros x _ [? _]. lia.
Qed.

Context (Hnd : NoDup es.*1).
Context (keyed : list (Z * string)).
Context (Hkeys : with_keys (listed_files es) = Ok keyed).

Lemma backup_order_files : backup_order keyed ≡ₚ listed_files es.
Proof.
  rewrite backup_order_Permutation. by destruct (with_keys_inv _ _ Hkeys) as [-> _].
Qed.

Lemma backup_survivors :
  filter (λ x, x ∉ drop (Z.to_nat N) (backup_order keyed)) (listed_files es)
  ≡ₚ take (Z.to_nat N) (backup_order keyed).
Proof.
  rewrite <-backup_order_files.
  assert (NoDup (backup_order keyed)) as Hnd'.
  { rewrite backup_order_files. by apply NoDup_listed_files. }
  set (all := backup_order keyed) in *.
  rewrite <-(take_drop (Z.to_nat N) all) in Hnd'.
  apply NoDup_app in Hnd' as (_ & Hdisj & _).
  transitivity (filter (λ x, x ∉ drop (Z.to_nat N) all)
                  (take (Z.to_nat N) all ++ drop (Z.to_nat N) all));
    [by rewrite take_drop|].
  rewrite filter_app, list_filter_all by done.
  rewrite list_filter_none by (intros x Hx Hn; done).
  by rewrite app_nil_r.
Qed.

Lemma backup_newest_kept s x ks kx :
  s ∈ take (Z.to_nat N) (backup_order keyed) →
  x ∈ drop (Z.to_nat N) (backup_order keyed) →
  backup_key s = Some ks → backup_key x = Some kx → kx ≤ ks.
Proof.
  unfold backup_order. rewrite <-fmap_take, <-fmap_drop.
  intros ([k1 s'] & -> & Hs)%list_elem_of_fmap
         ([k2 x'] & -> & Hx)%list_elem_of_fmap Hks Hkx.
  simpl in *.
  pose proof (backup_order_sorted keyed) as Hsorted.
  rewrite <-(take_drop (Z.to_nat N) (py_sorted_reverse _ keyed)) in Hsorted.
  pose proof (StronglySorted_app_1_elem_of _ _ _ _ _ Hsorted Hs Hx) as Hle.
  unfold flip, key_le in Hle. simpl in Hle.
  destruct (with_keys_inv _ _ Hkeys) as [_ Hkey].
  assert (backup_key s' = Some k1) as Hk1.
  { apply Hkey. rewrite <-(py_sorted_reverse_Permutation (key_lt fst) keyed).
    by apply (subseteq_take (Z.to_nat N)). }
  assert (backup_key x' = Some k2) as Hk2.
  { apply Hkey. rewrite <-(py_sorted_reverse_Permutation (key_lt fst) keyed).
    by apply (subseteq_drop (Z.to_nat N)). }
  congruence.
Qed.

End Retention.

(** ** Pruning twice *)

Lemma compare_version_antisym v1 v2 :
  compare_version v2 v1 = - compare_version v1 v2.
Proof.
  revert v2. induction v1 as [|x v1 IH]; intros [|y v2];
    rewrite ?compare_version_nil_l, ?compare_version_nil_r; try done.
  rewrite !compare_version_cons, IH.
  destruct (Z.ltb_spec x y), (Z.gtb_spec x y),
           (Z.ltb_spec y x), (Z.gtb_spec y x); lia.
Qed.

Lemma compare_version_trans v1 v2 v3 :
  length v1 = length v2 → length v2 = length v3 →
  compare_version v1 v2 ≤ 0 → compare_version v2 v3 ≤ 0 →
  compare_version v1 v3 ≤ 0.
Proof.
  revert v2 v3. induction v1 as [|x v1 IH]; intros [|y v2] [|z v3]; try done.
  intros [=H12] [=H23]. rewrite !compare_version_cons.
  specialize (IH v2 v3 H12 H23).
  destruct (Z.ltb_spec x y), (Z.gtb_spec x y),
           (Z.ltb_spec y z), (Z.gtb_spec y z),
           (Z.ltb_spec x z), (Z.gtb_spec x z); lia.
Qed.

Lemma compare_version_same_length v1 v2 :
  length v1 = length v2 → compare_version v1 v2 = 0 → v1 = v2.
Proof.
  intros Hlen H%compare_version_eq_iff.
  rewrite Hlen, Nat.min_id in H.
  by rewrite <-Hlen, firstn_all, Hlen, firstn_all in H.
Qed.

Global Instance version_le_trans n : Transitive (version_le n).
Proof.
  intros a b c (Ha & Hb & Hab) (_ & Hc & Hbc). split; [done|]. split; [done|].
  apply (compare_version_trans a b c); congruence.
Qed.

Global Instance version_le_antisymm n : AntiSymm (=) (version_le n).
Proof.
  intros a b (Ha & Hb & Hab) (_ & _ & Hba).
  apply compare_version_same_length; [congruence|].
  rewrite (compare_version_antisym a b) in Hba. lia.
Qed.

Lemma versions_sorted n (l : list version) :
  Forall (λ v, length v = n) l →
  StronglySorted (version_le n) (py_sorted (cmp_lt compare_version) l).
Proof.
  apply (py_sorted_sorted (cmp_lt compare_version) (version_le n)
           (λ v, length v = n)).
  - intros x y Hx Hy H%Z.ltb_lt. unfold version_le. repeat split; [done..|lia].
  - intros x y Hx Hy H%Z.ltb_ge. unfold version_le. repeat split; [done..|].
    rewrite (compare_version_antisym x y). lia.
Qed.

Lemma StronglySorted_filter {A} (R : relation A) (P : A → Prop)
    `{!∀ x, Decision (P x)} (l : list A) :
  StronglySorted R l → StronglySorted R (filter P l).
Proof.
  induction 1 as [|x l Hl IH Hx]; [constructor|].
  rewrite filter_cons. case_decide; [|done].
  constructor; [done|]. apply Forall_forall. intros y [_ Hy]%list_elem_of_filter.
  by apply (proj1 (Forall_forall _ _) Hx).
Qed.

Lemma last_n_app {A} (l k : list A) : last_n (length k) (l ++ k) = k.
Proof.
  unfold last_n. rewrite length_app.
  replace (length l + length k - length k)%nat with (length l) by lia.
  by rewrite drop_app_length.
Qed.

(** Among versions of one length, the versions kept are the same when the
    files whose version is not kept are gone. *)
Lemma cache_keep_stable n (N : nat) (V : list version) :
  Forall (λ v, length v = n) V → (N ≤ length V)%nat →
  let K := last_n N (py_sorted (cmp_lt compare_version) V) in
  last_n N (py_sorted (cmp_lt compare_version)
              (filter (λ v, kept K v = true) V)) = K.
Proof.
  intros HV HN K.
  set (S := py_sorted (cmp_lt compare_version) V) in *.
  assert (S ≡ₚ V) as HS by apply py_sorted_Permutation.
  assert (StronglySorted (version_le n) S) as Hsorted by by apply versions_sorted.
  assert (length K = N) as HK.
  { unfold K. apply last_n_length. by rewrite HS. }
  assert (py_sorted (cmp_lt compare_version) (filter (λ v, kept K v = true) V)
          = filter (λ v, kept K v = true) S) as ->.
  { apply (StronglySorted_unique (version_le n)).
    - apply versions_sorted. apply Forall_forall.
      intros v [_ Hv]%list_elem_of_filter.
      by apply (proj1 (Forall_forall _ _) HV).
    - by apply StronglySorted_filter.
    - rewrite py_sorted_Permutation. by apply filter_Permutation. }
  rewrite (last_n_suffix N S) at 1. fold K.
  rewrite filter_app, (list_filter_all _ K) by (intros; by apply kept_self).
  rewrite <-HK at 1. apply last_n_app.
Qed.

Lemma delete_local_server_backup_files_raise d N w es e :
  stat d w = Some (Dir es) → 0 ≤ N →
  with_keys (listed_files es) = Raise e →
  delete_local_server_backup_files d N w = (Raise e, w).
Proof.
  intros Hd HN Hkeys. unfold delete_local_server_backup_files.
  destruct (Z.geb_spec N 0); [|lia].
  unfold bind. rewrite (listdir_run d w es Hd), (only_files_run d _ w es Hd).
  fold (listed_files es). unfold lift. by rewrite Hkeys.
Qed.

Lemma delete_local_server_backup_files_few d N w es keyed :
  stat d w = Some (Dir es) →
  with_keys (listed_files es) = Ok keyed →
  Z.of_nat (length (listed_files es)) ≤ N →
  delete_local_server_backup_files d N w = (Ok tt, w).
Proof.
  intros Hd Hkeys HN. unfold delete_local_server_backup_files.
  destruct (Z.geb_spec N 0); [|lia].
  unfold bind. rewrite (listdir_run d w es Hd), (only_files_run d _ w es Hd).
  fold (listed_files es). unfold lift. rewrite Hkeys.
  fold (backup_order keyed).
  assert (length (backup_order keyed) = length (listed_files es)) as ->.
  { rewrite backup_order_Permutation. by destruct (with_keys_inv _ _ Hkeys) as [-> _]. }
  destruct (Z.gtb_spec (Z.of_nat (length (listed_files es))) N); [lia|done].
Qed.

Lemma with_keys_cases names :
  (∃ keyed, with_keys names = Ok keyed) ∨ with_keys names = Raise ValueError.
Proof.
  induction names as [|x names IH]; simpl; [by left; eexists|].
  destruct (backup_key x); [|by right].
  destruct IH as [[keyed ->]| ->]; [by left; eexists|by right].
Qed.

Lemma cache_survivors_kept N es :
  N < Z.of_nat (length (listed_files es)) →
  filter (λ x, ¬ cache_doomed N es x) (listed_files es)
  = filter (λ x, kept (cache_keep N es) (extract_version x) = true) (listed_files es).
Proof.
  intros HN. apply list_filter_ext_in.
  intros x Hx%elem_of_listed_files. unfold cache_doomed.
  destruct (kept _ _); naive_solver.
Qed.

Lemma cache_keep_pruned n N es :
  0 ≤ N → N < Z.of_nat (length (listed_files es)) →
  (∀ x, x ∈ listed_files es → length (extract_version x) = n) →
  cache_keep N (filter (λ e, ¬ cache_doomed N es e.1) es) = cache_keep N es.
Proof.
  intros HN Hlt Hlen. unfold cache_keep at 1.
  rewrite listed_files_cache.
  rewrite cache_survivors_kept by done.
  assert (extract_version <$>
            filter (λ x, kept (cache_keep N es) (extract_version x) = true)
              (listed_files es)
          = filter (λ v, kept (cache_keep N es) v = true)
              (extract_version <$> listed_files es)) as ->
    by (symmetry; by apply filter_fmap_comm).
  apply (cache_keep_stable n).
  - apply Forall_forall. intros v (x & -> & Hx)%list_elem_of_fmap. by apply Hlen.
  - rewrite length_fmap. lia.
Qed.

(** C6, as the code has it.  A second run of
    [delete_local_server_backup_files] with the same count returns what the
    first returned and changes nothing.  A second run of
    [delete_download_cache_files] leaves the directory as the first left it
    when the versions of its files all have the same number of components;
    [compare_version] is then a total order.  On versions of different
    lengths it is not one, and a second run can delete a file the first
    kept. *)
Theorem prune_idempotent d N w es :
  stat d w = Some (Dir es) → NoDup es.*1 →
  (∀ r w1, delete_local_server_backup_files d N w = (r, w1) →
     delete_local_server_backup_files d N w1 = (r, w1)) ∧
  ((∃ n, ∀ x, x ∈ listed_files es → length (extract_version x) = n) →
   ∀ r w1, delete_download_cache_files d N w = (r, w1) →
     ∃ w2, delete_download_cache_files d N w1 = (r, w2) ∧
           stat d w2 = stat d w1).
Proof.
  intros Hd Hnd. split.
  - intros r w1 Hrun.
    destruct (decide (N < 0)) as [Hneg|Hpos].
    { rewrite delete_local_server_backup_files_negative in Hrun by done.
      injection Hrun as <- <-.
      by apply delete_local_server_backup_files_negative. }
    destruct (with_keys_cases (listed_files es)) as [[keyed Hkeys]|Hkeys].
    + destruct (delete_local_server_backup_files_run d N w es keyed)
        as (w' & Hrun' & Hd' & _); [done|done|lia|done|].
      rewrite Hrun' in Hrun. injection Hrun as <- <-.
      set (es' := filter (λ e, e.1 ∉ drop (Z.to_nat N) (backup_order keyed)) es)
        in *.
      assert (listed_files es'
              = filter (λ x, x ∉ drop (Z.to_nat N) (backup_order keyed))
                  (listed_files es)) as Hfiles
        by apply listed_files_backup.
      destruct (with_keys_Ok (listed_files es')) as [keyed' Hkeys'].
      { intros x Hx. rewrite Hfiles in Hx.
        apply list_elem_of_filter in Hx as [_ Hx].
        destruct (with_keys_inv _ _ Hkeys) as [Hnames Hkey].
        rewrite <-Hnames in Hx.
        apply list_elem_of_fmap in Hx as ([k x'] & -> & Hx).
        exists k. by apply Hkey. }
      apply (delete_local_server_backup_files_few d N w' es' keyed');
        [done|done|].
      rewrite Hfiles, (backup_survivors N es Hnd keyed Hkeys), length_take. lia.
    + rewrite (delete_local_server_backup_files_raise d N w es ValueError)
        in Hrun by (done || lia).
      injection Hrun as <- <-.
      apply (delete_local_server_backup_files_raise d N w es); [done|lia|done].
  - intros [n Hlen] r w1 Hrun.
    destruct (decide (N < 0)) as [Hneg|Hpos].
    { rewrite delete_download_cache_files_negative in Hrun by done.
      injection Hrun as <- <-. exists w.
      split; [by apply delete_download_cache_files_negative|done]. }
    destruct (delete_download_cache_files_run d N w es)
      as (w' & Hrun' & Hd' & _); [done|lia|].
    rewrite Hrun' in Hrun. injection Hrun as <- <-.
    set (es' := filter (λ e, ¬ cache_doomed N es e.1) es) in *.
    destruct (delete_download_cache_files_run d N w' es')
      as (w2 & Hrun2 & Hd2 & _); [done|lia|].
    exists w2. split; [done|]. rewrite Hd2, Hd'. do 2 f_equal.
    apply list_filter_all. intros e He (Hmore & Hfile & Hkept).
    assert (listed_files es'
            = filter (λ x, ¬ cache_doomed N es x) (listed_files es)) as Hfiles
      by apply listed_files_cache.
    assert (N < Z.of_nat (length (listed_files es))) as Hlt.
    { pose proof (length_filter (λ x, ¬ cache_doomed N es x) (listed_files es)).
      rewrite Hfiles in Hmore. lia. }
    unfold es' in Hkept.
    rewrite (cache_keep_pruned n) in Hkept by (done || lia).
    apply elem_of_listed_files in Hfile. rewrite Hfiles in Hfile.
    apply list_elem_of_filter in Hfile as [Hnot Hin].
    apply Hnot. split; [done|]. split; [by apply elem_of_listed_files|done].
Qed.

Lemma prune_idempotent_witness :
  ∃ w1 w2,
    delete_download_cache_files ["cache"] 1 example_cache_uniform = (Ok tt, w1) ∧
    delete_download_cache_files ["cache"] 1 w1 = (Ok tt, w2) ∧
    stat ["cache"] w2 = stat ["cache"] w1.
Proof.
  destruct (prune_idempotent ["cache"] 1 example_cache_uniform _ eq_refl)
    as [_ H].
  - apply (bool_decide_unpack _). reflexivity.
  - destruct (H) with (r := Ok tt)
      (w1 := (delete_download_cache_files ["cache"] 1 example_cache_uniform).2)
      as (w2 & Hrun & Hst).
    + exists 2%nat. apply Forall_forall. apply (bool_decide_unpack _).
      vm_compute. reflexivity.
    + vm_compute. reflexivity.
    + eexists _, w2. split; [|split; [exact Hrun|exact Hst]].
      vm_compute. reflexivity.
Defined.

(** Four cached archives with the versions 2.2, 1, 2 and 2.1, one to be
    kept.  The first run sorts them to 1, 2.1, 2.2, 2 and keeps what
    compares equal to 2: the archives 2, 2.1 and 2.2.  The second run sorts
    the three to 2.2, 2, 2.1 and keeps what compares equal to 2.1: the
    archive 2.2 is deleted. *)
Lemma prune_cache_twice_differs :
  ∃ w1 w2,
    delete_download_cache_files ["cache"] 1 example_cache = (Ok tt, w1) ∧
    delete_download_cache_files ["cache"] 1 w1 = (Ok tt, w2) ∧
    stat ["cache"; "server-2.2.zip"] w1 = Some (File []) ∧
    stat ["cache"; "server-2.2.zip"] w2 = None.
Proof.
  eexists _, _. split; [vm_compute; reflexivity|].
  split; [vm_compute; reflexivity|]. by vm_compute.
Qed.

(** ** Retention: the files that stay *)

Lemma filter_length_lt {A} (P : A → Prop) `{!∀ x, Decision (P x)}
    (l : list A) x :
  x ∈ l → ¬ P x → (length (filter P l) < length l)%nat.
Proof.
  intros Hx Hn. induction l as [|a l IH]; [by apply elem_of_nil in Hx|].
  pose proof (length_filter P l) as Hle.
  rewrite filter_cons. apply elem_of_cons in Hx as [<-|Hx].
  - rewrite decide_False by done. simpl. lia.
  - specialize (IH Hx). case_decide; simpl; lia.
Qed.

Lemma kept_same_length n K v :
  Forall (λ u, length u = n) K → length v = n →
  kept K v = true ↔ v ∈ K.
Proof.
  intros HK Hv. split; [|apply kept_self].
  unfold kept. intros (k & Hk%list_elem_of_In & Heq%Z.eqb_eq)%existsb_exists.
  assert (k = v) as <-; [|done].
  apply compare_version_same_length; [|done].
  rewrite (proj1 (Forall_forall _ _) HK k Hk). done.
Qed.

(** Among versions of one length, a version is kept exactly when fewer
    than [N] versions are strictly newer. *)
Lemma kept_iff_newer n (N : nat) (V : list version) v :
  Forall (λ u, length u = n) V → (N ≤ length V)%nat → v ∈ V →
  kept (last_n N (py_sorted (cmp_lt compare_version) V)) v = true ↔
  (length (filter (λ u, (0 < compare_version u v)%Z) V) < N)%nat.
Proof.
  intros HV HN Hv.
  set (S := py_sorted (cmp_lt compare_version) V).
  assert (S ≡ₚ V) as HS by apply py_sorted_Permutation.
  assert (StronglySorted (version_le n) S) as Hsorted by by apply versions_sorted.
  assert (Forall (λ u, length u = n) S) as HSn by by rewrite HS.
  set (K := last_n N S).
  assert (length K = N) as HK by (apply last_n_length; by rewrite HS).
  assert (Forall (λ u, length u = n) K) as HKn.
  { apply Forall_forall. intros u Hu.
    apply (proj1 (Forall_forall _ _) HSn). by apply (subseteq_drop _ _ _ Hu). }
  assert (length v = n) as Hvn by by apply (proj1 (Forall_forall _ _) HV).
  rewrite (kept_same_length n K v HKn Hvn).
  assert (length (filter (λ u, 0 < compare_version u v) V)
          = length (filter (λ u, 0 < compare_version u v) S)) as ->.
  { by rewrite HS. }
  pose proof (last_n_suffix N S) as Hsplit. fold K in Hsplit.
  set (A := take (length S - N) S) in *.
  rewrite Hsplit in Hsorted.
  assert (v ∈ A ∨ v ∈ K) as Hwhere.
  { apply elem_of_app. rewrite <-Hsplit, HS. done. }
  rewrite Hsplit, filter_app, length_app.
  split.
  - intros HvK.
    rewrite (list_filter_none _ A).
    + pose proof (filter_length_lt
        (λ u, 0 < compare_version u v) K v HvK) as Hlt.
      cbv beta in Hlt. rewrite compare_version_refl in Hlt. simpl. lia.
    + intros a Ha.
      pose proof (StronglySorted_app_1_elem_of _ _ _ _ _ Hsorted Ha HvK)
        as (_ & _ & Hle).
      lia.
  - intros Hfew. destruct (decide (v ∈ K)) as [|HnK]; [done|].
    destruct Hwhere as [HvA|]; [|done].
    rewrite (list_filter_all _ K) in Hfew; [lia|].
    intros k Hk.
    pose proof (StronglySorted_app_1_elem_of _ _ _ _ _ Hsorted HvA Hk)
      as (_ & Hkn & Hle).
    assert (compare_version v k ≠ 0).
    { intros Heq. apply HnK.
      by rewrite (compare_version_same_length v k ltac:(congruence) Heq). }
    rewrite (compare_version_antisym v k). lia.
Qed.

Lemma newer_files_count es x :
  length (newer_files es x)
  = length (filter (λ u, 0 < compare_version u (extract_version x))
              (extract_version <$> listed_files es)).
Proof.
  unfold newer_files.
  rewrite (filter_fmap_comm extract_version
             (λ u, 0 < compare_version u (extract_version x))
             (λ y, 0 < compare_version (extract_version y) (extract_version x)))
    by done.
  by rewrite length_fmap.
Qed.

Lemma newer_files_fewer es x :
  x ∈ listed_files es →
  (length (newer_files es x) < length (listed_files es))%nat.
Proof.
  intros Hx. apply (filter_length_lt _ _ x); [done|]. cbv beta.
  rewrite compare_version_refl. lia.
Qed.




(** ** [extract_numbers]: what the patterns match, and what [int] makes of it *)

Lemma is_digit_char a :
  Str.is_digit a = true →
  Str.is_c_space a = false ∧ Ascii.eqb a "-" = false ∧ Ascii.eqb a "+" = false ∧
  Ascii.eqb a "." = false ∧ Ascii.eqb a "_" = false ∧
  0 ≤ Str.digit_value a.
Proof.
  destruct a as [[] [] [] [] [] [] [] []]; simpl; try discriminate;
    intros _; repeat split; by vm_compute.
Qed.

Lemma span_digits_spec s :
  all_digits (Str.span_digits s).1 = true ∧
  s = (Str.span_digits s).1 +:+ (Str.span_digits s).2.
Proof.
  induction s as [|a s [IH1 IH2]]; simpl; [done|].
  destruct (Str.is_digit a) eqn:Ha; [|done].
  destruct (Str.span_digits s) as [d r]. simpl in *.
  rewrite Ha, IH1. split; [done|]. by rewrite IH2 at 1.
Qed.

Lemma contains_dot_digits d : all_digits d = true → Str.contains "." d = false.
Proof.
  induction d as [|a d IH]; simpl; [done|].
  intros [Ha Hd]%andb_true_iff.
  destruct (is_digit_char a Ha) as (_ & _ & _ & -> & _). by apply IH.
Qed.

Lemma digit_count_nonneg s : 0 ≤ Str.digit_count s.
Proof.
  induction s as [|a s IH]; simpl; [done|]. destruct (Str.is_digit a); lia.
Qed.

Lemma int_rstrip_digits d : all_digits d = true → Str.int_rstrip d = d.
Proof.
  induction d as [|a d IH]; simpl; [done|].
  intros [Ha Hd]%andb_true_iff. rewrite (IH Hd).
  destruct (is_digit_char a Ha) as (-> & _). by destruct d.
Qed.

Lemma int_strip_digits d :
  all_digits d = true → Str.int_rstrip (Str.int_lstrip d) = d.
Proof.
  intros Hd.
  assert (Str.int_lstrip d = d) as ->; [|by apply int_rstrip_digits].
  destruct d as [|a d]; simpl in *; [done|].
  apply andb_true_iff in Hd as [Ha _]. by destruct (is_digit_char a Ha) as [-> _].
Qed.

Lemma int_strip_signed c d :
  (c = "-" ∨ c = "+")%char → digits_text d →
  Str.int_rstrip (Str.int_lstrip (String c d)) = String c d.
Proof.
  intros Hc [Hne Hd].
  assert (Str.int_lstrip (String c d) = String c d) as ->
    by (by destruct Hc as [-> | ->]).
  simpl. rewrite (int_rstrip_digits d Hd). by destruct d.
Qed.

Lemma int_digits_all acc d :
  all_digits d = true →
  Str.int_digits acc true d = Some (Str.digits_value acc d).
Proof.
  revert acc. induction d as [|a d IH]; intros acc; simpl; [done|].
  intros [Ha Hd]%andb_true_iff. rewrite Ha. by apply IH.
Qed.

Lemma int_digits_text d :
  digits_text d → Str.int_digits 0 false d = Some (Str.digits_value 0 d).
Proof.
  intros [Hne Hd]. destruct d as [|a d]; [done|]. simpl in *.
  apply andb_true_iff in Hd as [Ha Hd]. rewrite Ha. by apply int_digits_all.
Qed.

Lemma digits_value_nonneg acc d :
  all_digits d = true → 0 ≤ acc → 0 ≤ Str.digits_value acc d.
Proof.
  revert acc. induction d as [|a d IH]; intros acc; simpl; [done|].
  intros [Ha Hd]%andb_true_iff Hacc. apply IH; [done|].
  destruct (is_digit_char a Ha) as (_&_&_&_&_&?). lia.
Qed.

(** [int] on a run of digits: its value, unless the run is longer than
    the limit. *)
Lemma py_int_digits d :
  digits_text d →
  Str.py_int d =
    if Str.int_max_str_digits <? Str.digit_count d then None
    else Some (Str.digits_value 0 d).
Proof.
  intros Hd. unfold Str.py_int. rewrite (int_strip_digits d (proj2 Hd)).
  destruct (_ <? _); [done|].
  rewrite <-(int_digits_text d Hd).
  destruct Hd as [Hne Hd]. destruct d as [|a d]; [done|].
  simpl in Hd. apply andb_true_iff in Hd as [Ha _].
  by destruct a as [[] [] [] [] [] [] [] []]; try discriminate Ha.
Qed.

Lemma py_int_signed m :
  signed_digits_text m →
  is_Some (Str.py_int m) ↔ Str.digit_count m ≤ Str.int_max_str_digits.
Proof.
  intros [Hd|(c & d & -> & Hc & Hd)].
  { rewrite (py_int_digits m Hd).
    destruct (Z.ltb_spec Str.int_max_str_digits (Str.digit_count m)).
    - split; [by intros []|lia].
    - split; [done|by eexists]. }
  unfold Str.py_int. rewrite (int_strip_signed c d Hc Hd).
  rewrite (int_digits_text d Hd).
  destruct (Z.ltb_spec Str.int_max_str_digits (Str.digit_count (String c d))).
  - split; [by intros []|lia].
  - split; [done|]. intros _. destruct Hc as [-> | ->]; by eexists.
Qed.

Lemma match_int_text s t : Regex.match_int s = Some t → digits_text t.
Proof.
  unfold Regex.match_int. pose proof (span_digits_spec s) as [Hd _].
  destruct (Str.span_digits s) as [d r]. simpl in Hd.
  destruct d; [done|]. by intros [= <-].
Qed.

Lemma match_decimal_dot s t :
  Regex.match_decimal s = Some t → Str.contains "." t = true.
Proof.
  unfold Regex.match_decimal.
  destruct (Str.span_digits s) as [d [|c r]]; [done|].
  destruct c as [[] [] [] [] [] [] [] []]; try done.
  destruct (Str.span_digits r) as [[|x f] r']; [done|].
  intros [= <-]. rewrite contains_app. simpl. apply orb_true_r.
Qed.

Lemma match_signed_text (X : string → option string) (P : string → Prop) s t :
  (∀ s t, X s = Some t → P t) →
  Regex.match_signed X s = Some t →
  P t ∨ ∃ c d, t = String c d ∧ (c = "-" ∨ c = "+")%char ∧ P d.
Proof.
  intros HX. unfold Regex.match_signed. destruct s as [|c s']; [by left; eauto|].
  destruct (Ascii.eqb c "-" || Ascii.eqb c "+") eqn:Hc; [|by left; eauto].
  destruct (X s') as [d|] eqn:Hd; [|by left; eauto].
  intros [= <-]. right. exists c, d. split; [done|]. split; [|by eauto].
  apply orb_true_iff in Hc as [Hc|Hc]; apply Ascii.eqb_eq in Hc; auto.
Qed.

(** A match of any of the four patterns holds a dot or is an optionally
    signed run of digits. *)
Lemma pattern_text mf ms s t :
  Regex.pattern mf ms s = Some t →
  Str.contains "." t = true ∨ signed_digits_text t.
Proof.
  destruct mf, ms; simpl.
  - unfold Regex.match_alt.
    destruct (Regex.match_signed Regex.match_decimal s) as [t'|] eqn:E.
    + intros [= <-]. left.
      destruct (match_signed_text _ (λ t, Str.contains "." t = true) _ _
                  match_decimal_dot E) as [H|(c & d & -> & Hc & H)]; [done|].
      simpl. rewrite H. by destruct (Ascii.eqb c ".").
    + intros H%match_int_text. right. by left.
  - unfold Regex.match_alt.
    destruct (Regex.match_decimal s) as [t'|] eqn:E.
    + intros [= <-]. left. by eapply match_decimal_dot.
    + intros H%match_int_text. right. by left.
  - intros H. right.
    destruct (match_signed_text _ digits_text _ _ match_int_text H)
      as [?|(c & d & -> & Hc & Hd)]; [by left|]. right. by exists c, d.
  - intros H%match_int_text. right. by left.
Qed.

Lemma findall_from_Forall (pat : string → option string) (P : string → Prop) :
  (∀ s t, pat s = Some t → P t) →
  ∀ s skip, Forall P (Regex.findall_from pat skip s).
Proof.
  intros Hpat. induction s as [|a s IH]; intros skip; simpl; [constructor|].
  destruct skip; [|apply IH].
  destruct (pat (String a s)) as [t|] eqn:E; [|apply IH].
  constructor; [by eapply Hpat|apply IH].
Qed.

Lemma findall_from_digit_free (pat : string → option string) :
  (∀ s, digit_free s = true → pat s = None) →
  ∀ s skip, digit_free s = true → Regex.findall_from pat skip s = [].
Proof.
  intros Hpat. induction s as [|a s IH]; intros skip; simpl; [done|].
  intros Hs. pose proof Hs as [_ Hs']%andb_true_iff.
  destruct skip; [|by apply IH].
  rewrite (Hpat (String a s)) by done. by apply IH.
Qed.

Lemma span_digits_digit_free s :
  digit_free s = true → Str.span_digits s = ("", s).
Proof.
  destruct s as [|a s]; simpl; [done|].
  intros [Ha _]%andb_true_iff. apply negb_true_iff in Ha. by rewrite Ha.
Qed.

Lemma pattern_digit_free mf ms s :
  digit_free s = true → Regex.pattern mf ms s = None.
Proof.
  assert (∀ s, digit_free s = true → Regex.match_int s = None) as Hint.
  { intros s' H. unfold Regex.match_int. by rewrite span_digits_digit_free. }
  assert (∀ s, digit_free s = true → Regex.match_decimal s = None) as Hdec.
  { intros s' H. unfold Regex.match_decimal. rewrite span_digits_digit_free by done.
    destruct s' as [|c r]; [done|].
    destruct c as [[] [] [] [] [] [] [] []]; try done.
    simpl in H. by rewrite span_digits_digit_free. }
  assert (∀ X : string → option string,
            (∀ s, digit_free s = true → X s = None) →
            ∀ s, digit_free s = true → Regex.match_signed X s = None) as Hsig.
  { intros X HX s' H. unfold Regex.match_signed.
    destruct s' as [|c r]; [by apply HX|].
    pose proof H as [_ Hr]%andb_true_iff.
    rewrite (HX r Hr), (HX (String c r) H). by destruct (_ || _). }
  intros Hs. destruct mf, ms; simpl; unfold Regex.match_alt;
    rewrite ?Hsig, ?Hdec, ?Hint; auto.
Qed.

(** What [number_of_match] makes of a match of the patterns. *)
Lemma number_of_match_text m :
  Str.contains "." m = true ∨ signed_digits_text m →
  (Str.contains "." m = true ∨ Str.digit_count m ≤ Str.int_max_str_digits →
     ∃ n, number_of_match m = Ok n) ∧
  (Str.contains "." m = false →
     Str.int_max_str_digits < Str.digit_count m →
     number_of_match m = Raise ValueError).
Proof.
  intros Hm. unfold number_of_match.
  destruct (Str.contains "." m) eqn:Hdot.
  { split; [by eexists|done]. }
  destruct Hm as [|Hm]; [done|].
  pose proof (py_int_signed m Hm) as Hint.
  destruct (Str.py_int m) as [z|].
  - split; [by eexists|]. intros _ Hlong.
    assert (Str.digit_count m ≤ Str.int_max_str_digits)
      by (apply Hint; by eexists). lia.
  - split; [|done]. intros [|Hshort]; [done|].
    apply Hint in Hshort. by destruct Hshort.
Qed.

(** X1.  [int()] accepts a match without a dot exactly when the match has
    at most 4300 digits, the limit CPython 3.11 starts with.  So
    [extract_numbers] returns one number for every match when no match
    without a dot is longer than that, and raises [ValueError] when one
    is. *)
Theorem extract_numbers_int_limit mf ms s :
  let matches := Regex.findall (Regex.pattern mf ms) s in
  (∀ m, m ∈ matches → Str.contains "." m = false →
     is_Some (Str.py_int m) ↔ Str.digit_count m ≤ Str.int_max_str_digits) ∧
  ((∀ m, m ∈ matches → Str.contains "." m = false →
      Str.digit_count m ≤ Str.int_max_str_digits) →
   ∃ l, extract_numbers s mf ms = Ok l ∧ length l = length matches) ∧
  ((∃ m, m ∈ matches ∧ Str.contains "." m = false ∧
         Str.int_max_str_digits < Str.digit_count m) →
   extract_numbers s mf ms = Raise ValueError).
Proof.
  intros matches.
  pose proof (findall_from_Forall (Regex.pattern mf ms) _
                (pattern_text mf ms) s O) as Hall.
  fold (Regex.findall (Regex.pattern mf ms) s) in Hall. fold matches in Hall.
  unfold extract_numbers. fold matches. clearbody matches.
  split; [|split].
  - intros m Hm Hdot.
    destruct (proj1 (Forall_forall _ _) Hall m Hm) as [H|H]; [congruence|].
    by apply py_int_signed.
  - induction Hall as [|m l Hm _ IH]; intros Hshort; [by exists []|].
    destruct (proj1 (number_of_match_text m Hm)) as [n Hn].
    { destruct (Str.contains "." m) eqn:Hdot; [by left|right].
      apply Hshort; [left|done]. }
    destruct IH as (ns & Hns & Hlen).
    { intros m' Hm'. apply Hshort. by right. }
    exists (n :: ns). simpl. rewrite Hn, Hns. by rewrite Hlen.
  - intros (m & Hin & Hdot & Hlong).
    induction Hall as [|m' l Hm' Hl IH]; [by apply elem_of_nil in Hin|].
    simpl. apply elem_of_cons in Hin as [<-|Hin].
    + by rewrite (proj2 (number_of_match_text m Hm') Hdot Hlong).
    + rewrite (IH Hin).
      destruct (number_of_match m') as [n|e] eqn:Hn; [done|].
      unfold number_of_match in Hn.
      destruct (Str.contains "." m'); [done|].
      by destruct (Str.py_int m'); simplify_eq.
Qed.

Lemma extract_numbers_int_limit_witness :
  extract_numbers example_long_name false false = Raise ValueError.
Proof.
  apply (proj2 (proj2 (extract_numbers_int_limit false false example_long_name))).
  exists (string_of_list_ascii (replicate 4301 "1"%char)).
  split; [|split].
  - vm_compute. left.
  - vm_compute. reflexivity.
  - vm_compute. reflexivity.
Defined.

(** X2.  With both flags off, as every caller in the script has them,
    [extract_numbers] returns the values of the runs of digits, [int]s
    that are not negative, whenever it returns; otherwise it raises
    [ValueError]. *)
Theorem extract_numbers_plain s :
  Forall (λ z, 0 ≤ z) (extract_version s) ∧
  (extract_numbers s false false = Ok (PyInt <$> extract_version s) ∨
   extract_numbers s false false = Raise ValueError).
Proof.
  unfold extract_version, extract_numbers. simpl Regex.pattern.
  pose proof (findall_from_Forall Regex.match_int _ match_int_text s O) as Hall.
  fold (Regex.findall Regex.match_int s) in Hall.
  induction Hall as [|m l Hm _ [IH1 IH2]]; [by split; [constructor|left]|].
  rewrite !fmap_cons. split.
  { constructor; [|done]. by apply digits_value_nonneg; [apply Hm|]. }
  assert (number_of_match m =
            if Str.int_max_str_digits <? Str.digit_count m
            then Raise ValueError else Ok (PyInt (Str.digits_value 0 m))) as Hn.
  { unfold number_of_match.
    rewrite (contains_dot_digits m (proj2 Hm)), (py_int_digits m Hm).
    by destruct (_ <? _). }
  cbn [try_map]. rewrite Hn.
  destruct (_ <? _); [by right|].
  destruct IH2 as [-> | ->]; [by left|by right].
Qed.

(** X3.  A string without a decimal digit holds no number, whatever the
    flags. *)
Theorem extract_numbers_digit_free mf ms s :
  digit_free s = true → extract_numbers s mf ms = Ok [].
Proof.
  intros Hs. unfold extract_numbers, Regex.findall.
  by rewrite (findall_from_digit_free _ (pattern_digit_free mf ms)).
Qed.

Lemma extract_numbers_digit_free_witness :
  extract_numbers "server_backups-+." true true = Ok [].
Proof. apply extract_numbers_digit_free. reflexivity. Defined.

(** ** [compare_version] as an ordering, and [get_local_server_version] *)

(** X4.  [compare_version] is antisymmetric; on versions of one length it
    is a total order (equal means identical, and it is transitive); across
    lengths "equal" is not transitive, since a version compares equal to
    each of its extensions. *)
Theorem compare_version_order :
  (∀ v1 v2, compare_version v2 v1 = - compare_version v1 v2) ∧
  (∀ v1 v2, length v1 = length v2 → compare_version v1 v2 = 0 → v1 = v2) ∧
  (∀ v1 v2 v3, length v1 = length v2 → length v2 = length v3 →
     compare_version v1 v2 ≤ 0 → compare_version v2 v3 ≤ 0 →
     compare_version v1 v3 ≤ 0) ∧
  (∀ v ext1 ext2, compare_version (v ++ ext1) v = 0 ∧
                  compare_version v (v ++ ext2) = 0) ∧
  ¬ (∀ v1 v2 v3, compare_version v1 v2 = 0 → compare_version v2 v3 = 0 →
       compare_version v1 v3 = 0).
Proof.
  split; [apply compare_version_antisym|].
  split; [apply compare_version_same_length|].
  split; [apply compare_version_trans|].
  split.
  - intros v ext1 ext2. split; apply compare_version_eq_iff.
    + rewrite length_app, Nat.min_r by lia.
      by rewrite take_app_length, firstn_all.
    + rewrite length_app, Nat.min_l by lia.
      by rewrite take_app_length, firstn_all.
  - intros H. by specialize (H [1; 5] [1] [1; 7] eq_refl eq_refl).
Qed.

(** A newer version dominates whatever the version it replaces
    dominated. *)
Lemma compare_version_raise a b v :
  0 ≤ compare_version a v → compare_version a b < 0 →
  0 ≤ compare_version b v.
Proof.
  revert b v. induction a as [|x a IH]; intros [|y b] [|z v];
    rewrite ?compare_version_nil_l, ?compare_version_nil_r; try lia.
  rewrite !compare_version_cons. specialize (IH b v).
  destruct (Z.ltb_spec x z), (Z.gtb_spec x z),
           (Z.ltb_spec x y), (Z.gtb_spec x y),
           (Z.ltb_spec y z), (Z.gtb_spec y z); lia.
Qed.

Lemma newer_vanilla_raise latest dirname v :
  0 ≤ compare_version latest v →
  0 ≤ compare_version (newer_vanilla latest dirname) v.
Proof.
  intros Hv. unfold newer_vanilla.
  destruct (Str.startswith "vanilla_" dirname); [|done].
  destruct (Z.ltb_spec (compare_version latest
              (extract_version (Str.remove_all "vanilla_" dirname))) 0);
    [|done].
  by eapply compare_version_raise.
Qed.

Lemma newer_vanilla_fold names latest :
  let r := fold_left newer_vanilla names latest in
  (∀ v, 0 ≤ compare_version latest v → 0 ≤ compare_version r v) ∧
  (r = latest ∨
   ∃ name, name ∈ names ∧ Str.startswith "vanilla_" name = true ∧
           r = extract_version (Str.remove_all "vanilla_" name)) ∧
  (∀ name, name ∈ names → Str.startswith "vanilla_" name = true →
     0 ≤ compare_version r (extract_version (Str.remove_all "vanilla_" name))).
Proof.
  revert latest. induction names as [|n names IH]; intros latest;
    cbn [fold_left]; cbv zeta.
  { split; [done|]. split; [by left|]. intros name Hn. by apply elem_of_nil in Hn. }
  destruct (IH (newer_vanilla latest n)) as (Hdom & Hfrom & Hmax).
  split; [|split].
  - intros v Hv. by apply Hdom, newer_vanilla_raise.
  - destruct Hfrom as [->|(name & Hin & Hs & ->)].
    + unfold newer_vanilla.
      destruct (Str.startswith "vanilla_" n) eqn:Hs; [|by left].
      destruct (_ <? 0); [|by left].
      right. exists n. split; [left|done].
    + right. exists name. split; [by right|done].
  - intros name [Heq|Hin]%elem_of_cons Hs; [subst name|by apply Hmax].
    apply Hdom. unfold newer_vanilla. rewrite Hs.
    destruct (Z.ltb_spec (compare_version latest
                (extract_version (Str.remove_all "vanilla_" n))) 0);
      [by rewrite compare_version_refl|lia].
Qed.

(** X5.  [get_local_server_version] only reads.  When [behavior_packs]
    is a directory it returns [[0]] or the version of one of the
    [vanilla_] entries, and what it returns is not older than [[0]] nor
    than the version of any [vanilla_] entry, in whatever order the
    directory lists them. *)
Theorem get_local_server_version_latest server_dir w es :
  stat (join server_dir "behavior_packs") w = Some (Dir es) →
  ∃ v, get_local_server_version server_dir w = (Ok v, w) ∧
       (v = [0] ∨
        ∃ name, name ∈ es.*1 ∧ Str.startswith "vanilla_" name = true ∧
                v = extract_version (Str.remove_all "vanilla_" name)) ∧
       0 ≤ compare_version v [0] ∧
       (∀ name, name ∈ es.*1 → Str.startswith "vanilla_" name = true →
          0 ≤ compare_version v
                (extract_version (Str.remove_all "vanilla_" name))).
Proof.
  intros Hd. exists (fold_left newer_vanilla es.*1 [0]).
  destruct (newer_vanilla_fold es.*1 [0]) as (Hdom & Hfrom & Hmax).
  split.
  { unfold get_local_server_version, bind.
    by rewrite (listdir_run _ _ _ Hd). }
  split; [done|]. split; [|done].
  apply Hdom. by rewrite compare_version_refl.
Qed.

Lemma get_local_server_version_latest_witness :
  get_local_server_version ["server"] example_packs
  = (Ok [1; 21; 3], example_packs).
Proof.
  destruct (get_local_server_version_latest ["server"] example_packs _ eq_refl)
    as (v & Hrun & _).
  rewrite Hrun. vm_compute in Hrun. injection Hrun as <-. reflexivity.
Defined.

(** X6.  Without a [behavior_packs] directory in the server directory
    [get_local_server_version] raises ([FileNotFoundError] when there is
    nothing of that name, [NotADirectoryError] when it is a regular file)
    and leaves everything as it is. *)
Theorem get_local_server_version_missing server_dir w :
  (∀ es, stat (join server_dir "behavior_packs") w ≠ Some (Dir es)) →
  ∃ e, get_local_server_version server_dir w = (Raise e, w) ∧
       (e = FileNotFoundError ∨ e = NotADirectoryError).
Proof.
  intros Hd. unfold get_local_server_version, bind, listdir.
  destruct (stat (join server_dir "behavior_packs") w) as [[ls|es]|].
  - exists NotADirectoryError. by split; [|right].
  - by destruct (Hd es).
  - exists FileNotFoundError. by split; [|left].
Qed.

Lemma get_local_server_version_missing_witness :
  ∃ e, get_local_server_version ["server"] example_merge_world
       = (Raise e, example_merge_world).
Proof.
  destruct (get_local_server_version_missing ["server"] example_merge_world)
    as (e & Hrun & _).
  - intros es. vm_compute. discriminate.
  - by exists e.
Defined.

(** ** [download_and_extract_latest_server]: requests, and the other paths *)

Section Quiet.

Lemma quiet_ret {A} (a : A) : quiet (ret a).
Proof. done. Qed.

Lemma quiet_raise {A} e : quiet (raise (A:=A) e).
Proof. done. Qed.

Lemma quiet_bind {A B} (m : M A) (f : A → M B) :
  quiet m → (∀ a, quiet (f a)) → quiet (bind m f).
Proof.
  intros Hm Hf w. unfold bind. specialize (Hm w).
  destruct (m w) as [[a|e] w1]; simpl in *; [|done].
  by rewrite Hf.
Qed.

Lemma quiet_try {A} (m h : M A) : quiet m → quiet h → quiet (try_except m h).
Proof.
  intros Hm Hh w. unfold try_except. specialize (Hm w).
  destruct (m w) as [[a|e] w1]; simpl in *; [done|]. by rewrite Hh.
Qed.

Lemma quiet_for_each {X} (l : list X) body :
  (∀ x, quiet (body x)) → quiet (for_each l body).
Proof.
  intros Hb. induction l as [|x l IH]; [done|].
  apply quiet_bind; [apply Hb|done].
Qed.

Lemma quiet_isfile p : quiet (isfile p).
Proof. done. Qed.

Lemma quiet_readlines p : quiet (readlines p).
Proof. intros w. unfold readlines. by destruct (stat p w) as [[]|]. Qed.

Lemma quiet_makedirs p : quiet (makedirs p).
Proof. intros w. unfold makedirs. by destruct (mkdirs p (root w)). Qed.

Lemma quiet_rmtree p : quiet (rmtree p).
Proof.
  intros w. unfold rmtree. destruct (stat p w) as [[]|]; simpl; try done.
  apply fetched_put.
Qed.

Lemma quiet_open_w p : quiet (open_w p).
Proof.
  intros w. unfold open_w.
  destruct (stat p w) as [[]|]; try done;
    by destruct (write_path p (Some (File [])) (root w)).
Qed.

Lemma quiet_write p text : quiet (write p text).
Proof.
  intros w. unfold write. destruct (stat p w) as [[]|]; simpl; try done.
  apply fetched_put.
Qed.

Lemma quiet_extractall ar archive_file extract_dir :
  quiet (extractall ar archive_file extract_dir).
Proof.
  unfold extractall. apply quiet_bind; [apply quiet_readlines|].
  intros content. destruct (unpack ar content) as [[members|] finished];
    [|apply quiet_raise].
  apply quiet_bind; [apply quiet_makedirs|]. intros _.
  apply quiet_bind.
  - intros w. destruct (copy_node "" (Dir members) (stat extract_dir w)).
    simpl. apply fetched_put.
  - intros _. destruct finished; [apply quiet_ret|apply quiet_raise].
Qed.

Lemma quiet_may_fetch {A} url (m : M A) : quiet m → may_fetch url m.
Proof. intros Hm w. left. apply Hm. Qed.

Lemma may_fetch_bind {A B} url (m : M A) (f : A → M B) :
  quiet m → (∀ a, may_fetch url (f a)) → may_fetch url (bind m f).
Proof.
  intros Hm Hf w. unfold bind. specialize (Hm w).
  destruct (m w) as [[a|e] w1]; simpl in *; [|by left].
  rewrite <-Hm. apply Hf.
Qed.

Lemma may_fetch_request {A B} url (answer : result A) (f : A → M B) :
  (∀ a, quiet (f a)) → may_fetch url (bind (requests_get url answer) f).
Proof.
  intros Hf w. right. unfold bind, requests_get.
  destruct answer as [a|e]; [|done]. by rewrite Hf.
Qed.

End Quiet.

Lemma write_all p w c content acc :
  stat p w = Some c →
  for_each content (write p) (put p (Some (File acc)) w)
  = (Ok tt, put p (Some (File (acc ++ content))) w).
Proof.
  intros Hp. revert acc. induction content as [|x content IH]; intros acc.
  { by rewrite app_nil_r. }
  cbn [for_each]. unfold bind, write at 1.
  rewrite stat_put_eq by by eapply can_write.
  rewrite put_twice, IH. by rewrite <-app_assoc.
Qed.

Section DownloadMore.
Context (ar : archiver) (net : network).

(** X7.  [download_and_extract_latest_server] never raises: whatever the
    network, the disk or the archive do, it returns.  It requests the
    download page, and after that at most the link found on the page;
    nothing else. *)
Theorem download_requests download_dir local_version w :
  ∃ r w',
    download_and_extract_latest_server ar net download_dir local_version w
      = (Ok r, w') ∧
    (fetched w' = fetched w ++ [search_url] ∨
     ∃ url, search net = Ok (Some url) ∧
            fetched w' = fetched w ++ [search_url; url]).
Proof.
  unfold download_and_extract_latest_server, try_except.
  unfold bind at 1, requests_get at 1.
  set (w0 := World (root w) (fetched w ++ [search_url])).
  destruct (search net) as [[url|]|e] eqn:Hsearch.
  2:{ exists None, w0. by split; [|left]. }
  2:{ exists None, w0. by split; [|left]. }
  destruct (compare_version local_version (extract_version url) <? 0).
  2:{ exists None, w0. by split; [|left]. }
  match goal with |- context [match ?m w0 with _ => _ end] =>
    assert (may_fetch url m) as Hfetch; [|specialize (Hfetch w0);
      destruct (m w0) as [[r|e] w'] eqn:Hrun] end.
  { apply may_fetch_bind; [apply quiet_makedirs|]. intros _.
    apply may_fetch_bind; [apply quiet_isfile|]. intros cached.
    apply may_fetch_bind.
    { destruct cached; [|apply quiet_ret].
      apply quiet_try.
      - apply quiet_bind; [apply quiet_extractall|]. intros _. apply quiet_ret.
      - apply quiet_bind; [apply quiet_rmtree|]. intros _.
        apply quiet_bind; [apply quiet_rmtree|]. intros _. apply quiet_ret. }
    intros from_cache. destruct from_cache; [apply quiet_may_fetch, quiet_ret|].
    apply may_fetch_request. intros [status_code content].
    destruct (status_code =? 200); [|apply quiet_ret].
    apply quiet_bind; [apply quiet_open_w|]. intros _.
    apply quiet_bind; [apply quiet_for_each; intros; apply quiet_write|].
    intros _. apply quiet_bind; [apply quiet_extractall|]. intros _.
    apply quiet_ret. }
  - exists r, w'. split; [done|]. simpl in Hfetch.
    destruct Hfetch as [->| ->]; [by left|].
    right. exists url. split; [done|]. by rewrite <-app_assoc.
  - exists None, w'. split; [done|]. simpl in Hfetch.
    destruct Hfetch as [->| ->]; [by left|].
    right. exists url. split; [done|]. by rewrite <-app_assoc.
Qed.

(** X8.  When the page cannot be fetched, shows no link, or links a
    release that is not newer than the local version, the function returns
    [None] and the disk is as it was: not even the download directory is
    created. *)
Theorem download_nothing_newer download_dir local_version w :
  (∀ url, search net = Ok (Some url) →
          0 ≤ compare_version local_version (extract_version url)) →
  download_and_extract_latest_server ar net download_dir local_version w
  = (Ok None, World (root w) (fetched w ++ [search_url])).
Proof.
  intros Hold.
  unfold download_and_extract_latest_server, try_except.
  unfold bind at 1, requests_get at 1.
  destruct (search net) as [[url|]|e] eqn:Hsearch; [|done..].
  specialize (Hold url eq_refl).
  by destruct (Z.ltb_spec (compare_version local_version (extract_version url)) 0);
    [lia|].
Qed.


End DownloadMore.

Lemma download_nothing_newer_witness :
  download_and_extract_latest_server example_archiver example_network
    ["cache"] [1; 21; 0; 3] example_cache_world
  = (Ok None, World (root example_cache_world) [search_url]).
Proof.
  apply (download_nothing_newer example_archiver example_network).
  intros url [= <-]. by vm_compute.
Defined.


(** ** [backup_local_server]: the format, and the server directory *)

(** X10.  A format other than [zip] and [7z] is refused with
    [ValueError], but only after a file that already carries the target
    name has been deleted. *)
Theorem backup_unknown_type ar now_time server_dir backup_dir type w old :
  type ≠ "zip" → type ≠ "7z" →
  let target_file :=
    join backup_dir ((now_time +:+ "-" +:+ basename server_dir) +:+ "." +:+ type) in
  stat target_file w = Some (File old) →
  backup_local_server ar now_time server_dir backup_dir type w
  = (Raise ValueError, put target_file None w) ∧
  stat target_file (put target_file None w) = None.
Proof.
  intros Hzip H7z target_file Hold.
  pose proof (is_dir_parent _ _ _ _ Hold) as Hdir.
  split; [|by apply stat_put_join].
  unfold backup_local_server. fold target_file.
  unfold bind at 1. rewrite (makedirs_is_dir _ _ Hdir).
  unfold bind at 1. rewrite (makedirs_is_dir _ _ Hdir).
  unfold bind at 1, isfile at 1. rewrite Hold.
  unfold bind at 1, when. rewrite (remove_file _ _ _ Hold).
  by rewrite !decide_False.
Qed.

Lemma backup_unknown_type_witness :
  backup_local_server example_archiver "202401010000" ["server"] ["backups"]
    "rar"
    (World (Dir [("server", Dir []);
                 ("backups", Dir [("202401010000-server.rar", File ["old"])])]) [])
  = (Raise ValueError,
     World (Dir [("server", Dir []); ("backups", Dir [])]) []).
Proof.
  destruct (backup_unknown_type example_archiver "202401010000" ["server"]
    ["backups"] "rar"
    (World (Dir [("server", Dir []);
                 ("backups", Dir [("202401010000-server.rar", File ["old"])])]) [])
    ["old"]) as [Hrun _].
  - discriminate.
  - discriminate.
  - reflexivity.
  - rewrite Hrun. vm_compute. reflexivity.
Defined.

(** X11.  Whatever its outcome, [backup_local_server] changes nothing at
    a path that lies apart from the backup directory; in particular the
    server directory is as it was when the two directories are apart. *)
Theorem backup_leaves_rest ar now_time server_dir backup_dir type q w :
  overlap q backup_dir = false →
  stat q (backup_local_server ar now_time server_dir backup_dir type w).2
  = stat q w.
Proof.
  intros Hov. revert w.
  change (frames q (backup_local_server ar now_time server_dir backup_dir type)).
  assert (is_prefix q backup_dir = false) as Hpre
    by by apply overlap_false_not_prefix.
  assert (∀ x, overlap (join backup_dir x) q = false) as Hx.
  { intros x. apply overlap_join_l. by rewrite overlap_sym. }
  assert (∀ target, frames q (write_archive ar type server_dir
                                (join backup_dir target))) as Hwrite.
  { intros target. unfold write_archive.
    apply frames_bind; [by apply frames_open_w|]. intros _ w.
    destruct (stat server_dir w); simpl; [|done]. by apply stat_put_apart. }
  unfold backup_local_server.
  apply frames_bind; [by apply frames_makedirs|]. intros _.
  apply frames_bind; [by apply frames_makedirs|]. intros _.
  apply frames_bind; [apply frames_isfile|]. intros b.
  apply frames_bind; [apply frames_when; by apply frames_remove|]. intros _.
  repeat case_decide; try apply Hwrite. apply frames_raise.
Qed.

Lemma backup_leaves_rest_witness :
  stat ["server"]
    (backup_local_server example_archiver "202401010000" ["server"] ["backups"]
       "zip" example_backup_world).2
  = stat ["server"] example_backup_world.
Proof. apply backup_leaves_rest. reflexivity. Defined.

(** ** [update_server_properties] once more *)

Lemma resolved_lines_again sd td d' tl :
  clean_values sd → clean_values td →
  (∀ k, live_key tl k → d' !! k = Some (resolved_value sd td k)) →
  resolved_lines sd d' (resolved_lines sd td tl) = resolved_lines sd td tl.
Proof.
  intros Hs Ht. unfold resolved_lines.
  induction tl as [|l tl IH]; intros Hlive; [done|].
  rewrite !fmap_cons. f_equal.
  2:{ apply IH. intros k (l' & Hin & H). apply Hlive. exists l'.
      split; [by right|done]. }
  destruct (is_key_line l) eqn:Hkl; [|by rewrite Hkl].
  pose proof (key_of_line_clean l) as Hk.
  rewrite resolved_line_eq.
  rewrite is_key_line_render by done.
  destruct (Str.startswith "#" (key_of_line l)) eqn:Hhash; [done|].
  simpl negb. cbv iota. rewrite resolved_line_eq.
  rewrite key_of_line_render by done.
  do 2 f_equal.
  assert (d' !! key_of_line l = Some (resolved_value sd td (key_of_line l)))
    as Hd'.
  { apply Hlive. exists l. split; [left|done]. }
  unfold resolved_value at 1. rewrite Hd'. simpl.
  unfold resolved_value. by destruct (sd !! key_of_line l).
Qed.

(** X12.  [update_server_properties] is idempotent: after a run that
    succeeded, a second run with the same two files succeeds and leaves
    everything as the first run left it. *)
Theorem update_server_properties_again src tgt w w1 :
  overlap tgt src = false →
  update_server_properties src tgt w = (Ok tt, w1) →
  update_server_properties src tgt w1 = (Ok tt, w1).
Proof.
  intros Hov Hrun.
  destruct (update_server_properties_Ok_inv _ _ _ _ Hrun)
    as (sl & tl & sd & td & Hsrc & Htgt & Hsd & Htd & ->).
  pose proof (read_dict_clean_values _ _ _ Hsd clean_values_empty) as Hcs.
  pose proof (read_dict_clean_values _ _ _ Htd clean_values_empty) as Hct.
  destruct (read_resolved_lines sd td tl ∅ Hcs Hct) as (d' & Hd' & Hlive).
  set (out := resolved_lines sd td tl) in *.
  rewrite (update_server_properties_run src tgt _ sl out).
  - rewrite Hsd, Hd'. rewrite put_twice. unfold out.
    rewrite resolved_lines_again; [done|done|done|].
    intros k Hk. apply Hlive. by left.
  - by rewrite stat_put_apart.
  - apply stat_put_eq. by eapply can_write.
Qed.

Lemma update_server_properties_again_witness :
  ∃ w1,
    update_server_properties ["old.properties"] ["new.properties"] example_world
      = (Ok tt, w1) ∧
    update_server_properties ["old.properties"] ["new.properties"] w1 = (Ok tt, w1).
Proof.
  eexists. split; [vm_compute; reflexivity|].
  apply (update_server_properties_again _ _ example_world); [reflexivity|].
  vm_compute. reflexivity.
Defined.

(** ** Pruning: what stays untouched, and bad names *)

Lemma with_keys_bad names x :
  x ∈ names → backup_key x = None → with_keys names = Raise ValueError.
Proof.
  induction names as [|y names IH]; intros Hin Hx; [by apply elem_of_nil in Hin|].
  simpl. apply elem_of_cons in Hin as [<-|Hin]; [by rewrite Hx|].
  destruct (backup_key y); [|done]. by rewrite IH.
Qed.

Lemma not_file_in_dir x es sub :
  dir_lookup x es = Some (Dir sub) → is_file_in es x = false.
Proof. unfold is_file_in. by intros ->. Qed.

Lemma dir_lookup_cache N es x :
  dir_lookup x (filter (λ e, ¬ cache_doomed N es e.1) es)
  = if decide (¬ cache_doomed N es x) then dir_lookup x es else None.
Proof. exact (dir_lookup_filter (λ x, ¬ cache_doomed N es x) x es). Qed.

Lemma dir_lookup_backup (names : list string) es x :
  dir_lookup x (filter (λ e, e.1 ∉ names) es)
  = if decide (x ∉ names) then dir_lookup x es else None.
Proof. exact (dir_lookup_filter (λ x, x ∉ names) x es). Qed.

(** X13.  Neither pruner sends a request, touches anything outside its
    directory, or touches a sub-directory of it. *)
Theorem prune_leaves_rest d N w es :
  stat d w = Some (Dir es) → NoDup es.*1 →
  ∀ w', w' = (delete_download_cache_files d N w).2 ∨
        w' = (delete_local_server_backup_files d N w).2 →
    fetched w' = fetched w ∧
    (∀ q, overlap d q = false → stat q w' = stat q w) ∧
    (∀ x sub, dir_lookup x es = Some (Dir sub) →
       stat (join d x) w' = Some (Dir sub)).
Proof.
  intros Hd Hnd w' Hw'.
  assert (∀ x sub, dir_lookup x es = Some (Dir sub) →
            stat (join d x) w = Some (Dir sub)) as Hsame.
  { intros x sub Hx. by rewrite (stat_join _ _ _ _ Hd). }
  destruct (decide (N < 0)) as [Hneg|Hpos].
  { rewrite delete_download_cache_files_negative,
      delete_local_server_backup_files_negative in Hw' by done.
    by destruct Hw' as [-> | ->]. }
  destruct Hw' as [-> | ->].
  - destruct (delete_download_cache_files_run d N w es)
      as (w' & -> & Hd' & Hfe & Hfr); [done|lia|]. simpl.
    split; [done|]. split; [done|]. intros x sub Hx.
    rewrite (stat_join _ _ _ _ Hd').
    rewrite dir_lookup_cache.
    rewrite decide_True; [done|]. intros (_ & Hf & _).
    by rewrite (not_file_in_dir _ _ _ Hx) in Hf.
  - destruct (with_keys_cases (listed_files es)) as [[keyed Hkeys]|Hkeys].
    + destruct (delete_local_server_backup_files_run d N w es keyed)
        as (w' & -> & Hd' & Hfe & Hfr); [done|done|lia|done|]. simpl.
      split; [done|]. split; [done|]. intros x sub Hx.
      rewrite (stat_join _ _ _ _ Hd').
      rewrite dir_lookup_backup.
      rewrite decide_True; [done|]. intros Hin%subseteq_drop.
      rewrite (backup_order_files es keyed Hkeys) in Hin.
      apply elem_of_listed_files in Hin.
      by rewrite (not_file_in_dir _ _ _ Hx) in Hin.
    + rewrite (delete_local_server_backup_files_raise d N w es ValueError)
        by (done || lia). done.
Qed.

Lemma prune_leaves_rest_witness :
  stat ["backups"; "notes"]
    (delete_local_server_backup_files ["backups"] 0 example_backups).2
  = Some (Dir []).
Proof.
  destruct (prune_leaves_rest ["backups"] 0 example_backups _ eq_refl)
    with (w' := (delete_local_server_backup_files ["backups"] 0 example_backups).2)
    as (_ & _ & Hsub).
  - apply (bool_decide_unpack _). reflexivity.
  - by right.
  - apply (Hsub "notes" []). reflexivity.
Defined.

(** X14.  A regular file in the backup directory whose name does not
    begin with an integer makes [delete_local_server_backup_files] raise
    [ValueError] before it deletes anything. *)
Theorem prune_backups_bad_name d N w es x :
  stat d w = Some (Dir es) → 0 ≤ N →
  x ∈ listed_files es → backup_key x = None →
  delete_local_server_backup_files d N w = (Raise ValueError, w).
Proof.
  intros Hd HN Hx Hkey.
  apply (delete_local_server_backup_files_raise d N w es); [done..|].
  by eapply with_keys_bad.
Qed.

Lemma prune_backups_bad_name_witness :
  delete_local_server_backup_files ["backups"] 1 example_backups_stray
  = (Raise ValueError, example_backups_stray).
Proof.
  apply (prune_backups_bad_name ["backups"] 1 example_backups_stray _ "notes.txt"
           eq_refl).
  - lia.
  - vm_compute. right. left.
  - reflexivity.
Defined.

(** X15.  With the count 0, the default of [--keep_cache_num],
    [delete_download_cache_files] deletes every regular file of the
    directory and keeps its sub-directories. *)
Theorem prune_cache_keep_none d w es :
  stat d w = Some (Dir es) →
  ∃ w', delete_download_cache_files d 0 w = (Ok tt, w') ∧
        ∀ x, stat (join d x) w' =
             match dir_lookup x es with
             | Some (Dir sub) => Some (Dir sub)
             | _ => None
             end.
Proof.
  intros Hd.
  destruct (delete_download_cache_files_run d 0 w es)
    as (w' & Hrun & Hd' & _); [done|lia|].
  exists w'. split; [done|]. intros x.
  rewrite (stat_join _ _ _ _ Hd').
  rewrite dir_lookup_cache.
  destruct (dir_lookup x es) as [[ls|sub]|] eqn:Hx.
  - rewrite decide_False; [done|]. intros Hn. apply Hn.
    assert (is_file_in es x = true) as Hf by (unfold is_file_in; by rewrite Hx).
    split; [|split; [done|]].
    + apply elem_of_listed_files in Hf.
      destruct (listed_files es); [by apply elem_of_nil in Hf|simpl; lia].
    + unfold cache_keep. by rewrite last_n_0.
  - rewrite decide_True; [done|]. intros (_ & Hf & _).
    by rewrite (not_file_in_dir _ _ _ Hx) in Hf.
  - by case_decide.
Qed.

Lemma prune_cache_keep_none_witness :
  ∃ w', delete_download_cache_files ["cache"] 0 example_cache_uniform = (Ok tt, w') ∧
        stat ["cache"; "server-1.21.zip"] w' = None ∧
        stat ["cache"; "server-1.21"] w' = Some (Dir []).
Proof.
  destruct (prune_cache_keep_none ["cache"] example_cache_uniform _ eq_refl)
    as (w' & Hrun & Hst).
  exists w'. split; [exact Hrun|].
  split; [exact (Hst "server-1.21.zip")|exact (Hst "server-1.21")].
Defined.

(** ** [update_server] to another directory *)

Lemma special_to_copy :
  filter (λ x, x ≠ "server.properties") SPECIAL_PATHS
  = ["worlds"; "allowlist.json"; "permissions.json"].
Proof. reflexivity. Qed.

Lemma overlap_apart_ne p q : overlap p q = false → p ≠ q.
Proof.
  intros Hov ->. revert Hov. induction q as [|x q IH]; simpl; [done|].
  by rewrite decide_True.
Qed.

Section Relocate.
Context (local latest target : path).
Context (Hlt : overlap local target = false).

Lemma frames_relocate_prepare q :
  is_prefix q target = false →
  (∀ f, overlap (join target f) q = false) →
  frames q (bind (makedirs target) (λ _, copy_release latest target)).
Proof.
  intros Hpre Hq. apply frames_bind; [by apply frames_makedirs|]. intros _.
  apply frames_copy_release. intros f _. apply Hq.
Qed.

Lemma overlap_target_local_entry f p :
  overlap (join target f) (join local p) = false.
Proof. apply overlap_join_l, overlap_join_r. by rewrite overlap_sym. Qed.

Lemma overlap_target_local f : overlap (join target f) local = false.
Proof. apply overlap_join_l. by rewrite overlap_sym. Qed.

Lemma fails_keeping_bind {A B} (I : world → Prop) (m : M A) (f : A → M B) w :
  I w → (∀ w, I w → I (m w).2) →
  (∀ a w, I w → fails_keeping I (f a) w) →
  fails_keeping I (bind m f) w.
Proof.
  intros HI Hm Hf. unfold fails_keeping, bind. specialize (Hm w HI).
  destruct (m w) as [[a|e] w1]; simpl in *; [by apply Hf|by exists e].
Qed.

Lemma fails_keeping_first {A B} (I : world → Prop) (m : M A) (f : A → M B) w :
  fails_keeping I m w → fails_keeping I (bind m f) w.
Proof.
  intros (e & He & HI). unfold fails_keeping, bind.
  destruct (m w) as [[a|e'] w1]; simpl in *; [done|by exists e'].
Qed.

Lemma fails_keeping_for_each {X} (I : world → Prop) (l : list X) body x w :
  x ∈ l → I w →
  (∀ y w, I w → I (body y w).2) →
  (∀ w, I w → fails_keeping I (body x) w) →
  fails_keeping I (for_each l body) w.
Proof.
  intros Hx HI Hkeep Hfail. revert w HI.
  induction l as [|y l IH]; intros w HI; [by apply elem_of_nil in Hx|].
  cbn [for_each]. apply elem_of_cons in Hx as [<-|Hx].
  - by apply fails_keeping_first, Hfail.
  - apply fails_keeping_bind; [done|apply Hkeep|]. intros _ w1 HI1. by apply IH.
Qed.

(** X16.  An update to another directory needs [worlds],
    [allowlist.json] and [permissions.json] in the old server: when one
    of them is missing the update raises, and the old server directory is
    as it was. *)
Theorem update_server_relocate_incomplete w p :
  p ∈ ["worlds"; "allowlist.json"; "permissions.json"] →
  stat (join local p) w = None →
  ∃ e w', update_server local latest (Some target) w = (Raise e, w') ∧
          stat local w' = stat local w.
Proof.
  intros Hp Hmissing.
  set (I := λ w1, stat (join local p) w1 = None ∧ stat local w1 = stat local w).
  assert (target ≠ local) as Hne by (apply not_eq_sym; by apply overlap_apart_ne).
  assert (is_prefix local target = false) as Hpre
    by by apply overlap_false_not_prefix.
  assert (is_prefix (join local p) target = false) as Hpre'.
  { apply overlap_false_not_prefix. by apply overlap_join_l. }
  assert (∀ {A} (m : M A), frames (join local p) m → frames local m →
            ∀ w1, I w1 → I (m w1).2) as Hkeep.
  { intros A m H1 H2 w1 [Ha Hb]. split; [by rewrite H1|by rewrite H2]. }
  assert (fails_keeping I (update_server local latest (Some target)) w) as Hfail.
  { unfold update_server. simpl default.
    apply fails_keeping_bind; [done| |intros _ w1 HI1].
    { apply Hkeep; by apply frames_makedirs. }
    apply fails_keeping_bind; [done| |intros _ w2 HI2].
    { apply Hkeep; apply frames_copy_release; intros f _;
        [apply overlap_target_local_entry|apply overlap_target_local]. }
    apply fails_keeping_first.
    unfold copy_special. rewrite bool_decide_true by done. cbn [when].
    rewrite special_to_copy.
    apply (fails_keeping_for_each I _ _ p); [done|done| |].
    - intros y w3. apply Hkeep; apply frames_copy_entry;
        [apply overlap_target_local_entry|apply overlap_target_local].
    - intros w3 [Ha Hb]. exists FileNotFoundError.
      unfold copy_entry, bind, isfile, copytree. rewrite Ha. simpl.
      by rewrite Ha. }
  destruct Hfail as (e & He & _ & Hsame).
  destruct (update_server local latest (Some target) w) as [r w'] eqn:Hrun.
  simpl in *. subst r. by exists e, w'.
Qed.

(** X17.  An update to another directory that succeeds has put the old
    server's [allowlist.json] and [permissions.json] (any protected entry
    other than [server.properties] that is a regular file) into the new
    directory with the content they had. *)
Theorem update_server_relocate_copies w w' p c :
  overlap latest target = false →
  p ∈ ["worlds"; "allowlist.json"; "permissions.json"] →
  stat (join local p) w = Some (File c) →
  (∀ es, stat (join target p) w ≠ Some (Dir es)) →
  update_server local latest (Some target) w = (Ok tt, w') →
  stat (join target p) w' = Some (File c).
Proof.
  intros Hlatest Hp Hsrc Hdst.
  assert (target ≠ local) as Hne by (apply not_eq_sym; by apply overlap_apart_ne).
  assert (p ≠ "server.properties" ∧ p ≠ "server.properties.temp") as [Hp1 Hp2].
  { repeat (apply elem_of_cons in Hp as [->|Hp]; [done|]).
    by apply elem_of_nil in Hp. }
  unfold update_server. simpl default.
  rewrite bool_decide_true by done.
  intros ([] & w1 & Hmk & H)%bind_Ok_inv.
  apply bind_Ok_inv in H as ([] & w2 & Hrel & H).
  apply bind_Ok_inv in H as ([] & w3 & Hspecial & H).
  apply bind_Ok_inv in H as ([] & w4 & Hmerge & H).
  apply bind_Ok_inv in H as ([] & w5 & Hrm & Hrm').
  assert (stat (join local p) w2 = Some (File c)) as Hsrc2.
  { rewrite (frames_run _ _ _ _ _
      (frames_copy_release _ latest target
         (λ f _, overlap_target_local_entry f p)) Hrel).
    rewrite (frames_run _ _ _ _ _ (frames_makedirs _ target
      (overlap_false_not_prefix _ _ (overlap_join_l _ _ p Hlt))) Hmk).
    done. }
  assert (∀ es, stat (join target p) w2 ≠ Some (Dir es)) as Hdst2.
  { intros es.
    rewrite (frames_run _ _ _ _ _
      (frames_copy_release (join target p) latest target
         (λ f Hf, overlap_join_ne target f p
            (special_not_sibling f p ltac:(set_solver) Hf))) Hrel).
    rewrite (frames_run _ _ _ _ _ (frames_makedirs _ target
      (is_prefix_join target p)) Hmk).
    apply Hdst. }
  assert (stat (join target p) w3 = Some (File c)) as Hdst3.
  { unfold copy_special in Hspecial.
    rewrite bool_decide_true in Hspecial by done. cbn [when] in Hspecial.
    rewrite special_to_copy in Hspecial.
    refine (proj2 (for_each_establish _ _
      (λ w, stat (join local p) w = Some (File c) ∧
            ∀ es, stat (join target p) w ≠ Some (Dir es))
      (λ w, stat (join local p) w = Some (File c) ∧
            stat (join target p) w = Some (File c))
      p w2 w3 _ _ _ Hp (conj Hsrc2 Hdst2) Hspecial)).
    - intros y w0 [Ha Hb].
      assert (stat (join local p) (copy_entry (join local y) (join target y) w0).2
              = Some (File c)) as Ha'.
      { rewrite frames_copy_entry; [done|apply overlap_target_local_entry]. }
      split; [done|]. destruct (decide (y = p)) as [->|Hy].
      + destruct (copy_entry (join local p) (join target p) w0) as [r wb] eqn:E.
        destruct (copy_file_entry _ _ _ _ _ _ Ha Hb E) as [[_ Hq]|[_ ->]];
          simpl; [by intros es; rewrite Hq|done].
      + intros es. rewrite frames_copy_entry; [apply Hb|].
        by apply overlap_join_ne.
    - intros y w0 [Ha Hb].
      assert (stat (join local p) (copy_entry (join local y) (join target y) w0).2
              = Some (File c)) as Ha'.
      { rewrite frames_copy_entry; [done|apply overlap_target_local_entry]. }
      split; [done|]. destruct (decide (y = p)) as [->|Hy].
      + destruct (copy_entry (join local p) (join target p) w0) as [r wb] eqn:E.
        assert (∀ es, stat (join target p) w0 ≠ Some (Dir es)) as Hnd
          by (intros es; by rewrite Hb).
        destruct (copy_file_entry _ _ _ _ _ _ Ha Hnd E) as [[_ Hq]|[_ ->]];
          simpl; done.
      + rewrite frames_copy_entry; [done|]. by apply overlap_join_ne.
    - intros w0 wb [Ha Hb] E. split.
      + rewrite <-Ha.
        apply (frames_run _ _ _ _ _
          (frames_copy_entry _ (join local p) (join target p)
             (overlap_target_local_entry p p)) E).
      + by destruct (copy_file_entry _ _ _ _ _ _ Ha Hb E) as [[_ Hq]|[Hr _]]. }
  rewrite (frames_run _ _ _ _ _ (frames_rmtree (join target p) latest
    (overlap_join_r _ _ p Hlatest)) Hrm').
  cbn [when] in Hrm.
  rewrite (frames_run _ _ _ _ _ (frames_rmtree (join target p) local
    (overlap_join_r _ _ p Hlt)) Hrm).
  rewrite (frames_run _ _ _ _ _ (frames_merge_properties (join target p)
    local latest target
    (overlap_join_ne target _ p (not_eq_sym Hp2))
    (overlap_join_ne target _ p (not_eq_sym Hp1))) Hmerge).
  done.
Qed.

End Relocate.

Lemma update_server_relocate_incomplete_witness :
  ∃ e w', update_server ["server"] ["release"] (Some ["new"])
            example_incomplete_world = (Raise e, w') ∧
          stat ["server"] w' = stat ["server"] example_incomplete_world.
Proof.
  apply (update_server_relocate_incomplete ["server"] ["release"] ["new"]
           eq_refl example_incomplete_world "permissions.json").
  - set_solver.
  - reflexivity.
Defined.

Lemma update_server_relocate_copies_witness :
  ∃ w', update_server ["server"] ["release"] (Some ["new"]) example_merge_world
          = (Ok tt, w') ∧
        stat ["new"; "allowlist.json"] w' = Some (File ["[steve]"]).
Proof.
  eexists. split; [vm_compute; reflexivity|].
  apply (update_server_relocate_copies ["server"] ["release"] ["new"]
           eq_refl example_merge_world _ "allowlist.json" ["[steve]"]).
  - reflexivity.
  - set_solver.
  - reflexivity.
  - intros es. vm_compute. discriminate.
  - vm_compute. reflexivity.
Defined.

(** ** The entry point *)

Lemma get_local_server_version_run server_dir w es :
  stat (join server_dir "behavior_packs") w = Some (Dir es) →
  get_local_server_version server_dir w
  = (Ok (fold_left newer_vanilla es.*1 [0]), w).
Proof.
  intros Hd. unfold get_local_server_version, bind.
  by rewrite (listdir_run _ _ _ Hd).
Qed.

(** X18.  A run of the script on a server that is not older than the
    release the page links (or when the page cannot be fetched or links
    nothing) requests the page and changes nothing on the disk: no
    backup, no download directory, no pruning. *)
Theorem main_up_to_date ar net now_time cwd args w es :
  stat (join (Args.server_dir args) "behavior_packs") w = Some (Dir es) →
  (∀ v url, (get_local_server_version (Args.server_dir args) w).1 = Ok v →
            search net = Ok (Some url) →
            0 ≤ compare_version v (extract_version url)) →
  main ar net now_time cwd args w
  = (Ok tt, World (root w) (fetched w ++ [search_url])).
Proof.
  intros Hd Hold. unfold main.
  pose proof (get_local_server_version_run _ _ _ Hd) as Hv.
  unfold bind at 1. rewrite Hv.
  specialize (Hold (fold_left newer_vanilla es.*1 [0])).
  rewrite Hv in Hold.
  unfold bind at 1.
  unfold download_and_extract_latest_server, try_except.
  unfold bind at 1, requests_get at 1.
  destruct (search net) as [[url|]|e] eqn:Hsearch; [|done..].
  specialize (Hold url eq_refl eq_refl).
  by destruct (Z.ltb_spec
       (compare_version (fold_left newer_vanilla es.*1 [0]) (extract_version url))
       0); [lia|].
Qed.

Lemma main_up_to_date_witness :
  main example_archiver example_network "202401010000" []
    (Args.Make ["server"] ["cache"] None None "zip" 0 (-1)) example_packs
  = (Ok tt, World (root example_packs) [search_url]).
Proof.
  apply (main_up_to_date example_archiver example_network "202401010000" []
           (Args.Make ["server"] ["cache"] None None "zip" 0 (-1))
           example_packs _ eq_refl).
  intros v url Hv [= <-]. vm_compute in Hv. injection Hv as <-. by vm_compute.
Defined.

(** X19.  Without a [behavior_packs] directory in the server directory
    the script stops with the exception of [get_local_server_version]
    before it has requested or changed anything. *)
Theorem main_without_server ar net now_time cwd args w :
  (∀ es, stat (join (Args.server_dir args) "behavior_packs") w ≠ Some (Dir es)) →
  ∃ e, main ar net now_time cwd args w = (Raise e, w).
Proof.
  intros Hd. unfold main, bind at 1, get_local_server_version, bind, listdir.
  destruct (stat (join (Args.server_dir args) "behavior_packs") w)
    as [[ls|es]|]; [by eexists|by destruct (Hd es)|by eexists].
Qed.

Lemma main_without_server_witness :
  ∃ e, main example_archiver example_network "202401010000" [] example_args
         example_merge_world = (Raise e, example_merge_world).
Proof.
  apply main_without_server. intros es. vm_compute. discriminate.
Defined.

(** X20.  With [--keep_backup_num 0] and no [--backup_dir] the backup
    directory stays unset.  A run that finds a newer release then updates
    the server and prunes the cache, and after that ends in [TypeError]
    when the current directory is not empty: the last step lists the
    current directory and joins its first name to [None].  The update
    stays in place. *)
Theorem main_backup_dir_unset ar net now_time cwd args w v w0 latest w1 w2 w3 e es :
  Args.backup_dir args = None → Args.keep_backup_num args = 0 →
  get_local_server_version (Args.server_dir args) w = (Ok v, w0) →
  download_and_extract_latest_server ar net (Args.download_dir args) v w0
    = (Ok (Some latest), w1) →
  update_server (Args.server_dir args) latest (Args.target_dir args) w1
    = (Ok tt, w2) →
  delete_download_cache_files (Args.download_dir args)
    (Args.keep_cache_num args) w2 = (Ok tt, w3) →
  stat cwd w3 = Some (Dir (e :: es)) →
  main ar net now_time cwd args w = (Raise TypeError, w3).
Proof.
  intros Hdir Hkeep Hv Hdl Hup Hcache Hcwd. unfold main.
  rewrite Hdir, Hkeep. rewrite bool_decide_false by lia.
  unfold bind at 1. rewrite Hv.
  unfold bind at 1. rewrite Hdl.
  unfold bind at 1, when at 1, ret at 1.
  unfold bind at 1. rewrite Hup.
  unfold bind at 1. rewrite Hcache.
  unfold delete_local_server_backup_files_unset.
  change (0 >=? 0) with true. cbv iota.
  unfold bind, listdir. by rewrite Hcwd.
Qed.

Lemma main_backup_dir_unset_witness :
  ∃ w3, main release_archiver example_network "202401010000" [] example_args
          example_install = (Raise TypeError, w3) ∧
        stat ["server"; "bedrock_server"] w3 = Some (File ["new binary"]) ∧
        stat ["server"; "worlds"] w3 = Some (Dir [("level", File ["chunks"])]) ∧
        stat ["cache"] w3 = Some (Dir []).
Proof.
  eexists. split.
  - eapply (main_backup_dir_unset release_archiver example_network
              "202401010000" [] example_args example_install).
    + reflexivity.
    + reflexivity.
    + vm_compute. reflexivity.
    + vm_compute. reflexivity.
    + vm_compute. reflexivity.
    + vm_compute. reflexivity.
    + vm_compute. reflexivity.
  - vm_compute. repeat split.
Defined.
